(** * ProcessThreadManager: the concurrency coordination core

    A shallow embedding of [src/src/Synchronization.cpp],
    [src/src/ThreadPool.cpp] and [src/include/ThreadPool.h].

    Every method body that runs under one of the classes' internal mutexes
    is one atomic transition of the object's state.  A thread that sleeps
    on a condition variable sits in that variable's wait set; [notify_one]
    and [notify_all] move threads out of it.  The C++ standard library and
    POSIX are not part of the repository: [std::timed_mutex],
    [std::condition_variable] and the [sem_*] calls are modelled by their
    documented contracts, and the places where the contract leaves a
    choice (which waiter is woken, whether a timed wait is served in time)
    take that choice as an argument. *)

From stdpp Require Import base option list strings.
From Stdlib Require Import ZArith Lia.

Local Open Scope Z_scope.

(** ** Machine integers (LP64: [int] is 32 bits, [long], [time_t],
    [std::chrono::milliseconds::rep] and [size_t] are 64 bits) *)

Definition wrap_int (z : Z) : Z := (z + 2 ^ 31) mod 2 ^ 32 - 2 ^ 31.
Definition wrap_long (z : Z) : Z := (z + 2 ^ 63) mod 2 ^ 64 - 2 ^ 63.
Definition wrap_size_t (z : Z) : Z := z mod 2 ^ 64.

(** Threads are named by natural numbers. *)
Definition thread_id := nat.

(** How many entries of a list equal [p]: used to count the threads that
    stand at a given program point. *)
Definition count_eq {A} `{EqDecision A} (p : A) (l : list A) : Z :=
  Z.of_nat (length (filter (λ q, q = p) l)).

(** ** Condition variables

    The wait set of a [std::condition_variable]: the threads blocked in
    [wait], oldest first.  [notify_one] unblocks one of them, which one is
    the implementation's choice ([pick]); [notify_all] unblocks all.
    A wait may also end spuriously ([wake_up]). *)
Module CondVar.

Definition wait_set := list thread_id.

Definition block (t : thread_id) (ws : wait_set) : wait_set := ws ++ [t].

Definition wake_up (t : thread_id) (ws : wait_set) : wait_set :=
  filter (λ u, u ≠ t) ws.

(** [notify_one pick ws]: the threads woken and the remaining wait set. *)
Definition notify_one (pick : nat) (ws : wait_set) : list thread_id * wait_set :=
  match ws with
  | [] => ([], [])
  | _ :: _ =>
      let i := (pick `mod` length ws)%nat in
      (take 1 (drop i ws), take i ws ++ drop (S i) ws)
  end.

Definition notify_all (ws : wait_set) : list thread_id * wait_set := (ws, []).

End CondVar.

(** ** Semaphore: the wrapper around a POSIX unnamed semaphore *)
Module Semaphore.

Record timespec := { tv_sec : Z; tv_nsec : Z }.

(** The POSIX interface the class is written against.  Every call returns
    its return code and the semaphore it leaves behind; a call that blocks
    returns once it is served or fails. *)
Class Posix := {
  sem_t : Type;
  sem_init : sem_t -> Z -> Z -> Z * sem_t;
  sem_wait : sem_t -> Z * sem_t;
  sem_trywait : sem_t -> Z * sem_t;
  sem_timedwait : sem_t -> timespec -> Z * sem_t;
  sem_post : sem_t -> Z * sem_t;
  sem_getvalue : sem_t -> Z * Z
}.

(** The calls an operation makes on the underlying [sem_t]. *)
Inductive sem_call :=
| CallWait
| CallTryWait
| CallTimedWait (abs_timeout : timespec)
| CallPost
| CallGetValue.

Section WithPosix.
Context `{Posix}.

Record Semaphore := {
  sem : sem_t;
  name : string;
  initialized : bool
}.

Definition with_sem (s : Semaphore) (x : sem_t) : Semaphore :=
  {| sem := x; name := name s; initialized := initialized s |}.

(** [Semaphore::Semaphore(value, semName)], over the raw storage of the
    [sem] member. *)
Definition create (raw : sem_t) (value : Z) (semName : string) : Semaphore :=
  let nm := if decide (semName = EmptyString) then "unnamed" else semName in
  let '(rc, x) := sem_init raw 0 value in
  {| sem := x; name := nm; initialized := (rc =? 0) |}.

Definition wait (s : Semaphore) : bool * Semaphore * list sem_call :=
  if negb (initialized s) then (false, s, [])
  else let '(rc, x) := sem_wait (sem s) in (rc =? 0, with_sem s x, [CallWait]).

Definition tryWait (s : Semaphore) : bool * Semaphore * list sem_call :=
  if negb (initialized s) then (false, s, [])
  else let '(rc, x) := sem_trywait (sem s) in (rc =? 0, with_sem s x, [CallTryWait]).

(** The three lines of [timedWait] that turn the clock reading [now] and
    the relative [timeout] (milliseconds) into the absolute [timespec]
    handed to [sem_timedwait].  C++ [/] and [%] truncate toward zero:
    [Z.quot] and [Z.rem]. *)
Definition timedWait_deadline (now : timespec) (timeout : Z) : timespec :=
  let nsec := wrap_long (tv_nsec now + wrap_long (Z.rem timeout 1000 * 1000000)) in
  let sec :=
    wrap_long (tv_sec now
               + wrap_long (Z.quot timeout 1000 + Z.quot nsec 1000000000)) in
  {| tv_sec := sec; tv_nsec := Z.rem nsec 1000000000 |}.

(** [now] is what [clock_gettime(CLOCK_REALTIME, &ts)] stores. *)
Definition timedWait (now : timespec) (timeout : Z) (s : Semaphore)
  : bool * Semaphore * list sem_call :=
  if negb (initialized s) then (false, s, [])
  else
    let ts := timedWait_deadline now timeout in
    let '(rc, x) := sem_timedwait (sem s) ts in
    (rc =? 0, with_sem s x, [CallTimedWait ts]).

Definition post (s : Semaphore) : bool * Semaphore * list sem_call :=
  if negb (initialized s) then (false, s, [])
  else let '(rc, x) := sem_post (sem s) in (rc =? 0, with_sem s x, [CallPost]).

Definition getValue (s : Semaphore) : Z * list sem_call :=
  if negb (initialized s) then (-1, [])
  else
    let '(rc, value) := sem_getvalue (sem s) in
    (if rc =? 0 then value else -1, [CallGetValue]).

End WithPosix.

(** A counting semaphore as an instance of the interface: the permit count
    itself.  A wait on a count of zero that is never served comes back
    with [-1], as an interrupted or timed-out wait does. *)
Definition SEM_VALUE_MAX : Z := 2 ^ 31 - 1.

Definition counting : Posix := {|
  sem_t := Z;
  sem_init := fun _ _ value =>
    if (0 <=? value) && (value <=? SEM_VALUE_MAX) then (0, value) else (-1, 0);
  sem_wait := fun v => if 0 <? v then (0, v - 1) else (-1, v);
  sem_trywait := fun v => if 0 <? v then (0, v - 1) else (-1, v);
  sem_timedwait := fun v ts =>
    if 0 <? v then (0, v - 1) else (-1, v);
  sem_post := fun v => if v <? SEM_VALUE_MAX then (0, v + 1) else (-1, v);
  sem_getvalue := fun v => (0, v)
|}.

End Semaphore.

(** ** SafeMutex: a timed mutex that remembers its owner *)
Module SafeMutex.

(** [std::timed_mutex]: [None] when free, otherwise the thread holding it.
    It is not recursive: an attempt on a mutex that is held fails, whoever
    holds it. *)
Definition timed_mutex := option thread_id.

Record SafeMutex := {
  mtx : timed_mutex;
  name : string;
  owner : option thread_id;      (* [None] is [std::thread::id()] *)
  lockCount : Z
}.

Definition create (mutexName : string) : SafeMutex :=
  {| mtx := None;
     name := if decide (mutexName = EmptyString) then "unnamed" else mutexName;
     owner := None;
     lockCount := 0 |}.

Inductive diagnostic :=
| RecursiveLockWarning (t : thread_id) (mutex : string)
| DeadlockWarning (t : thread_id) (mutex : string).

(** What a call hands back: the return value, the time spent blocked
    (milliseconds) and the lines written to [std::cerr]. *)
Record outcome := { ret : bool; waited : Z; cerr : list diagnostic }.

(** What the holder of the mutex does while a caller is blocked in
    [try_lock_for]. *)
Inductive contention :=
| HeldThroughout
| ReleasedAfter (ms : Z).

Definition with_mtx (m : SafeMutex) (x : timed_mutex) : SafeMutex :=
  {| mtx := x; name := name m; owner := owner m; lockCount := lockCount m |}.

Definition unlock (m : SafeMutex) : SafeMutex :=
  {| mtx := None; name := name m; owner := None;
     lockCount := wrap_int (lockCount m - 1) |}.

(** [owner.store(thisThreadId); lockCount++] *)
Definition record_owner (t : thread_id) (m : SafeMutex) : SafeMutex :=
  {| mtx := mtx m; name := name m; owner := Some t;
     lockCount := wrap_int (lockCount m + 1) |}.

Definition try_lock (t : thread_id) (m : SafeMutex) : bool * SafeMutex :=
  match mtx m with
  | None => (true, with_mtx m (Some t))
  | Some _ => (false, m)
  end.

Definition try_lock_for (t : thread_id) (timeout : Z) (env : contention)
    (m : SafeMutex) : bool * Z * SafeMutex :=
  match mtx m with
  | None => (true, 0, with_mtx m (Some t))
  | Some h =>
      match env with
      | ReleasedAfter ms =>
          if decide (h ≠ t ∧ 0 <= ms < timeout)
          then (true, ms, with_mtx (unlock m) (Some t))
          else (false, Z.max 0 timeout, m)
      | HeldThroughout => (false, Z.max 0 timeout, m)
      end
  end.

Definition lock (t : thread_id) (timeout : Z) (env : contention)
    (m : SafeMutex) : outcome * SafeMutex :=
  if decide (owner m = Some t) then
    ({| ret := false; waited := 0;
        cerr := [RecursiveLockWarning t (name m)] |}, m)
  else
    let '(got, w, m1) := try_lock_for t timeout env m in
    if got then ({| ret := true; waited := w; cerr := [] |}, record_owner t m1)
    else ({| ret := false; waited := w;
             cerr := [DeadlockWarning t (name m)] |}, m1).

Definition tryLock (t : thread_id) (m : SafeMutex) : outcome * SafeMutex :=
  let '(got, m1) := try_lock t m in
  if got then ({| ret := true; waited := 0; cerr := [] |}, record_owner t m1)
  else ({| ret := false; waited := 0; cerr := [] |}, m1).

Definition isLocked (m : SafeMutex) : bool := bool_decide (owner m ≠ None).

Definition getOwner (m : SafeMutex) : option thread_id := owner m.

(** A thread holds the lock once one of its acquisitions has returned
    [true] and it has not released since. *)
Definition held_by (t : thread_id) (m : SafeMutex) : Prop :=
  mtx m = Some t ∧ owner m = Some t.

End SafeMutex.

(** ** RWLock: reader/writer lock with writer preference *)
Module RWLock.

(** The three counters are [int]s; arithmetic on them is written with its
    32-bit wrap-around. *)
Record RWLock := {
  readers : Z;
  writers : Z;
  waitingWriters : Z;
  readCV : CondVar.wait_set;
  writeCV : CondVar.wait_set
}.

Definition create : RWLock :=
  {| readers := 0; writers := 0; waitingWriters := 0;
     readCV := []; writeCV := [] |}.

(** One pass through a [while (...) cv.wait(lock)] loop, entered with the
    internal mutex held: either the condition lets the caller through or
    the caller goes to sleep on the condition variable. *)
Inductive progress := Acquired | Sleeping.

(** [readLock]: the loop test and, past it, [readers++]. *)
Definition readLock_attempt (t : thread_id) (l : RWLock) : progress * RWLock :=
  if (0 <? writers l) || (0 <? waitingWriters l) then
    (Sleeping,
     {| readers := readers l; writers := writers l;
        waitingWriters := waitingWriters l;
        readCV := CondVar.block t (readCV l); writeCV := writeCV l |})
  else
    (Acquired,
     {| readers := wrap_int (readers l + 1); writers := writers l;
        waitingWriters := waitingWriters l;
        readCV := readCV l; writeCV := writeCV l |}).

(** The threads an unlock wakes, by the condition variable they slept on. *)
Record wake := { woken_writers : list thread_id; woken_readers : list thread_id }.

Definition readUnlock (pick : nat) (l : RWLock) : wake * RWLock :=
  let r := wrap_int (readers l - 1) in
  if r =? 0 then
    let '(w, ws) := CondVar.notify_one pick (writeCV l) in
    ({| woken_writers := w; woken_readers := [] |},
     {| readers := r; writers := writers l;
        waitingWriters := waitingWriters l;
        readCV := readCV l; writeCV := ws |})
  else
    ({| woken_writers := []; woken_readers := [] |},
     {| readers := r; writers := writers l;
        waitingWriters := waitingWriters l;
        readCV := readCV l; writeCV := writeCV l |}).

(** [writeLock], first statement: [waitingWriters++]. *)
Definition writeLock_enter (l : RWLock) : RWLock :=
  {| readers := readers l; writers := writers l;
     waitingWriters := wrap_int (waitingWriters l + 1);
     readCV := readCV l; writeCV := writeCV l |}.

(** [writeLock]: the loop test and, past it,
    [waitingWriters--; writers++]. *)
Definition writeLock_attempt (t : thread_id) (l : RWLock) : progress * RWLock :=
  if (0 <? readers l) || (0 <? writers l) then
    (Sleeping,
     {| readers := readers l; writers := writers l;
        waitingWriters := waitingWriters l;
        readCV := readCV l; writeCV := CondVar.block t (writeCV l) |})
  else
    (Acquired,
     {| readers := readers l; writers := wrap_int (writers l + 1);
        waitingWriters := wrap_int (waitingWriters l - 1);
        readCV := readCV l; writeCV := writeCV l |}).

Definition writeUnlock (pick : nat) (l : RWLock) : wake * RWLock :=
  let w := wrap_int (writers l - 1) in
  if 0 <? waitingWriters l then
    let '(woken, ws) := CondVar.notify_one pick (writeCV l) in
    ({| woken_writers := woken; woken_readers := [] |},
     {| readers := readers l; writers := w;
        waitingWriters := waitingWriters l;
        readCV := readCV l; writeCV := ws |})
  else
    let '(woken, ws) := CondVar.notify_all (readCV l) in
    ({| woken_writers := []; woken_readers := woken |},
     {| readers := readers l; writers := w;
        waitingWriters := waitingWriters l;
        readCV := ws; writeCV := writeCV l |}).

(** *** Client threads

    Where each thread stands with respect to the lock.  A thread inside
    [readLock] or [writeLock] sleeps while it is in the wait set of the
    condition variable and runs the loop test again once it has left it. *)
Inductive pc := Idle | InReadLock | Reading | InWriteLock | Writing.

#[export] Instance pc_eq_dec : EqDecision pc.
Proof. solve_decision. Defined.

Definition after_read (r : progress) : pc :=
  match r with Acquired => Reading | Sleeping => InReadLock end.

Definition after_write (r : progress) : pc :=
  match r with Acquired => Writing | Sleeping => InWriteLock end.

Definition with_readCV (l : RWLock) (ws : CondVar.wait_set) : RWLock :=
  {| readers := readers l; writers := writers l;
     waitingWriters := waitingWriters l; readCV := ws; writeCV := writeCV l |}.

Definition with_writeCV (l : RWLock) (ws : CondVar.wait_set) : RWLock :=
  {| readers := readers l; writers := writers l;
     waitingWriters := waitingWriters l; readCV := readCV l; writeCV := ws |}.

Definition state : Type := RWLock * list pc.

(** One atomic section of one thread.  Unlocks are made by threads that
    hold the lock in the matching mode. *)
Inductive step : state -> state -> Prop :=
| step_readLock t l ps r l' :
    ps !! t = Some Idle ->
    readLock_attempt t l = (r, l') ->
    step (l, ps) (l', <[t := after_read r]> ps)
| step_readLock_again t l ps r l' :
    ps !! t = Some InReadLock ->
    t ∉ readCV l ->
    readLock_attempt t l = (r, l') ->
    step (l, ps) (l', <[t := after_read r]> ps)
| step_readUnlock t pick l ps :
    ps !! t = Some Reading ->
    step (l, ps) ((readUnlock pick l).2, <[t := Idle]> ps)
| step_writeLock t l ps r l' :
    ps !! t = Some Idle ->
    writeLock_attempt t (writeLock_enter l) = (r, l') ->
    step (l, ps) (l', <[t := after_write r]> ps)
| step_writeLock_again t l ps r l' :
    ps !! t = Some InWriteLock ->
    t ∉ writeCV l ->
    writeLock_attempt t l = (r, l') ->
    step (l, ps) (l', <[t := after_write r]> ps)
| step_writeUnlock t pick l ps :
    ps !! t = Some Writing ->
    step (l, ps) ((writeUnlock pick l).2, <[t := Idle]> ps)
| step_spurious_reader t l ps :
    t ∈ readCV l ->
    step (l, ps) (with_readCV l (CondVar.wake_up t (readCV l)), ps)
| step_spurious_writer t l ps :
    t ∈ writeCV l ->
    step (l, ps) (with_writeCV l (CondVar.wake_up t (writeCV l)), ps).

(** A freshly constructed lock shared by [n] threads. *)
Definition init (n : nat) : state := (create, replicate n Idle).

(** The states [n] threads can bring the lock to. *)
Inductive reachable (n : nat) : state -> Prop :=
| reachable_init : reachable n (init n)
| reachable_step s s' : reachable n s -> step s s' -> reachable n s'.

(** What every atomic section preserves: the two counters count the
    threads that hold the lock in each mode, there is at most one writer,
    and a writer excludes readers. *)
Definition rw_inv (n : nat) (s : state) : Prop :=
  length s.2 = n
  ∧ readers s.1 = count_eq Reading s.2
  ∧ writers s.1 = count_eq Writing s.2
  ∧ writers s.1 <= 1
  ∧ (0 < writers s.1 -> readers s.1 = 0).

End RWLock.

(** ** Barrier: reusable, generation-counting barrier *)
Module Barrier.

Record Barrier := {
  threshold : Z;
  count : Z;
  generation : Z;
  cv : CondVar.wait_set
}.

Definition create (numThreads : Z) : Barrier :=
  {| threshold := numThreads; count := 0; generation := 0; cv := [] |}.

(** How a critical section of [wait] ends for the caller: it returns
    (having woken the listed threads) or it sleeps on [cv] remembering the
    generation it arrived in. *)
Inductive arrival :=
| Passed (woken : list thread_id)
| Parked (gen : Z).

(** [cv.wait(lock, [this, gen] { return gen != generation; })], one pass:
    return when the predicate holds, sleep otherwise. *)
Definition wait_recheck (t : thread_id) (gen : Z) (b : Barrier) : arrival * Barrier :=
  if negb (gen =? generation b) then (Passed [], b)
  else
    (Parked gen,
     {| threshold := threshold b; count := count b;
        generation := generation b; cv := CondVar.block t (cv b) |}).

(** [wait], from taking the mutex to returning or going to sleep. *)
Definition wait_arrive (t : thread_id) (b : Barrier) : arrival * Barrier :=
  let gen := generation b in
  let c := wrap_size_t (count b + 1) in
  if c =? threshold b then
    let '(woken, ws) := CondVar.notify_all (cv b) in
    (Passed woken,
     {| threshold := threshold b; count := 0;
        generation := wrap_size_t (generation b + 1); cv := ws |})
  else
    wait_recheck t gen
      {| threshold := threshold b; count := c;
         generation := generation b; cv := cv b |}.

Definition reset (b : Barrier) : Barrier :=
  {| threshold := threshold b; count := 0; generation := 0; cv := cv b |}.

(** *** Client threads *)
Inductive pc :=
| Outside              (* not in [wait] *)
| Waiting (gen : Z).   (* inside [wait], arrived in generation [gen] *)

#[export] Instance pc_eq_dec : EqDecision pc.
Proof. solve_decision. Defined.

Definition after (a : arrival) : pc :=
  match a with Passed _ => Outside | Parked g => Waiting g end.

Definition with_cv (b : Barrier) (ws : CondVar.wait_set) : Barrier :=
  {| threshold := threshold b; count := count b;
     generation := generation b; cv := ws |}.

Definition state : Type := Barrier * list pc.

(** [reset] is called only while no thread is inside [wait]. *)
Inductive step : state -> state -> Prop :=
| step_arrive t b ps a b' :
    ps !! t = Some Outside ->
    wait_arrive t b = (a, b') ->
    step (b, ps) (b', <[t := after a]> ps)
| step_recheck t g b ps a b' :
    ps !! t = Some (Waiting g) ->
    t ∉ cv b ->
    wait_recheck t g b = (a, b') ->
    step (b, ps) (b', <[t := after a]> ps)
| step_spurious t b ps :
    t ∈ cv b ->
    step (b, ps) (with_cv b (CondVar.wake_up t (cv b)), ps)
| step_reset b ps :
    (∀ t g, ps !! t ≠ Some (Waiting g)) ->
    step (b, ps) (reset b, ps).

Definition init (numThreads : Z) (n : nat) : state :=
  (create numThreads, replicate n Outside).

(** The states reached from a fresh barrier in exactly [k] steps. *)
Inductive reach (numThreads : Z) (n : nat) : nat -> state -> Prop :=
| reach_init : reach numThreads n 0 (init numThreads n)
| reach_step k s s' :
    reach numThreads n k s -> step s s' -> reach numThreads n (S k) s'.

(** [k] threads, named [t], [t+1], ..., arrive one after the other. *)
Fixpoint arrive_seq (k : nat) (t : thread_id) (b : Barrier) : list arrival * Barrier :=
  match k with
  | O => ([], b)
  | S k' =>
      let '(a, b1) := wait_arrive t b in
      let '(rest, b2) := arrive_seq k' (S t) b1 in
      (a :: rest, b2)
  end.

(** What [k] steps from a fresh barrier of party size [P] preserve: the
    generation has advanced at most [k] times, [count] is the number of
    threads parked in the current generation, and no parked thread
    remembers a generation that is still to come. *)
Definition barrier_inv (P : Z) (k : nat) (s : state) : Prop :=
  threshold s.1 = P
  ∧ 0 <= generation s.1 <= Z.of_nat k
  ∧ 0 <= count s.1 <= Z.of_nat k
  ∧ count s.1 = count_eq (Waiting (generation s.1)) s.2
  ∧ (∀ t g, s.2 !! t = Some (Waiting g) -> 0 <= g <= generation s.1).

End Barrier.

(** ** ThreadPool: fixed set of workers over a FIFO task queue *)
Module ThreadPool.

Inductive ThreadState := IDLE | RUNNING | BLOCKED | TERMINATED.

#[export] Instance ThreadState_eq_dec : EqDecision ThreadState.
Proof. solve_decision. Defined.

(** A queued [std::function<void()>], known by an identifier. *)
Definition Task := nat.

(** Where a worker stands in [workerThread]. *)
Inductive worker_pc :=
| LoopTop                         (* about to take [queueMutex] *)
| InWait                          (* inside [condition.wait] *)
| Dequeued (task : option Task)   (* past the critical section *)
| Executing (task : Task)         (* inside [task()] *)
| Returned.                       (* [workerThread] has returned *)

#[export] Instance worker_pc_eq_dec : EqDecision worker_pc.
Proof. solve_decision. Defined.

Inductive message :=
| PoolCreated (numThreads : nat)
| PoolShutDown.

Record ThreadPool := {
  workers : list worker_pc;          (* one entry per [std::thread] *)
  tasks : list Task;                 (* the queue, front first *)
  condition : CondVar.wait_set;
  stop : bool;
  activeTasks : Z;
  workerStates : list ThreadState;
  executed : list Task;              (* calls of [task()] that have run, in order *)
  cout : list message
}.

Definition create (numThreads : nat) : ThreadPool :=
  {| workers := replicate numThreads LoopTop;
     tasks := [];
     condition := [];
     stop := false;
     activeTasks := 0;
     workerStates := replicate numThreads IDLE;
     executed := [];
     cout := [PoolCreated numThreads] |}.

Definition getPoolSize (p : ThreadPool) : nat := length (workers p).
Definition getActiveTasks (p : ThreadPool) : Z := activeTasks p.
Definition getQueuedTasks (p : ThreadPool) : nat := length (tasks p).

Definition set_worker (id : nat) (w : worker_pc) (p : ThreadPool) : ThreadPool :=
  {| workers := <[id := w]> (workers p); tasks := tasks p;
     condition := condition p; stop := stop p; activeTasks := activeTasks p;
     workerStates := workerStates p; executed := executed p; cout := cout p |}.

(** [workerStates[id] = st] *)
Definition set_state (id : nat) (st : ThreadState) (p : ThreadPool) : ThreadPool :=
  {| workers := workers p; tasks := tasks p;
     condition := condition p; stop := stop p; activeTasks := activeTasks p;
     workerStates := <[id := st]> (workerStates p);
     executed := executed p; cout := cout p |}.

Definition with_tasks (q : list Task) (p : ThreadPool) : ThreadPool :=
  {| workers := workers p; tasks := q;
     condition := condition p; stop := stop p; activeTasks := activeTasks p;
     workerStates := workerStates p; executed := executed p; cout := cout p |}.

Definition with_condition (ws : CondVar.wait_set) (p : ThreadPool) : ThreadPool :=
  {| workers := workers p; tasks := tasks p;
     condition := ws; stop := stop p; activeTasks := activeTasks p;
     workerStates := workerStates p; executed := executed p; cout := cout p |}.

Definition with_stop (b : bool) (p : ThreadPool) : ThreadPool :=
  {| workers := workers p; tasks := tasks p;
     condition := condition p; stop := b; activeTasks := activeTasks p;
     workerStates := workerStates p; executed := executed p; cout := cout p |}.

Definition with_activeTasks (n : Z) (p : ThreadPool) : ThreadPool :=
  {| workers := workers p; tasks := tasks p;
     condition := condition p; stop := stop p; activeTasks := n;
     workerStates := workerStates p; executed := executed p; cout := cout p |}.

Definition log_executed (t : Task) (p : ThreadPool) : ThreadPool :=
  {| workers := workers p; tasks := tasks p;
     condition := condition p; stop := stop p; activeTasks := activeTasks p;
     workerStates := workerStates p; executed := executed p ++ [t];
     cout := cout p |}.

Definition print (m : message) (p : ThreadPool) : ThreadPool :=
  {| workers := workers p; tasks := tasks p;
     condition := condition p; stop := stop p; activeTasks := activeTasks p;
     workerStates := workerStates p; executed := executed p;
     cout := cout p ++ [m] |}.

Definition tasks_empty (p : ThreadPool) : bool :=
  match tasks p with [] => true | _ :: _ => false end.

(** *** [enqueue] *)
Inductive enqueue_result :=
| Accepted                          (* the future is returned *)
| Rejected (what : string).         (* [std::runtime_error] is thrown *)

(** The result, the pool afterwards and the workers woken. *)
Definition enqueue (pick : nat) (task : Task) (p : ThreadPool)
  : enqueue_result * ThreadPool * list thread_id :=
  if stop p then (Rejected "Cannot enqueue on stopped ThreadPool", p, [])
  else
    let p1 := with_tasks (tasks p ++ [task]) p in
    let '(woken, ws) := CondVar.notify_one pick (condition p1) in
    (Accepted, with_condition ws p1, woken).

(** *** [workerThread(id)] *)

(** The predicate of [condition.wait]. *)
Definition wait_pred (p : ThreadPool) : bool := stop p || negb (tasks_empty p).

(** From the end of the wait to the end of the critical section. *)
Definition workerThread_after_wait (id : nat) (p : ThreadPool) : ThreadPool :=
  if stop p && tasks_empty p then
    set_worker id Returned (set_state id TERMINATED p)
  else
    match tasks p with
    | task :: rest => set_worker id (Dequeued (Some task)) (with_tasks rest p)
    | [] => set_worker id (Dequeued None) p
    end.

(** One pass through [condition.wait(lock, pred)]. *)
Definition workerThread_wait (id : nat) (p : ThreadPool) : ThreadPool :=
  if wait_pred p then workerThread_after_wait id p
  else set_worker id InWait (with_condition (CondVar.block id (condition p)) p).

(** The next atomic section of worker [id]; [None] when the worker is
    asleep or has returned.  The call [task()] is one step: an exception
    it throws is caught and logged inside the same [try] block, and
    [activeTasks--] follows either way. *)
Definition workerThread_step (id : nat) (p : ThreadPool) : option ThreadPool :=
  match workers p !! id with
  | Some LoopTop => Some (workerThread_wait id (set_state id IDLE p))
  | Some InWait =>
      if decide (id ∈ condition p) then None else Some (workerThread_wait id p)
  | Some (Dequeued (Some task)) =>
      Some (set_worker id (Executing task)
              (with_activeTasks (wrap_size_t (activeTasks p + 1))
                 (set_state id RUNNING p)))
  | Some (Dequeued None) => Some (set_worker id LoopTop p)
  | Some (Executing task) =>
      Some (set_worker id LoopTop
              (with_activeTasks (wrap_size_t (activeTasks p - 1))
                 (log_executed task p)))
  | Some Returned => None
  | None => None
  end.

(** The workers run in the order a schedule names them; a worker that
    cannot move when named is passed over. *)
Fixpoint run (schedule : list nat) (p : ThreadPool) : ThreadPool :=
  match schedule with
  | [] => p
  | id :: rest => run rest (default p (workerThread_step id p))
  end.

(** *** [shutdown] *)
Inductive shutdown_outcome :=
| AlreadyStopped      (* the early [return] *)
| Joined              (* every worker was joined *)
| Joining.            (* still blocked in a [join] when the schedule ends *)

Definition all_returned (p : ThreadPool) : bool :=
  forallb (λ w, bool_decide (w = Returned)) (workers p).

(** [schedule] is how the workers run while the caller is in the joins. *)
Definition shutdown (schedule : list nat) (p : ThreadPool)
  : shutdown_outcome * ThreadPool :=
  if stop p then (AlreadyStopped, p)
  else
    let p1 := with_stop true p in
    let '(_, ws) := CondVar.notify_all (condition p1) in
    let p2 := run schedule (with_condition ws p1) in
    if all_returned p2 then (Joined, print PoolShutDown p2)
    else (Joining, p2).

(** *** [getThreadState]

    Past the bound test the index is in range, so the lookup finds an
    entry. *)
Definition getThreadState (id : nat) (p : ThreadPool) : ThreadState * ThreadPool :=
  if decide (length (workerStates p) <= id)%nat then (TERMINATED, p)
  else (default TERMINATED (workerStates p !! id), p).

(** What holds of a pool from its construction on: one state slot per
    worker, and a worker has returned only after [stop] was set and the
    queue had run empty. *)
Record consistent (p : ThreadPool) : Prop := {
  consistent_size : length (workerStates p) = length (workers p);
  consistent_returned :
    Returned ∈ workers p -> stop p = true ∧ tasks p = []
}.

(** A task that was accepted is in the queue, in a worker's hands, or has
    been run. *)
Definition pending (t : Task) (p : ThreadPool) : Prop :=
  t ∈ tasks p
  ∨ Dequeued (Some t) ∈ workers p
  ∨ Executing t ∈ workers p
  ∨ t ∈ executed p.

Definition at_wait (w : worker_pc) : Prop := w = LoopTop ∨ w = InWait.

End ThreadPool.

(** ** SafeMutex, statement by statement

    [lock], [tryLock] and [unlock] are not atomic: each is three steps on
    the underlying mutex, the [owner] atomic and the [lockCount] atomic.
    An attempt that fails (the owner test of [lock], a timeout, a
    [tryLock] on a held mutex) changes nothing and is no step. *)
Module SafeMutexSteps.
Import SafeMutex.

Inductive pc :=
| Out               (* not in an acquisition it won, not holding *)
| Acquired          (* [try_lock] / [try_lock_for] returned [true] *)
| OwnerStored       (* past [owner.store(thisThreadId)] *)
| Holding           (* past [lockCount++]: the call returned [true] *)
| OwnerCleared      (* [unlock]: past [owner.store(std::thread::id())] *)
| CountDropped.     (* [unlock]: past [lockCount--] *)

#[export] Instance pc_eq_dec : EqDecision pc.
Proof. solve_decision. Defined.

Definition store_owner (t : thread_id) (m : SafeMutex) : SafeMutex :=
  {| mtx := mtx m; name := name m; owner := Some t; lockCount := lockCount m |}.

Definition count_up (m : SafeMutex) : SafeMutex :=
  {| mtx := mtx m; name := name m; owner := owner m;
     lockCount := wrap_int (lockCount m + 1) |}.

Definition clear_owner (m : SafeMutex) : SafeMutex :=
  {| mtx := mtx m; name := name m; owner := None; lockCount := lockCount m |}.

Definition count_down (m : SafeMutex) : SafeMutex :=
  {| mtx := mtx m; name := name m; owner := owner m;
     lockCount := wrap_int (lockCount m - 1) |}.

Definition release (m : SafeMutex) : SafeMutex := with_mtx m None.

Definition state : Type := SafeMutex * list pc.

Inductive step : state -> state -> Prop :=
| step_lock t m ps m' :
    ps !! t = Some Out ->
    owner m ≠ Some t ->
    try_lock t m = (true, m') ->
    step (m, ps) (m', <[t := Acquired]> ps)
| step_tryLock t m ps m' :
    ps !! t = Some Out ->
    try_lock t m = (true, m') ->
    step (m, ps) (m', <[t := Acquired]> ps)
| step_store_owner t m ps :
    ps !! t = Some Acquired ->
    step (m, ps) (store_owner t m, <[t := OwnerStored]> ps)
| step_count_up t m ps :
    ps !! t = Some OwnerStored ->
    step (m, ps) (count_up m, <[t := Holding]> ps)
| step_clear_owner t m ps :
    ps !! t = Some Holding ->
    step (m, ps) (clear_owner m, <[t := OwnerCleared]> ps)
| step_count_down t m ps :
    ps !! t = Some OwnerCleared ->
    step (m, ps) (count_down m, <[t := CountDropped]> ps)
| step_release t m ps :
    ps !! t = Some CountDropped ->
    step (m, ps) (release m, <[t := Out]> ps).

Definition init (mutexName : string) (n : nat) : state :=
  (create mutexName, replicate n Out).

Inductive reachable (mutexName : string) (n : nat) : state -> Prop :=
| reachable_init : reachable mutexName n (init mutexName n)
| reachable_step s s' :
    reachable mutexName n s -> step s s' -> reachable mutexName n s'.

(** The underlying mutex is held by exactly the threads past a won
    acquisition, [owner] names the holder between its store and its
    clearing, and [lockCount] is 1 between its increment and its
    decrement and 0 otherwise. *)
Definition inv (s : state) : Prop :=
  (∀ t, mtx s.1 = Some t ↔ ∃ p, s.2 !! t = Some p ∧ p ≠ Out)
  ∧ (∀ t, owner s.1 = Some t ↔
          s.2 !! t = Some OwnerStored ∨ s.2 !! t = Some Holding)
  ∧ (∀ t, s.2 !! t = Some Holding ∨ s.2 !! t = Some OwnerCleared ->
          lockCount s.1 = 1)
  ∧ ((∀ t, s.2 !! t ≠ Some Holding ∧ s.2 !! t ≠ Some OwnerCleared) ->
     lockCount s.1 = 0).

End SafeMutexSteps.

(** ** SafeLockGuard: scoped ownership of a SafeMutex *)
Module SafeLockGuard.

Record SafeLockGuard := { locked : bool }.

Inductive construction :=
| Constructed (g : SafeLockGuard)
| Thrown (what : string).        (* [std::runtime_error] *)

(** The constructor: [mutex.lock()] with its default timeout of 5000 ms. *)
Definition create (t : thread_id) (env : SafeMutex.contention)
    (m : SafeMutex.SafeMutex) : construction * SafeMutex.SafeMutex :=
  let '(o, m') := SafeMutex.lock t 5000 env m in
  if SafeMutex.ret o then (Constructed {| locked := true |}, m')
  else
    (Thrown (String.append "Failed to acquire lock on mutex: " (SafeMutex.name m')),
     m').

(** The destructor. *)
Definition destroy (g : SafeLockGuard) (m : SafeMutex.SafeMutex)
  : SafeMutex.SafeMutex :=
  if locked g then SafeMutex.unlock m else m.

(** A block guarded by a [SafeLockGuard]: the body runs only if the
    constructor did not throw, and the destructor runs when the block is
    left.  [body] is what the block does to the data the mutex protects. *)
Definition scoped {A} (t : thread_id) (env : SafeMutex.contention)
    (body : A -> A) (m : SafeMutex.SafeMutex) (data : A)
  : option string * SafeMutex.SafeMutex * A :=
  match create t env m with
  | (Constructed g, m') => (None, destroy g m', body data)
  | (Thrown what, m') => (Some what, m', data)
  end.

End SafeLockGuard.

(** ** ConditionVariable: a flag and a condition variable *)
Module ConditionVariable.

Record ConditionVariable := {
  ready : bool;
  cv : CondVar.wait_set
}.

Definition create : ConditionVariable := {| ready := false; cv := [] |}.

(** [wait()]: one pass through [cv.wait(lock, [this] { return ready; })];
    [true] when the call returns, [false] when the caller goes to sleep. *)
Definition wait_attempt (t : thread_id) (c : ConditionVariable)
  : bool * ConditionVariable :=
  if ready c then (true, c)
  else (false, {| ready := ready c; cv := CondVar.block t (cv c) |}).

(** [waitFor(timeout)] at the moment the timeout expires on a sleeping
    caller: [wait_for] hands back the predicate's value. *)
Definition waitFor_expire (t : thread_id) (c : ConditionVariable)
  : bool * ConditionVariable :=
  (ready c, {| ready := ready c; cv := CondVar.wake_up t (cv c) |}).

Definition notify (pick : nat) (c : ConditionVariable)
  : list thread_id * ConditionVariable :=
  let '(woken, ws) := CondVar.notify_one pick (cv c) in
  (woken, {| ready := ready c; cv := ws |}).

Definition notifyAll (c : ConditionVariable)
  : list thread_id * ConditionVariable :=
  let '(woken, ws) := CondVar.notify_all (cv c) in
  (woken, {| ready := ready c; cv := ws |}).

Definition setReady (r : bool) (c : ConditionVariable) : ConditionVariable :=
  {| ready := r; cv := cv c |}.

(** Calls made on one object, in the order they take its mutex. *)
Inductive op :=
| OpWait (t : thread_id)         (* a call of [wait], or a woken caller testing again *)
| OpExpire (t : thread_id)       (* the timeout of a [waitFor] *)
| OpNotify (pick : nat)
| OpNotifyAll
| OpSetReady (r : bool).

Definition apply_op (o : op) (c : ConditionVariable) : ConditionVariable :=
  match o with
  | OpWait t => (wait_attempt t c).2
  | OpExpire t => (waitFor_expire t c).2
  | OpNotify pick => (notify pick c).2
  | OpNotifyAll => (notifyAll c).2
  | OpSetReady r => setReady r c
  end.

Fixpoint run_ops (ops : list op) (c : ConditionVariable) : ConditionVariable :=
  match ops with
  | [] => c
  | o :: rest => run_ops rest (apply_op o c)
  end.

(** The calls that are not [setReady]. *)
Definition keeps_flag (o : op) : Prop := ∀ r, o ≠ OpSetReady r.

End ConditionVariable.

(** ** SpinLock: busy-waiting on an atomic flag *)
Module SpinLock.

Record SpinLock := { flag : bool }.

Definition create : SpinLock := {| flag := false |}.

(** [flag.test_and_set(std::memory_order_acquire)] *)
Definition test_and_set (s : SpinLock) : bool * SpinLock :=
  (flag s, {| flag := true |}).

(** One turn of the loop of [lock]: [true] when the loop is left. *)
Definition lock_turn (s : SpinLock) : bool * SpinLock :=
  let '(was_set, s') := test_and_set s in (negb was_set, s').

(** [lock] within [fuel] turns, the flag staying as the caller's own
    [test_and_set] leaves it. *)
Fixpoint lock (fuel : nat) (s : SpinLock) : option SpinLock :=
  match fuel with
  | O => None
  | S fuel' =>
      let '(got, s') := lock_turn s in
      if got then Some s' else lock fuel' s'
  end.

Definition tryLock (s : SpinLock) : bool * SpinLock :=
  let '(was_set, s') := test_and_set s in (negb was_set, s').

Definition unlock (s : SpinLock) : SpinLock := {| flag := false |}.

Inductive pc := Out | Spinning | Holding.

#[export] Instance pc_eq_dec : EqDecision pc.
Proof. solve_decision. Defined.

Definition after_turn (got : bool) : pc := if got then Holding else Spinning.
Definition after_try (got : bool) : pc := if got then Holding else Out.

Definition state : Type := SpinLock * list pc.

(** [unlock] is called by the thread that holds the lock. *)
Inductive step : state -> state -> Prop :=
| step_lock t s ps got s' :
    ps !! t = Some Out ∨ ps !! t = Some Spinning ->
    lock_turn s = (got, s') ->
    step (s, ps) (s', <[t := after_turn got]> ps)
| step_tryLock t s ps got s' :
    ps !! t = Some Out ->
    tryLock s = (got, s') ->
    step (s, ps) (s', <[t := after_try got]> ps)
| step_unlock t s ps :
    ps !! t = Some Holding ->
    step (s, ps) (unlock s, <[t := Out]> ps).

Definition init (n : nat) : state := (create, replicate n Out).

Inductive reachable (n : nat) : state -> Prop :=
| reachable_init : reachable n (init n)
| reachable_step s s' : reachable n s -> step s s' -> reachable n s'.

(** The flag is set exactly while some thread holds the lock, and at most
    one thread does. *)
Definition spin_inv (s : state) : Prop :=
  (flag s.1 = true ↔ ∃ t : nat, s.2 !! t = Some Holding)
  ∧ (∀ t u : nat, s.2 !! t = Some Holding -> s.2 !! u = Some Holding -> t = u).

End SpinLock.

(** ** ThreadPool: whole runs

    What happens to a pool between its construction and its destruction,
    as the sequence of the atomic sections its workers and its users
    go through. *)
Module PoolRun.
Import ThreadPool.

Inductive op :=
| OpEnqueue (pick : nat) (task : Task)
| OpWorker (id : nat)
| OpSpurious (id : nat)               (* a sleeping worker wakes unprompted *)
| OpShutdown (schedule : list nat).

Definition apply_op (o : op) (p : ThreadPool) : ThreadPool :=
  match o with
  | OpEnqueue pick task => (enqueue pick task p).1.2
  | OpWorker id => default p (workerThread_step id p)
  | OpSpurious id => with_condition (CondVar.wake_up id (condition p)) p
  | OpShutdown schedule => (shutdown schedule p).2
  end.

Fixpoint run_ops (ops : list op) (p : ThreadPool) : ThreadPool :=
  match ops with
  | [] => p
  | o :: rest => run_ops rest (apply_op o p)
  end.

(** The tasks [enqueue] took in, in the order it took them. *)
Definition newly_accepted (o : op) (p : ThreadPool) : list Task :=
  match o with
  | OpEnqueue _ task => if stop p then [] else [task]
  | _ => []
  end.

Fixpoint accepted (ops : list op) (p : ThreadPool) : list Task :=
  match ops with
  | [] => []
  | o :: rest => newly_accepted o p ++ accepted rest (apply_op o p)
  end.

(** The task a worker has taken from the queue and not finished. *)
Definition held (w : worker_pc) : option Task :=
  match w with
  | Dequeued (Some task) => Some task
  | Executing task => Some task
  | _ => None
  end.

Definition in_hand (p : ThreadPool) : list Task := omap held (workers p).

Definition is_executing (w : worker_pc) : bool :=
  match w with Executing _ => true | _ => false end.

(** The states [workerStates[id]] can show while worker [id] is at [w]. *)
Definition shows (w : worker_pc) (st : ThreadState) : Prop :=
  match w with
  | LoopTop => st = IDLE ∨ st = RUNNING
  | InWait => st = IDLE
  | Dequeued _ => st = IDLE
  | Executing _ => st = RUNNING
  | Returned => st = TERMINATED
  end.

(** The exit test of the polling loop of [waitForCompletion]. *)
Definition completion_test (p : ThreadPool) : bool :=
  tasks_empty p && (activeTasks p =? 0).

(** [waitForCompletion]: [rounds] is what goes on in the pool during each
    10 ms sleep; [None] when the rounds run out before the test passes. *)
Fixpoint waitForCompletion (rounds : list (list op)) (p : ThreadPool)
  : option ThreadPool :=
  if completion_test p then Some p
  else
    match rounds with
    | [] => None
    | r :: rest => waitForCompletion rest (run_ops r p)
    end.

(** Every task taken in so far has left the queue from its front, in the
    order it came, and is in a worker's hands or has been run, once. *)
Definition ledger (acc : list Task) (p : ThreadPool) : Prop :=
  ∃ taken, acc = taken ++ tasks p ∧ taken ≡ₚ executed p ++ in_hand p.

(** What a pool of [n] workers keeps from its construction on. *)
Definition pool_inv (n : nat) (p : ThreadPool) : Prop :=
  consistent p
  ∧ length (workers p) = n
  ∧ Forall2 shows (workers p) (workerStates p)
  ∧ activeTasks p = count_eq true (is_executing <$> workers p).

(** Worker [id] has a step to take: it has not returned and is not
    asleep in [condition]. *)
Definition can_run (id : nat) (p : ThreadPool) : Prop :=
  is_Some (workerThread_step id p).

(** The wait set of [condition] holds sleeping workers only, each once;
    while a task is queued some worker has a step to take; and no worker
    leaves the critical section of its loop empty-handed. *)
Definition awake_inv (p : ThreadPool) : Prop :=
  NoDup (condition p)
  ∧ (∀ u : nat, u ∈ condition p -> workers p !! u = Some InWait)
  ∧ (tasks p ≠ [] -> workers p ≠ [] -> ∃ id, can_run id p)
  ∧ Dequeued None ∉ workers p.

(** With one worker the tasks are run in the order they were taken in. *)
Definition in_order (acc : list Task) (p : ThreadPool) : Prop :=
  acc = executed p ++ in_hand p ++ tasks p.

(** No worker is inside a task. *)
Definition none_executing (p : ThreadPool) : Prop :=
  ∀ (id : nat) (t : Task), workers p !! id ≠ Some (Executing t).

(** What is left for the workers to do once [stop] is set: a bound on the
    number of steps they can still take. *)
Definition weight (w : worker_pc) : nat :=
  match w with
  | LoopTop | InWait => 1
  | Dequeued _ => 3
  | Executing _ => 2
  | Returned => 0
  end.

Definition work_left (p : ThreadPool) : nat :=
  (sum_list (weight <$> workers p) + 3 * length (tasks p))%nat.

(** Two pools with the same workers, queue, flag, counter, worker states
    and tasks run. *)
Definition same_but_sleepers (p q : ThreadPool) : Prop :=
  workers q = workers p ∧ tasks q = tasks p ∧ stop q = stop p
  ∧ activeTasks q = activeTasks p ∧ workerStates q = workerStates p
  ∧ executed q = executed p.

(** *** Tasks that do not return

    The call [task()] need not return.  [returns t] tells whether the
    call of task [t] does; a worker inside a task that does not return
    has no step to take. *)
Definition workerThread_step_when (returns : Task -> bool) (id : nat)
    (p : ThreadPool) : option ThreadPool :=
  match workers p !! id with
  | Some (Executing task) =>
      if returns task then workerThread_step id p else None
  | _ => workerThread_step id p
  end.

Fixpoint run_when (returns : Task -> bool) (schedule : list nat)
    (p : ThreadPool) : ThreadPool :=
  match schedule with
  | [] => p
  | id :: rest =>
      run_when returns rest (default p (workerThread_step_when returns id p))
  end.

(** [shutdown], its joins waiting for workers whose tasks may not
    return. *)
Definition shutdown_when (returns : Task -> bool) (schedule : list nat)
    (p : ThreadPool) : shutdown_outcome * ThreadPool :=
  if stop p then (AlreadyStopped, p)
  else
    let p1 := with_stop true p in
    let '(_, ws) := CondVar.notify_all (condition p1) in
    let p2 := run_when returns schedule (with_condition ws p1) in
    if all_returned p2 then (Joined, print PoolShutDown p2)
    else (Joining, p2).

(** A task that is still to be run or to be finished. *)
Definition in_play (t : Task) (p : ThreadPool) : Prop :=
  t ∈ tasks p
  ∨ Dequeued (Some t) ∈ workers p
  ∨ Executing t ∈ workers p.

End PoolRun.

(** ** The Fibonacci task of the test program ([src/test/main.cpp]) *)
Module TestTasks.

(** The [for] loop of [fibonacciTask], entered with [i], [a] and [b];
    [None] when [fuel] turns do not reach the end of the loop. *)
Fixpoint fibonacci_loop (fuel : nat) (n i a b : Z) : option Z :=
  match fuel with
  | O => None
  | S fuel' =>
      if i <=? n then
        let temp := wrap_int (a + b) in
        fibonacci_loop fuel' n (wrap_int (i + 1)) b temp
      else Some b
  end.

Definition fibonacciTask (fuel : nat) (n : Z) : option Z :=
  if n <=? 1 then Some n else fibonacci_loop fuel n 2 0 1.

(** The Fibonacci numbers, two at a time: [(F k, F (k + 1))]. *)
Definition fib_pair (k : nat) : Z * Z :=
  Nat.iter k (λ ab, (ab.2, ab.1 + ab.2)) (0, 1).

Definition fib (k : nat) : Z := (fib_pair k).1.

End TestTasks.

(** ** RWLock: what the counters and the wait sets stand for *)
Module RWLockLedger.
Import RWLock.

(** Each counter counts the threads at one program point, the wait sets
    hold threads inside the matching lock call, each at most once, and
    nobody sleeps without cause: a reader sleeps only while a writer is
    active or waiting; a writer sleeps only while the lock is in use or
    while another writer, awake inside [writeLock], is about to take it. *)
Definition full_inv (n : nat) (s : state) : Prop :=
  length s.2 = n
  ∧ readers s.1 = count_eq Reading s.2
  ∧ writers s.1 = count_eq Writing s.2
  ∧ waitingWriters s.1 = count_eq InWriteLock s.2
  ∧ writers s.1 <= 1
  ∧ (0 < writers s.1 -> readers s.1 = 0)
  ∧ NoDup (readCV s.1)
  ∧ NoDup (writeCV s.1)
  ∧ (∀ t : nat, t ∈ readCV s.1 -> s.2 !! t = Some InReadLock)
  ∧ (∀ t : nat, t ∈ writeCV s.1 -> s.2 !! t = Some InWriteLock)
  ∧ (readCV s.1 ≠ [] -> 0 < writers s.1 ∨ 0 < waitingWriters s.1)
  ∧ (writeCV s.1 ≠ [] ->
     0 < readers s.1 ∨ 0 < writers s.1
     ∨ ∃ t : nat, s.2 !! t = Some InWriteLock ∧ t ∉ writeCV s.1).

End RWLockLedger.

(** ** The two mutexes of the pool

    [queueMutex] and [stateMutex], and the order in which [workerThread]
    and the member functions take them.  What a thread does between two
    lock operations is left out; where the way it goes on depends on the
    queue or on [stop], every way is open. *)
Module PoolLocks.

Inductive mutex := QueueMutex | StateMutex.

#[export] Instance mutex_eq_dec : EqDecision mutex.
Proof. solve_decision. Defined.

Inductive action :=
| Lock (m : mutex)
| Unlock (m : mutex)
| Skip.

(** Where a thread stands: a worker in [workerThread], or a caller of the
    member functions. *)
Inductive pc :=
(* workerThread *)
| AtTop               (* before [unique_lock lock(queueMutex)] *)
| HasQueue            (* before [lock_guard stateLock(stateMutex)] *)
| SettingIdle         (* [workerStates[id] = IDLE] *)
| AtPredicate         (* [condition.wait]: the predicate is evaluated *)
| Asleep              (* [condition.wait]: blocked, [queueMutex] released *)
| Leaving             (* [stop && tasks.empty()]: before [stateLock] *)
| SettingTerminated   (* [workerStates[id] = TERMINATED] *)
| Unlocking           (* [return]: [lock] is destroyed *)
| Taking              (* [if (!tasks.empty())], to the end of the block *)
| HasTask             (* [if (task)]: before [stateLock] *)
| SettingRunning      (* [workerStates[id] = RUNNING] *)
| Running             (* [activeTasks++; task(); activeTasks--] *)
| Gone                (* [workerThread] has returned *)
(* a caller *)
| Between             (* in no member function *)
| InQueueSection      (* [enqueue], [getQueuedTasks], [waitForCompletion],
                         [shutdown]: the block under [queueMutex] *)
| InGetThreadState    (* [getThreadState], under [stateMutex] *)
| Printing            (* [printThreadStates]: before [getQueuedTasks()] *)
| PrintingQueued      (* inside that [getQueuedTasks()] *)
| PrintingStates.     (* [printThreadStates]: the loop over the states *)

#[export] Instance pc_eq_dec : EqDecision pc.
Proof. solve_decision. Defined.

(** The next lock operation of a thread and where it leads;
    [printing] tells whether [printThreadStates] is among the functions
    called. *)
Definition moves (printing : bool) (at_pc : pc) : list (action * pc) :=
  match at_pc with
  | AtTop => [(Lock QueueMutex, HasQueue)]
  | HasQueue => [(Lock StateMutex, SettingIdle)]
  | SettingIdle => [(Unlock StateMutex, AtPredicate)]
  | AtPredicate => [(Unlock QueueMutex, Asleep); (Skip, Leaving); (Skip, Taking)]
  | Asleep => [(Lock QueueMutex, AtPredicate)]
  | Leaving => [(Lock StateMutex, SettingTerminated)]
  | SettingTerminated => [(Unlock StateMutex, Unlocking)]
  | Unlocking => [(Unlock QueueMutex, Gone)]
  | Taking => [(Unlock QueueMutex, HasTask); (Unlock QueueMutex, AtTop)]
  | HasTask => [(Lock StateMutex, SettingRunning)]
  | SettingRunning => [(Unlock StateMutex, Running)]
  | Running => [(Skip, AtTop)]
  | Gone => []
  | Between =>
      [(Lock QueueMutex, InQueueSection); (Lock StateMutex, InGetThreadState)]
      ++ (if printing then [(Lock StateMutex, Printing)] else [])
  | InQueueSection => [(Unlock QueueMutex, Between)]
  | InGetThreadState => [(Unlock StateMutex, Between)]
  | Printing => [(Lock QueueMutex, PrintingQueued)]
  | PrintingQueued => [(Unlock QueueMutex, PrintingStates)]
  | PrintingStates => [(Unlock StateMutex, Between)]
  end.

(** The mutexes a thread holds where it stands. *)
Definition holds (m : mutex) (at_pc : pc) : bool :=
  match m, at_pc with
  | QueueMutex, (HasQueue | SettingIdle | AtPredicate | Leaving
                 | SettingTerminated | Unlocking | Taking
                 | InQueueSection | PrintingQueued) => true
  | StateMutex, (SettingIdle | SettingTerminated | SettingRunning
                 | InGetThreadState | Printing | PrintingQueued
                 | PrintingStates) => true
  | _, _ => false
  end.

Record state := {
  queueMutex : option nat;     (* the thread that holds it *)
  stateMutex : option nat;
  threads : list pc
}.

Definition holder (m : mutex) (s : state) : option nat :=
  match m with QueueMutex => queueMutex s | StateMutex => stateMutex s end.

Definition set_holder (m : mutex) (h : option nat) (s : state) : state :=
  match m with
  | QueueMutex =>
      {| queueMutex := h; stateMutex := stateMutex s; threads := threads s |}
  | StateMutex =>
      {| queueMutex := queueMutex s; stateMutex := h; threads := threads s |}
  end.

Definition set_thread (i : nat) (at_pc : pc) (s : state) : state :=
  {| queueMutex := queueMutex s; stateMutex := stateMutex s;
     threads := <[i := at_pc]> (threads s) |}.

(** A lock operation of thread [i]; [None] while it has to wait. *)
Definition perform (a : action) (i : nat) (s : state) : option state :=
  match a with
  | Lock m =>
      match holder m s with
      | None => Some (set_holder m (Some i) s)
      | Some _ => None
      end
  | Unlock m => Some (set_holder m None s)
  | Skip => Some s
  end.

Inductive step (printing : bool) (i : nat) : state -> state -> Prop :=
| step_move at_pc a at_pc' s s' :
    threads s !! i = Some at_pc ->
    (a, at_pc') ∈ moves printing at_pc ->
    perform a i s = Some s' ->
    step printing i s (set_thread i at_pc' s').

(** [n] workers just started and [m] callers. *)
Definition init (n m : nat) : state :=
  {| queueMutex := None; stateMutex := None;
     threads := replicate n AtTop ++ replicate m Between |}.

Inductive reachable (printing : bool) (s0 : state) : state -> Prop :=
| reachable_start : reachable printing s0 s0
| reachable_step i s s' :
    reachable printing s0 s -> step printing i s s' -> reachable printing s0 s'.

(** Thread [i] has a step to take. *)
Definition enabled (printing : bool) (i : nat) (s : state) : Prop :=
  ∃ s', step printing i s s'.

(** A mutex is held by the thread that stands where it is held, and by
    no other. *)
Definition locks_inv (s : state) : Prop :=
  ∀ (m : mutex) (i : nat) (at_pc : pc),
    threads s !! i = Some at_pc ->
    (holds m at_pc = true <-> holder m s = Some i).

(** Whoever holds a mutex is one of the threads. *)
Definition holders_inv (s : state) : Prop :=
  ∀ (m : mutex) (i : nat), holder m s = Some i -> is_Some (threads s !! i).

Definition in_print (at_pc : pc) : bool :=
  match at_pc with
  | Printing | PrintingQueued | PrintingStates => true
  | _ => false
  end.

(** Worker [i] and caller [j] each hold the mutex the other is waiting
    for. *)
Definition embrace (i j : nat) (s : state) : Prop :=
  threads s !! i = Some HasQueue
  ∧ threads s !! j = Some Printing
  ∧ queueMutex s = Some i
  ∧ stateMutex s = Some j.

End PoolLocks.

(** * Properties *)

(** ** Machine integers *)

Lemma wrap_int_small z : - 2 ^ 31 <= z < 2 ^ 31 -> wrap_int z = z.
Proof. intros Hz. unfold wrap_int. rewrite Z.mod_small; lia. Qed.

Lemma wrap_long_small z : - 2 ^ 63 <= z < 2 ^ 63 -> wrap_long z = z.
Proof. intros Hz. unfold wrap_long. rewrite Z.mod_small; lia. Qed.

Lemma wrap_size_t_small z : 0 <= z < 2 ^ 64 -> wrap_size_t z = z.
Proof. intros Hz. unfold wrap_size_t. apply Z.mod_small; lia. Qed.

(** ** Condition variables *)

Lemma notify_one_woken_le pick ws :
  (length (CondVar.notify_one pick ws).1 <= 1)%nat.
Proof.
  destruct ws as [| t ws]; simpl; [lia |].
  rewrite length_take. lia.
Qed.

Lemma notify_one_nonempty pick ws :
  ws <> [] -> exists t, (CondVar.notify_one pick ws).1 = [t] /\ t ∈ ws.
Proof.
  intros Hne. destruct ws as [| t0 ws]; [done |].
  unfold CondVar.notify_one.
  set (l := t0 :: ws). set (i := (pick `mod` length l)%nat).
  assert (Hi : (i < length l)%nat).
  { subst i. apply Nat.mod_upper_bound. simpl. lia. }
  destruct (lookup_lt_is_Some_2 l i Hi) as [t Ht].
  exists t. split.
  - cbn [fst]. rewrite (drop_S l t i Ht). reflexivity.
  - apply list_elem_of_lookup. eauto.
Qed.

Lemma notify_one_woken_from pick ws t :
  t ∈ (CondVar.notify_one pick ws).1 -> t ∈ ws.
Proof.
  destruct ws as [| t0 ws]; [simpl; intros Hin; by apply elem_of_nil in Hin |].
  unfold CondVar.notify_one. cbn [fst]. intros Hin.
  apply (subseteq_take 1) in Hin. by apply (subseteq_drop _ _) in Hin.
Qed.

(** ** Semaphore *)
Section SemaphoreFacts.
Context `{Semaphore.Posix}.
Import Semaphore.

Lemma create_initialized raw value semName :
  initialized (create raw value semName) = ((sem_init raw 0 value).1 =? 0).
Proof. unfold create. destruct (sem_init raw 0 value) as [rc x]. reflexivity. Qed.

(** C8: on a semaphore whose [sem_init] failed ([initialized] is false),
    [wait], [tryWait], [timedWait] and [post] return [false], make no call
    on the underlying semaphore and leave the object as it was, and
    [getValue] returns [-1], again without a call. *)
Theorem uninitialized_semaphore_inert (s : Semaphore) (now : timespec) (timeout : Z) :
  initialized s = false ->
  wait s = (false, s, [])
  ∧ tryWait s = (false, s, [])
  ∧ timedWait now timeout s = (false, s, [])
  ∧ post s = (false, s, [])
  ∧ getValue s = (-1, []).
Proof.
  intros Hinit.
  unfold wait, tryWait, timedWait, post, getValue.
  rewrite Hinit. simpl. repeat split.
Qed.

Lemma timedWait_deadline_parts (now : timespec) (timeout : Z) :
  0 <= timeout < 2 ^ 63 ->
  0 <= tv_nsec now < 1000000000 ->
  - 2 ^ 63 <= tv_sec now ->
  tv_sec now + timeout / 1000 + 1 < 2 ^ 63 ->
  let nsec := tv_nsec now + timeout mod 1000 * 1000000 in
  timedWait_deadline now timeout =
    {| tv_sec := tv_sec now + (timeout / 1000 + nsec / 1000000000);
       tv_nsec := nsec mod 1000000000 |}.
Proof.
  intros Ht Hns Hs1 Hs2 nsec. unfold timedWait_deadline.
  rewrite Z.rem_mod_nonneg by lia.
  rewrite Z.quot_div_nonneg by lia.
  pose proof (Z.mod_pos_bound timeout 1000 ltac:(lia)) as Hr.
  pose proof (Z.div_pos timeout 1000 ltac:(lia) ltac:(lia)) as Hq.
  rewrite (wrap_long_small (timeout mod 1000 * 1000000)) by lia.
  fold nsec.
  assert (Hn : 0 <= nsec < 2000000000) by (subst nsec; lia).
  rewrite (wrap_long_small nsec) by lia.
  rewrite Z.rem_mod_nonneg by lia.
  rewrite Z.quot_div_nonneg by lia.
  assert (Hc : 0 <= nsec / 1000000000 <= 1).
  { split; [apply Z.div_pos; lia |].
    apply Z.lt_succ_r. apply Z.div_lt_upper_bound; lia. }
  assert (Hq' : timeout / 1000 < 2 ^ 62) by (apply Z.div_lt_upper_bound; lia).
  rewrite (wrap_long_small (timeout / 1000 + nsec / 1000000000)) by lia.
  rewrite wrap_long_small by lia.
  reflexivity.
Qed.

(** C10: on an initialized semaphore, for a timeout of [timeout >= 0]
    milliseconds, [timedWait] hands [sem_timedwait] an absolute deadline
    that is exactly the clock reading plus the timeout, with [tv_nsec] in
    [0, 1000000000).  The clock reading is a normalized [timespec] and the
    deadline's seconds fit [time_t]. *)
Theorem timedWait_deadline_exact (s : Semaphore) (now : timespec) (timeout : Z) :
  initialized s = true ->
  0 <= timeout < 2 ^ 63 ->
  0 <= tv_nsec now < 1000000000 ->
  - 2 ^ 63 <= tv_sec now ->
  tv_sec now + timeout / 1000 + 1 < 2 ^ 63 ->
  let ts := timedWait_deadline now timeout in
  timedWait now timeout s =
    ((sem_timedwait (sem s) ts).1 =? 0,
     with_sem s (sem_timedwait (sem s) ts).2,
     [CallTimedWait ts])
  ∧ tv_sec ts * 1000000000 + tv_nsec ts =
      (tv_sec now * 1000000000 + tv_nsec now) + timeout * 1000000
  ∧ 0 <= tv_nsec ts < 1000000000.
Proof.
  intros Hinit Ht Hns Hs1 Hs2 ts. split; [| split].
  - unfold timedWait. rewrite Hinit. simpl. fold ts.
    destruct (sem_timedwait (sem s) ts) as [rc x]. reflexivity.
  - subst ts. rewrite timedWait_deadline_parts by assumption. cbn [tv_sec tv_nsec].
    pose proof (Z.div_mod timeout 1000 ltac:(lia)) as Hdm.
    pose proof (Z.div_mod (tv_nsec now + timeout mod 1000 * 1000000) 1000000000
                  ltac:(lia)) as Hdn.
    lia.
  - subst ts. rewrite timedWait_deadline_parts by assumption. cbn [tv_sec tv_nsec].
    apply Z.mod_pos_bound. lia.
Qed.

End SemaphoreFacts.

Lemma uninitialized_semaphore_inert_witness :
  let s := Semaphore.create (H := Semaphore.counting) 0 (2 ^ 31) "slots" in
  let now := {| Semaphore.tv_sec := 1700000000; Semaphore.tv_nsec := 5 |} in
  Semaphore.initialized s = false
  ∧ (Semaphore.wait s = (false, s, [])
     ∧ Semaphore.tryWait s = (false, s, [])
     ∧ Semaphore.timedWait now 250 s = (false, s, [])
     ∧ Semaphore.post s = (false, s, [])
     ∧ Semaphore.getValue s = (-1, [])).
Proof.
  intros s now. split; [reflexivity |].
  apply (uninitialized_semaphore_inert s now 250). reflexivity.
Defined.

Lemma timedWait_deadline_exact_witness :
  let s := Semaphore.create (H := Semaphore.counting) 0 0 "full_slots" in
  let now := {| Semaphore.tv_sec := 1700000000; Semaphore.tv_nsec := 999000000 |} in
  Semaphore.initialized s = true
  ∧ Semaphore.timedWait_deadline now 2500
    = {| Semaphore.tv_sec := 1700000003; Semaphore.tv_nsec := 499000000 |}
  ∧ Semaphore.tv_sec (Semaphore.timedWait_deadline now 2500) * 1000000000
      + Semaphore.tv_nsec (Semaphore.timedWait_deadline now 2500)
    = (1700000000 * 1000000000 + 999000000) + 2500 * 1000000.
Proof.
  intros s now.
  assert (Hinit : Semaphore.initialized s = true) by reflexivity.
  destruct (timedWait_deadline_exact s now 2500 Hinit) as (_ & Heq & _);
    [subst now; cbn [Semaphore.tv_sec Semaphore.tv_nsec];
     first [lia | by vm_compute] .. |].
  split; [exact Hinit |]. split; [reflexivity | exact Heq].
Defined.

(** ** SafeMutex *)
Section SafeMutexFacts.
Import SafeMutex.

Lemma lock_success_held_by t timeout env m :
  ret (lock t timeout env m).1 = true -> held_by t (lock t timeout env m).2.
Proof.
  unfold lock, try_lock_for, held_by.
  destruct (decide (owner m = Some t)); [simpl; discriminate |].
  destruct (mtx m) as [h |] eqn:Hm.
  - destruct env as [| ms]; [simpl; discriminate |].
    destruct (decide _); simpl; [done | discriminate].
  - simpl. done.
Qed.

Lemma tryLock_success_held_by t m :
  ret (tryLock t m).1 = true -> held_by t (tryLock t m).2.
Proof.
  unfold tryLock, try_lock, held_by.
  destruct (mtx m); simpl; [discriminate | done].
Qed.

(** C3: when the calling thread already holds the lock, [lock] (for any
    timeout, whatever the other threads do) and [tryLock] both return
    [false] at once, without blocking, and the mutex (underlying mutex,
    owner, lock count) is left as it was. *)
Theorem recursive_acquisition_rejected
    (m : SafeMutex) (t : thread_id) (timeout : Z) (env : contention) :
  held_by t m ->
  lock t timeout env m =
    ({| ret := false; waited := 0;
        cerr := [RecursiveLockWarning t (name m)] |}, m)
  ∧ tryLock t m = ({| ret := false; waited := 0; cerr := [] |}, m).
Proof.
  intros [Hmtx Hown]. split.
  - unfold lock. destruct (decide (owner m = Some t)); [reflexivity | contradiction].
  - unfold tryLock, try_lock. rewrite Hmtx. reflexivity.
Qed.

End SafeMutexFacts.

Lemma recursive_acquisition_rejected_witness :
  let m := (SafeMutex.lock 7%nat 5000 SafeMutex.HeldThroughout
              (SafeMutex.create "buffer_mutex")).2 in
  SafeMutex.held_by 7%nat m
  ∧ (SafeMutex.lock 7%nat 5000 SafeMutex.HeldThroughout m).1.(SafeMutex.ret) = false
  ∧ (SafeMutex.lock 7%nat 5000 SafeMutex.HeldThroughout m).2 = m
  ∧ (SafeMutex.tryLock 7%nat m).1.(SafeMutex.ret) = false
  ∧ (SafeMutex.tryLock 7%nat m).2 = m.
Proof.
  intros m.
  assert (Hheld : SafeMutex.held_by 7%nat m) by (split; reflexivity).
  destruct (recursive_acquisition_rejected m 7%nat 5000 SafeMutex.HeldThroughout Hheld)
    as [Hl Ht].
  split; [exact Hheld |].
  rewrite Hl, Ht. repeat split.
Defined.

(** ** Counting threads *)

Lemma count_eq_cons {A} `{EqDecision A} (p q : A) (l : list A) :
  count_eq p (q :: l) = (if decide (q = p) then 1 else 0) + count_eq p l.
Proof.
  unfold count_eq. rewrite filter_cons.
  destruct (decide (q = p)); simpl length; lia.
Qed.

Lemma count_eq_bounds {A} `{EqDecision A} (p : A) (l : list A) :
  0 <= count_eq p l <= Z.of_nat (length l).
Proof.
  induction l as [| q l IH]; [unfold count_eq; simpl; lia |].
  rewrite count_eq_cons. simpl length. destruct (decide (q = p)); lia.
Qed.

Lemma count_eq_replicate {A} `{EqDecision A} (p q : A) (n : nat) :
  p ≠ q -> count_eq p (replicate n q) = 0.
Proof.
  intros Hne. induction n as [| n IH]; [reflexivity |].
  simpl replicate. rewrite count_eq_cons, IH.
  destruct (decide (q = p)); [congruence | lia].
Qed.

Lemma count_eq_insert {A} `{EqDecision A} (p : A) (t : nat) (q q' : A) (l : list A) :
  l !! t = Some q ->
  count_eq p (<[t := q']> l)
  = count_eq p l - (if decide (q = p) then 1 else 0)
    + (if decide (q' = p) then 1 else 0).
Proof.
  revert t. induction l as [| x l IH]; intros t Hlk; [done |].
  destruct t as [| t]; simpl in Hlk.
  - injection Hlk as ->. simpl. rewrite !count_eq_cons. lia.
  - simpl. rewrite !count_eq_cons, (IH t Hlk). lia.
Qed.

Lemma count_eq_absent {A} `{EqDecision A} (p : A) (l : list A) :
  (∀ t, l !! t ≠ Some p) -> count_eq p l = 0.
Proof.
  induction l as [| x l IH]; intros Habs; [reflexivity |].
  rewrite count_eq_cons, IH.
  - destruct (decide (x = p)) as [-> |]; [| lia].
    exfalso. exact (Habs 0%nat eq_refl).
  - intros t. exact (Habs (S t)).
Qed.

(** ** RWLock *)
Section RWLockFacts.
Import RWLock.

Lemma rw_inv_init n : rw_inv n (init n).
Proof.
  unfold rw_inv, init; simpl.
  rewrite length_replicate, !count_eq_replicate by discriminate.
  repeat split; lia.
Qed.

Lemma rw_inv_step n s s' :
  Z.of_nat n < 2 ^ 31 -> rw_inv n s -> step s s' -> rw_inv n s'.
Proof.
  intros Hn (Hlen & Hr & Hw & Hw1 & Hex) Hstep.
  destruct Hstep as
    [t l ps r l' Hpc Hat | t l ps r l' Hpc Hawake Hat | t pick l ps Hpc
    | t l ps r l' Hpc Hat | t l ps r l' Hpc Hawake Hat | t pick l ps Hpc
    | t l ps Hin | t l ps Hin];
    simpl in *; unfold rw_inv; simpl.
  - (* readLock *)
    unfold readLock_attempt in Hat.
    destruct ((0 <? writers l) || (0 <? waitingWriters l)) eqn:Hg;
      injection Hat as <- <-; simpl;
      rewrite length_insert, !(count_eq_insert _ t Idle _ ps Hpc); simpl.
    + repeat split; lia.
    + apply orb_false_iff in Hg as [Hg1 Hg2]. apply Z.ltb_ge in Hg1.
      pose proof (count_eq_bounds Reading (<[t := Reading]> ps)) as Hb.
      rewrite length_insert, (count_eq_insert _ t Idle _ ps Hpc) in Hb.
      simpl in Hb. rewrite wrap_int_small by lia.
      repeat split; lia.
  - (* readLock, after a wake-up *)
    unfold readLock_attempt in Hat.
    destruct ((0 <? writers l) || (0 <? waitingWriters l)) eqn:Hg;
      injection Hat as <- <-; simpl;
      rewrite length_insert, !(count_eq_insert _ t InReadLock _ ps Hpc); simpl.
    + repeat split; lia.
    + apply orb_false_iff in Hg as [Hg1 Hg2]. apply Z.ltb_ge in Hg1.
      pose proof (count_eq_bounds Reading (<[t := Reading]> ps)) as Hb.
      rewrite length_insert, (count_eq_insert _ t InReadLock _ ps Hpc) in Hb.
      simpl in Hb. rewrite wrap_int_small by lia.
      repeat split; lia.
  - (* readUnlock *)
    pose proof (count_eq_bounds Reading (<[t := Idle]> ps)) as Hb.
    rewrite length_insert, (count_eq_insert _ t Reading _ ps Hpc) in Hb.
    simpl in Hb.
    assert (Hsmall : wrap_int (readers l - 1) = readers l - 1)
      by (apply wrap_int_small; lia).
    unfold readUnlock. rewrite Hsmall.
    destruct (readers l - 1 =? 0);
      [destruct (CondVar.notify_one pick (writeCV l)) as [w ws] |];
      simpl;
      rewrite length_insert, !(count_eq_insert _ t Reading _ ps Hpc); simpl;
      repeat split; lia.
  - (* writeLock *)
    unfold writeLock_attempt, writeLock_enter in Hat. simpl in Hat.
    destruct ((0 <? readers l) || (0 <? writers l)) eqn:Hg;
      injection Hat as <- <-; simpl;
      rewrite length_insert, !(count_eq_insert _ t Idle _ ps Hpc); simpl.
    + repeat split; lia.
    + apply orb_false_iff in Hg as [Hg1 Hg2].
      apply Z.ltb_ge in Hg1, Hg2.
      pose proof (count_eq_bounds Writing ps) as Hb.
      pose proof (count_eq_bounds Reading ps) as Hb'.
      rewrite wrap_int_small by lia.
      repeat split; lia.
  - (* writeLock, after a wake-up *)
    unfold writeLock_attempt in Hat.
    destruct ((0 <? readers l) || (0 <? writers l)) eqn:Hg;
      injection Hat as <- <-; simpl;
      rewrite length_insert, !(count_eq_insert _ t InWriteLock _ ps Hpc); simpl.
    + repeat split; lia.
    + apply orb_false_iff in Hg as [Hg1 Hg2].
      apply Z.ltb_ge in Hg1, Hg2.
      pose proof (count_eq_bounds Writing ps) as Hb.
      pose proof (count_eq_bounds Reading ps) as Hb'.
      rewrite wrap_int_small by lia.
      repeat split; lia.
  - (* writeUnlock *)
    pose proof (count_eq_bounds Writing (<[t := Idle]> ps)) as Hb.
    rewrite length_insert, (count_eq_insert _ t Writing _ ps Hpc) in Hb.
    simpl in Hb.
    assert (Hsmall : wrap_int (writers l - 1) = writers l - 1)
      by (apply wrap_int_small; lia).
    unfold writeUnlock. rewrite Hsmall.
    destruct (0 <? waitingWriters l);
      [destruct (CondVar.notify_one pick (writeCV l)) as [w ws] |];
      simpl;
      rewrite length_insert, !(count_eq_insert _ t Writing _ ps Hpc); simpl;
      repeat split; lia.
  - repeat split; assumption.
  - repeat split; assumption.
Qed.

Lemma reachable_rw_inv n s : Z.of_nat n < 2 ^ 31 -> reachable n s -> rw_inv n s.
Proof.
  intros Hn Hreach. induction Hreach as [| s s' _ IH Hstep].
  - apply rw_inv_init.
  - exact (rw_inv_step n s s' Hn IH Hstep).
Qed.

(** C2, as amended: in every state that fewer than 2^31 client threads can
    bring the lock to, the active writer count is 0 or 1, and whenever it
    is greater than 0 the active reader count is 0. *)
Theorem writer_excludes_readers (n : nat) (s : state) :
  Z.of_nat n < 2 ^ 31 ->
  reachable n s ->
  (writers s.1 = 0 ∨ writers s.1 = 1)
  ∧ (0 < writers s.1 -> readers s.1 = 0).
Proof.
  intros Hn Hreach.
  destruct (reachable_rw_inv n s Hn Hreach) as (_ & _ & Hw & Hw1 & Hex).
  pose proof (count_eq_bounds Writing s.2) as Hb.
  split; [lia | exact Hex].
Qed.

(** C6, as amended: [writeUnlock] decrements the writer count and then,
    when the waiting-writer count is greater than 0, performs one
    [notify_one] on the writers' condition variable and leaves the
    readers asleep: it wakes exactly one of the writers asleep there when
    there is one, and nobody when there is none (a counted writer may be
    awake already); otherwise it wakes every reader asleep on the
    readers' condition variable and no writer. *)
Theorem writeUnlock_prefers_writers (pick : nat) (l : RWLock) :
  let w := (writeUnlock pick l).1 in
  let l' := (writeUnlock pick l).2 in
  readers l' = readers l
  ∧ writers l' = wrap_int (writers l - 1)
  ∧ waitingWriters l' = waitingWriters l
  ∧ (if 0 <? waitingWriters l then
       woken_writers w = (CondVar.notify_one pick (writeCV l)).1
       ∧ writeCV l' = (CondVar.notify_one pick (writeCV l)).2
       ∧ (length (woken_writers w) <= 1)%nat
       ∧ woken_readers w = []
       ∧ readCV l' = readCV l
       ∧ (writeCV l ≠ [] -> ∃ t, woken_writers w = [t] ∧ t ∈ writeCV l)
       ∧ (writeCV l = [] -> woken_writers w = [])
     else
       woken_readers w = readCV l
       ∧ readCV l' = []
       ∧ woken_writers w = []
       ∧ writeCV l' = writeCV l).
Proof.
  unfold writeUnlock.
  destruct (0 <? waitingWriters l) eqn:Hww.
  - pose proof (notify_one_woken_le pick (writeCV l)) as Hle.
    pose proof (notify_one_nonempty pick (writeCV l)) as Hone.
    assert (Hnone : writeCV l = [] -> (CondVar.notify_one pick (writeCV l)).1 = [])
      by (by intros ->).
    destruct (CondVar.notify_one pick (writeCV l)) as [woken ws]. simpl in *.
    split_and!; try reflexivity; [exact Hle | exact Hone | exact Hnone].
  - simpl. repeat split.
Qed.

(** With a writer asleep on [writeCV], the thread [writeUnlock] wakes is
    exactly one of the sleeping writers. *)
Lemma writeUnlock_wakes_one_writer (pick : nat) (l : RWLock) :
  0 < waitingWriters l ->
  writeCV l ≠ [] ->
  ∃ t, woken_writers (writeUnlock pick l).1 = [t] ∧ t ∈ writeCV l.
Proof.
  intros Hww Hne. unfold writeUnlock.
  apply Z.ltb_lt in Hww. rewrite Hww.
  destruct (notify_one_nonempty pick (writeCV l) Hne) as (t & Ht & Hin).
  destruct (CondVar.notify_one pick (writeCV l)) as [woken ws]. simpl in *.
  eauto.
Qed.

End RWLockFacts.

(** The idle lock refutes the equivalence of C2: no writer is active and
    no reader is either. *)
Lemma idle_lock_refutes_equivalence :
  let s := RWLock.init 2 in
  RWLock.reachable 2 s
  ∧ RWLock.readers s.1 = 0
  ∧ RWLock.writers s.1 = 0
  ∧ ¬ (0 < RWLock.writers s.1 ↔ RWLock.readers s.1 = 0).
Proof.
  intros s. split; [constructor |]. simpl.
  repeat split. intros [_ Hback]. specialize (Hback eq_refl). lia.
Qed.

(** A writer that is counted in [waitingWriters] need not be asleep.
    Thread 0 takes a read lock, thread 1 calls [writeLock] and goes to
    sleep, thread 0 unlocks and wakes it, and before thread 1 runs again
    thread 2 calls [writeLock] and gets the lock.  Thread 1 is still
    counted, nobody sleeps on the writers' condition variable, and the
    [writeUnlock] of thread 2 wakes no writer whichever way [notify_one]
    chooses. *)
Lemma writeUnlock_may_wake_no_writer :
  let l := {| RWLock.readers := 0; RWLock.writers := 1;
              RWLock.waitingWriters := 1;
              RWLock.readCV := []; RWLock.writeCV := [] |} in
  RWLock.reachable 3 (l, [RWLock.Idle; RWLock.InWriteLock; RWLock.Writing])
  ∧ 0 < RWLock.waitingWriters l
  ∧ ∀ pick, ¬ ∃ t, RWLock.woken_writers (RWLock.writeUnlock pick l).1 = [t].
Proof.
  intros l. split_and!; [| reflexivity | intros pick [t Ht]; discriminate].
  set (l1 := {| RWLock.readers := 1; RWLock.writers := 0;
                RWLock.waitingWriters := 0;
                RWLock.readCV := []; RWLock.writeCV := [] |}).
  set (l2 := {| RWLock.readers := 1; RWLock.writers := 0;
                RWLock.waitingWriters := 1;
                RWLock.readCV := []; RWLock.writeCV := [1%nat] |}).
  set (l3 := {| RWLock.readers := 0; RWLock.writers := 0;
                RWLock.waitingWriters := 1;
                RWLock.readCV := []; RWLock.writeCV := [] |}).
  assert (H1 : RWLock.reachable 3
            (l1, [RWLock.Reading; RWLock.Idle; RWLock.Idle])).
  { eapply RWLock.reachable_step; [apply RWLock.reachable_init |].
    apply (RWLock.step_readLock 0%nat RWLock.create
             [RWLock.Idle; RWLock.Idle; RWLock.Idle] RWLock.Acquired l1);
      reflexivity. }
  assert (H2 : RWLock.reachable 3
            (l2, [RWLock.Reading; RWLock.InWriteLock; RWLock.Idle])).
  { eapply RWLock.reachable_step; [exact H1 |].
    apply (RWLock.step_writeLock 1%nat l1
             [RWLock.Reading; RWLock.Idle; RWLock.Idle] RWLock.Sleeping l2);
      reflexivity. }
  assert (H3 : RWLock.reachable 3
            (l3, [RWLock.Idle; RWLock.InWriteLock; RWLock.Idle])).
  { eapply RWLock.reachable_step; [exact H2 |].
    apply (RWLock.step_readUnlock 0%nat 0 l2
             [RWLock.Reading; RWLock.InWriteLock; RWLock.Idle]).
    reflexivity. }
  eapply RWLock.reachable_step; [exact H3 |].
  apply (RWLock.step_writeLock 2%nat l3
           [RWLock.Idle; RWLock.InWriteLock; RWLock.Idle] RWLock.Acquired l);
    reflexivity.
Qed.

Lemma writeUnlock_prefers_writers_witness :
  let l := {| RWLock.readers := 0; RWLock.writers := 1;
              RWLock.waitingWriters := 2;
              RWLock.readCV := [3%nat]; RWLock.writeCV := [1%nat; 2%nat] |} in
  RWLock.writeCV l ≠ []
  ∧ RWLock.woken_writers (RWLock.writeUnlock 1 l).1 = [2%nat]
  ∧ RWLock.woken_readers (RWLock.writeUnlock 1 l).1 = [].
Proof.
  intros l.
  assert (Hne : RWLock.writeCV l ≠ []) by discriminate.
  split; [exact Hne |].
  destruct (writeUnlock_prefers_writers 1 l)
    as (_ & _ & _ & Hw & _ & _ & Hr & _ & Hone & _).
  split; [| exact Hr].
  destruct (Hone Hne) as (t & Ht & _). rewrite Hw. reflexivity.
Defined.

Lemma writer_excludes_readers_witness :
  let s := (RWLock.writeLock_attempt 0%nat (RWLock.writeLock_enter RWLock.create)).2 in
  RWLock.reachable 2 (s, [RWLock.Writing; RWLock.Idle])
  ∧ RWLock.writers s = 1
  ∧ RWLock.readers s = 0.
Proof.
  intros s.
  assert (Hreach : RWLock.reachable 2 (s, [RWLock.Writing; RWLock.Idle])).
  { eapply RWLock.reachable_step; [apply RWLock.reachable_init |].
    apply (RWLock.step_writeLock 0%nat RWLock.create [RWLock.Idle; RWLock.Idle]
             RWLock.Acquired s); reflexivity. }
  split; [exact Hreach |].
  assert (Hn : Z.of_nat 2 < 2 ^ 31) by reflexivity.
  destruct (writer_excludes_readers 2 (s, [RWLock.Writing; RWLock.Idle])
              Hn Hreach) as [_ Hex].
  split; [reflexivity |]. apply Hex. reflexivity.
Defined.

(** ** Barrier *)
Section BarrierFacts.
Import Barrier.

Lemma lookup_insert_Waiting (ps : list pc) (t t' : nat) (p : pc) (g : Z) :
  <[t := p]> ps !! t' = Some (Waiting g) ->
  (t' = t ∧ p = Waiting g) ∨ ps !! t' = Some (Waiting g).
Proof.
  intros Hlk. destruct (decide (t = t')) as [-> | Hne].
  - destruct (decide (t' < length ps)%nat) as [Hlt | Hge].
    + rewrite list_lookup_insert_eq in Hlk by exact Hlt.
      injection Hlk as ->. by left.
    + rewrite list_insert_ge in Hlk by lia. by right.
  - rewrite list_lookup_insert_ne in Hlk by exact Hne. by right.
Qed.

Lemma barrier_inv_init P n : barrier_inv P 0 (init P n).
Proof.
  unfold barrier_inv, init, create; simpl.
  rewrite count_eq_replicate by discriminate.
  split_and!; try lia.
  intros t g Hlk. apply lookup_replicate in Hlk as [Hlk _]. discriminate.
Qed.

Lemma barrier_inv_step P k s s' :
  Z.of_nat k + 1 < 2 ^ 64 ->
  barrier_inv P k s -> step s s' -> barrier_inv P (S k) s'.
Proof.
  intros Hk (Hth & Hgen & Hcnt & Hcount & Hwait) Hstep.
  destruct Hstep as
    [t b ps a b' Hpc Harr | t g b ps a b' Hpc Hawake Hre | t b ps Hin | b ps Hnone];
    simpl in *; unfold barrier_inv; simpl.
  - (* arrival *)
    unfold wait_arrive in Harr.
    rewrite (wrap_size_t_small (count b + 1)) in Harr by lia.
    destruct (count b + 1 =? threshold b) eqn:Htrip.
    + simpl in Harr. injection Harr as <- <-. simpl.
      rewrite wrap_size_t_small by lia.
      split_and!; try lia.
      * symmetry. apply count_eq_absent. intros t' Hlk.
        apply lookup_insert_Waiting in Hlk as [[_ Hlk] | Hlk]; [discriminate |].
        specialize (Hwait t' _ Hlk). lia.
      * intros t' g' Hlk.
        apply lookup_insert_Waiting in Hlk as [[_ Heq] | Hlk]; [discriminate |].
        specialize (Hwait t' _ Hlk). lia.
    + unfold wait_recheck in Harr. simpl in Harr.
      rewrite Z.eqb_refl in Harr. simpl in Harr.
      injection Harr as <- <-. simpl.
      rewrite (count_eq_insert _ t Outside _ ps Hpc).
      destruct (decide (Outside = Waiting (generation b))); [discriminate |].
      destruct (decide (Waiting (generation b) = Waiting (generation b))); [| done].
      split_and!; try lia.
      intros t' g' Hlk.
      apply lookup_insert_Waiting in Hlk as [[_ Heq] | Hlk].
      * injection Heq as <-. lia.
      * specialize (Hwait t' _ Hlk). lia.
  - (* a parked thread tests its predicate again *)
    unfold wait_recheck in Hre.
    destruct (g =? generation b) eqn:Hg; simpl in Hre;
      injection Hre as <- <-; simpl;
      rewrite (count_eq_insert _ t (Waiting g) _ ps Hpc).
    + apply Z.eqb_eq in Hg. subst g.
      destruct (decide (Waiting (generation b) = Waiting (generation b))); [| done].
      split_and!; try lia.
      intros t' g' Hlk.
      apply lookup_insert_Waiting in Hlk as [[_ Heq] | Hlk].
      * injection Heq as <-. lia.
      * specialize (Hwait t' _ Hlk). lia.
    + apply Z.eqb_neq in Hg.
      destruct (decide (Waiting g = Waiting (generation b))) as [Heq |];
        [injection Heq as ->; done |].
      destruct (decide (Outside = Waiting (generation b))); [discriminate |].
      split_and!; try lia.
      intros t' g' Hlk.
      apply lookup_insert_Waiting in Hlk as [[_ Heq] | Hlk]; [discriminate |].
      specialize (Hwait t' _ Hlk). lia.
  - (* spurious wake-up *)
    split_and!; try lia. exact Hwait.
  - (* reset *)
    split_and!; try lia.
    + symmetry. apply count_eq_absent. intros t. apply Hnone.
    + intros t g Hlk. exfalso. exact (Hnone _ _ Hlk).
Qed.

Lemma reach_barrier_inv P n k s :
  Z.of_nat k < 2 ^ 64 -> reach P n k s -> barrier_inv P k s.
Proof.
  intros Hk Hreach. induction Hreach as [| k s s' _ IH Hstep].
  - apply barrier_inv_init.
  - apply (barrier_inv_step P k s s'); [lia | apply IH; lia | exact Hstep].
Qed.

(** C4: in any state reached from a fresh barrier of party size [P]
    (fewer than 2^64 steps, [reset] only while nobody waits):
    - the thread whose arrival is the [P]th of the current generation
      ([P - 1] threads are parked in it) increments the generation, sets
      the arrival count to 0, wakes every thread asleep on the condition
      variable and returns;
    - any other arriving thread parks, remembering the current generation;
    - a thread parked with generation [g] leaves [wait] only in a state
      whose generation counter is greater than [g]. *)
Theorem barrier_generation_gate (P : Z) (n k : nat) (b : Barrier) (ps : list pc) :
  Z.of_nat k + 1 < 2 ^ 64 ->
  reach P n k (b, ps) ->
  (∀ t, ps !! t = Some Outside ->
        count_eq (Waiting (generation b)) ps + 1 = P ->
        wait_arrive t b =
          (Passed (cv b),
           {| threshold := P; count := 0;
              generation := generation b + 1; cv := [] |}))
  ∧ (∀ t, ps !! t = Some Outside ->
          count_eq (Waiting (generation b)) ps + 1 ≠ P ->
          wait_arrive t b =
            (Parked (generation b),
             {| threshold := P; count := count b + 1;
                generation := generation b; cv := CondVar.block t (cv b) |}))
  ∧ (∀ t g b' ps',
        step (b, ps) (b', ps') ->
        ps !! t = Some (Waiting g) ->
        ps' !! t = Some Outside ->
        g < generation b ∧ b' = b).
Proof.
  intros Hk Hreach.
  destruct (reach_barrier_inv P n k (b, ps) ltac:(lia) Hreach)
    as (Hth & Hgen & Hcnt & Hcount & Hwait); simpl in *.
  split_and!.
  - intros t _ HP. unfold wait_arrive.
    rewrite (wrap_size_t_small (count b + 1)) by lia.
    rewrite Hth, Hcount. apply Z.eqb_eq in HP. rewrite HP. simpl.
    rewrite wrap_size_t_small by lia. reflexivity.
  - intros t _ HP. unfold wait_arrive.
    rewrite (wrap_size_t_small (count b + 1)) by lia.
    rewrite Hth. rewrite Hcount at 1. apply Z.eqb_neq in HP. rewrite HP.
    unfold wait_recheck. simpl. rewrite Z.eqb_refl. reflexivity.
  - intros t g b' ps' Hstep Hpc Hout.
    specialize (Hwait t g Hpc).
    inversion Hstep as
      [t0 b0 ps0 a b0' Hpc0 Harr | t0 g0 b0 ps0 a b0' Hpc0 Hawake Hre
      | t0 b0 ps0 Hin | b0 ps0 Hnone]; subst; unfold thread_id in *.
    + destruct (decide (t0 = t)) as [-> | Hne]; [congruence |].
      rewrite list_lookup_insert_ne in Hout by exact Hne. congruence.
    + destruct (decide (t0 = t)) as [-> | Hne].
      * assert (g0 = g) by congruence. subst g0.
        unfold wait_recheck in Hre.
        destruct (g =? generation b) eqn:Hg; simpl in Hre;
          injection Hre as <- <-.
        -- rewrite list_lookup_insert_eq in Hout
             by (eapply lookup_lt_Some; exact Hpc).
           discriminate.
        -- apply Z.eqb_neq in Hg. split; [lia | reflexivity].
      * rewrite list_lookup_insert_ne in Hout by exact Hne. congruence.
    + congruence.
    + congruence.
Qed.

End BarrierFacts.

Lemma barrier_generation_gate_witness :
  let b3 := {| Barrier.threshold := 4; Barrier.count := 3;
               Barrier.generation := 0; Barrier.cv := [0; 1; 2]%nat |} in
  let ps3 := [Barrier.Waiting 0; Barrier.Waiting 0; Barrier.Waiting 0;
              Barrier.Outside] in
  Barrier.reach 4 4 3 (b3, ps3)
  ∧ Barrier.wait_arrive 3%nat b3 =
      (Barrier.Passed [0; 1; 2]%nat,
       {| Barrier.threshold := 4; Barrier.count := 0;
          Barrier.generation := 1; Barrier.cv := [] |}).
Proof.
  intros b3 ps3.
  pose (b1 := {| Barrier.threshold := 4; Barrier.count := 1;
                 Barrier.generation := 0; Barrier.cv := [0]%nat |}).
  pose (b2 := {| Barrier.threshold := 4; Barrier.count := 2;
                 Barrier.generation := 0; Barrier.cv := [0; 1]%nat |}).
  pose (ps0 := replicate 4 Barrier.Outside).
  pose (ps1 := <[0%nat := Barrier.Waiting 0]> ps0).
  pose (ps2 := <[1%nat := Barrier.Waiting 0]> ps1).
  assert (Hreach : Barrier.reach 4 4 3 (b3, ps3)).
  { apply (Barrier.reach_step 4 4 2 (b2, ps2) (b3, ps3)).
    - apply (Barrier.reach_step 4 4 1 (b1, ps1) (b2, ps2)).
      + apply (Barrier.reach_step 4 4 0 (Barrier.create 4, ps0) (b1, ps1)).
        * apply Barrier.reach_init.
        * exact (Barrier.step_arrive 0%nat (Barrier.create 4) ps0
                   (Barrier.Parked 0) b1 eq_refl eq_refl).
      + exact (Barrier.step_arrive 1%nat b1 ps1 (Barrier.Parked 0) b2
                 eq_refl eq_refl).
    - exact (Barrier.step_arrive 2%nat b2 ps2 (Barrier.Parked 0) b3
               eq_refl eq_refl). }
  split; [exact Hreach |].
  assert (Hk : Z.of_nat 3 + 1 < 2 ^ 64) by reflexivity.
  destruct (barrier_generation_gate 4 4 3 b3 ps3 Hk Hreach) as (Hpth & _ & _).
  apply (Hpth 3%nat); reflexivity.
Defined.

(** The barrier of the test program: four threads, four arrivals. *)
Example barrier_four_arrivals :
  Barrier.arrive_seq 4 0%nat (Barrier.create 4)
  = ([Barrier.Parked 0; Barrier.Parked 0; Barrier.Parked 0;
      Barrier.Passed [0; 1; 2]%nat],
     {| Barrier.threshold := 4; Barrier.count := 0;
        Barrier.generation := 1; Barrier.cv := [] |}).
Proof. reflexivity. Qed.

(** ** ThreadPool *)
Section ThreadPoolFacts.
Import ThreadPool.

Lemma workerThread_wait_stop id p : stop (workerThread_wait id p) = stop p.
Proof.
  unfold workerThread_wait, workerThread_after_wait.
  destruct (wait_pred p); [| reflexivity].
  destruct (stop p && tasks_empty p); [reflexivity |].
  destruct (tasks p); reflexivity.
Qed.

Lemma workerThread_step_stop id p p' : workerThread_step id p = Some p' -> stop p' = stop p.
Proof.
  unfold workerThread_step. intros Hstep.
  destruct (workers p !! id) as [[| | [task |] | task |] |]; try discriminate.
  - injection Hstep as <-. by rewrite workerThread_wait_stop.
  - destruct (decide (id ∈ condition p)); [discriminate |].
    injection Hstep as <-. by rewrite workerThread_wait_stop.
  - by injection Hstep as <-.
  - by injection Hstep as <-.
  - by injection Hstep as <-.
Qed.

Lemma run_stop schedule p : stop (run schedule p) = stop p.
Proof.
  revert p. induction schedule as [| id rest IH]; intros p; [reflexivity |].
  simpl. rewrite IH.
  destruct (workerThread_step id p) as [p' |] eqn:Hstep; [| reflexivity].
  exact (workerThread_step_stop id p p' Hstep).
Qed.

(** Once [shutdown] has been called, the stop flag is set. *)
Lemma shutdown_sets_stop schedule p :
  stop (shutdown schedule p).2 = true.
Proof.
  unfold shutdown. destruct (stop p) eqn:Hstop; [exact Hstop |].
  simpl.
  destruct (all_returned _); simpl; by rewrite run_stop.
Qed.

Lemma shutdown_when_stopped schedule p :
  stop p = true -> shutdown schedule p = (AlreadyStopped, p).
Proof. intros Hstop. unfold shutdown. by rewrite Hstop. Qed.

(** C5, as amended: [enqueue] on a pool whose stop flag is set (as it is
    from the moment [shutdown] has begun) throws and leaves the pool,
    queue included, as it was, waking nobody.  Otherwise the task goes to
    the back of the queue and one [notify_one] is made on the workers'
    condition variable: it wakes exactly one of the workers asleep there
    when there is one, and nobody when there is none; nothing else
    changes. *)
Theorem enqueue_rejects_after_shutdown (pick : nat) (task : Task) (p : ThreadPool) :
  (stop p = true ->
     enqueue pick task p =
       (Rejected "Cannot enqueue on stopped ThreadPool", p, []))
  ∧ (∀ schedule p0,
       p = (shutdown schedule p0).2 ->
       enqueue pick task p =
         (Rejected "Cannot enqueue on stopped ThreadPool", p, []))
  ∧ (stop p = false ->
       let woken := (CondVar.notify_one pick (condition p)).1 in
       let asleep := (CondVar.notify_one pick (condition p)).2 in
       enqueue pick task p =
         (Accepted,
          with_condition asleep (with_tasks (tasks p ++ [task]) p),
          woken)
       ∧ (length woken <= 1)%nat
       ∧ (∀ w, w ∈ woken -> w ∈ condition p)
       ∧ (condition p ≠ [] -> ∃ w, woken = [w] ∧ w ∈ condition p)
       ∧ (condition p = [] -> woken = [])).
Proof.
  split_and!.
  - intros Hstop. unfold enqueue. by rewrite Hstop.
  - intros schedule p0 ->. unfold enqueue.
    by rewrite shutdown_sets_stop.
  - intros Hstop woken asleep. split_and!.
    + unfold enqueue. rewrite Hstop. simpl. subst woken asleep.
      by destruct (CondVar.notify_one pick (condition p)).
    + apply notify_one_woken_le.
    + intros w. apply notify_one_woken_from.
    + apply notify_one_nonempty.
    + subst woken. by intros ->.
Qed.

(** With a worker asleep on the condition variable, the worker [enqueue]
    wakes is exactly one of the sleeping workers. *)
Lemma enqueue_wakes_one_worker (pick : nat) (task : Task) (p : ThreadPool) :
  stop p = false ->
  condition p ≠ [] ->
  ∃ w, (enqueue pick task p).2 = [w] ∧ w ∈ condition p.
Proof.
  intros Hstop Hne. unfold enqueue. rewrite Hstop. simpl.
  destruct (notify_one_nonempty pick (condition p) Hne) as (w & Hw & Hin).
  destruct (CondVar.notify_one pick (condition p)) as [woken ws]. simpl in *.
  eauto.
Qed.

(** The queue is served oldest first: a worker that finds the queue
    non-empty takes its front. *)
Lemma worker_takes_front id p task rest :
  tasks p = task :: rest ->
  workerThread_wait id p =
    set_worker id (Dequeued (Some task)) (with_tasks rest p).
Proof.
  intros Hq. unfold workerThread_wait, wait_pred, workerThread_after_wait, tasks_empty.
  rewrite Hq. rewrite orb_true_r, andb_false_r. reflexivity.
Qed.

(** C7: in the pool a call of [shutdown] leaves behind, a further call
    returns at its first test and the pool (stop flag, queue, worker
    states, workers, output) is exactly what it was. *)
Theorem shutdown_idempotent (p : ThreadPool) (schedule1 schedule2 : list nat) :
  let p1 := (shutdown schedule1 p).2 in
  shutdown schedule2 p1 = (AlreadyStopped, p1).
Proof. intros p1. apply shutdown_when_stopped, shutdown_sets_stop. Qed.

Lemma create_sizes numThreads :
  length (workers (create numThreads)) = numThreads
  ∧ length (workerStates (create numThreads)) = numThreads.
Proof. unfold create; simpl. by rewrite !length_replicate. Qed.

(** C9: on a pool of [N] workers, [getThreadState id] with [id >= N]
    returns [TERMINATED] without reading [workerStates]; with [id < N] it
    returns the state stored for worker [id].  The pool is unchanged
    either way. *)
Theorem getThreadState_checks_bounds (N id : nat) (p : ThreadPool) :
  getPoolSize p = N ->
  length (workerStates p) = N ->
  ((N <= id)%nat -> getThreadState id p = (TERMINATED, p))
  ∧ ((id < N)%nat ->
       ∃ st, workerStates p !! id = Some st ∧ getThreadState id p = (st, p)).
Proof.
  intros _ Hlen. unfold getThreadState. split.
  - intros Hge. destruct (decide _) as [_ | Hlt]; [reflexivity | lia].
  - intros Hlt. destruct (decide _) as [Hge | _]; [lia |].
    destruct (lookup_lt_is_Some_2 (workerStates p) id ltac:(lia)) as [st Hst].
    exists st. by rewrite Hst.
Qed.

End ThreadPoolFacts.

(** Two workers, nothing queued: the first [shutdown] joins both, the
    second one does nothing. *)
Example shutdown_twice :
  let p := (ThreadPool.shutdown [0; 1; 0; 1]%nat (ThreadPool.create 2)).2 in
  ThreadPool.shutdown [0; 1; 0; 1]%nat (ThreadPool.create 2) = (ThreadPool.Joined, p)
  ∧ ThreadPool.workerStates p = [ThreadPool.TERMINATED; ThreadPool.TERMINATED]
  ∧ ThreadPool.shutdown [0; 1]%nat p = (ThreadPool.AlreadyStopped, p).
Proof. repeat split. Qed.

Lemma enqueue_rejects_after_shutdown_witness :
  let p := (ThreadPool.shutdown [0]%nat (ThreadPool.create 1)).2 in
  let q := ThreadPool.run [0]%nat (ThreadPool.create 1) in
  ThreadPool.stop p = true
  ∧ ThreadPool.enqueue 0 5%nat p =
      (ThreadPool.Rejected "Cannot enqueue on stopped ThreadPool", p, [])
  ∧ ThreadPool.stop q = false
  ∧ ThreadPool.condition q = [0%nat]
  ∧ (ThreadPool.enqueue 0 5%nat q).2 = [0%nat]
  ∧ ThreadPool.tasks (ThreadPool.enqueue 0 5%nat q).1.2 = [5%nat].
Proof.
  intros p q.
  destruct (enqueue_rejects_after_shutdown 0 5%nat p) as (Hrej & _ & _).
  destruct (enqueue_rejects_after_shutdown 0 5%nat q) as (_ & _ & Hacc).
  split; [reflexivity |]. split; [apply Hrej; reflexivity |].
  split; [reflexivity |]. split; [reflexivity |].
  destruct (Hacc eq_refl) as (Heq & _). rewrite Heq. split; reflexivity.
Defined.

(** [enqueue] may wake nobody.  On a freshly constructed pool the worker
    shows [IDLE] but has not yet gone to sleep on the condition variable,
    and on a pool whose only worker is inside a task there is no idle
    worker at all: in both the task is accepted and no worker is woken,
    whichever way [notify_one] chooses. *)
Lemma enqueue_may_wake_no_worker :
  let p := ThreadPool.create 1 in
  let q := ThreadPool.run [0; 0]%nat
             (ThreadPool.enqueue 0 4%nat (ThreadPool.create 1)).1.2 in
  ThreadPool.stop p = false
  ∧ (ThreadPool.getThreadState 0 p).1 = ThreadPool.IDLE
  ∧ ThreadPool.workers q = [ThreadPool.Executing 4%nat]
  ∧ ThreadPool.stop q = false
  ∧ ∀ pick,
      (ThreadPool.enqueue pick 5%nat p).1.1 = ThreadPool.Accepted
      ∧ (ThreadPool.enqueue pick 5%nat q).1.1 = ThreadPool.Accepted
      ∧ (¬ ∃ w, (ThreadPool.enqueue pick 5%nat p).2 = [w])
      ∧ (¬ ∃ w, (ThreadPool.enqueue pick 5%nat q).2 = [w]).
Proof.
  intros p q. split_and!; try reflexivity.
  intros pick. split_and!; try reflexivity; intros [w Hw]; discriminate.
Qed.

Lemma getThreadState_checks_bounds_witness :
  let p := ThreadPool.run [1; 1]%nat
             (ThreadPool.enqueue 0 9%nat (ThreadPool.create 3)).1.2 in
  ThreadPool.getPoolSize p = 3%nat
  ∧ length (ThreadPool.workerStates p) = 3%nat
  ∧ ThreadPool.getThreadState 1 p = (ThreadPool.RUNNING, p)
  ∧ ThreadPool.getThreadState 3 p = (ThreadPool.TERMINATED, p).
Proof.
  intros p.
  assert (Hw : ThreadPool.getPoolSize p = 3%nat) by reflexivity.
  assert (Hs : length (ThreadPool.workerStates p) = 3%nat) by reflexivity.
  split; [exact Hw |]. split; [exact Hs |].
  split.
  - destruct (getThreadState_checks_bounds 3 1 p Hw Hs) as [_ Hin].
    destruct (Hin ltac:(lia)) as (st & Hst & Hget).
    rewrite Hget. f_equal. by injection Hst as <-.
  - destruct (getThreadState_checks_bounds 3 3 p Hw Hs) as [Hout _].
    apply Hout. lia.
Defined.

(** *** What becomes of the tasks queued when [shutdown] is called *)
Section ShutdownDrains.
Import ThreadPool.

Lemma elem_of_insert_inv {A} (l : list A) (i : nat) (x y : A) :
  y ∈ <[i := x]> l -> y = x ∨ y ∈ l.
Proof.
  intros Hin. apply list_elem_of_lookup in Hin as [j Hj].
  apply list_lookup_insert_Some in Hj as [(_ & <- & _) | (_ & Hj)].
  - by left.
  - right. apply list_elem_of_lookup. eauto.
Qed.

Lemma elem_of_insert_keep {A} (l : list A) (i : nat) (x y z : A) :
  l !! i = Some z -> y ∈ l -> y ≠ z -> y ∈ <[i := x]> l.
Proof.
  intros Hi Hin Hne. apply list_elem_of_lookup in Hin as [j Hj].
  apply list_elem_of_lookup. exists j.
  rewrite list_lookup_insert_ne; [exact Hj |].
  intros ->. congruence.
Qed.

(** The worker in slot [id] moves on; the others keep what they hold. *)
Ltac others_keep :=
  eapply elem_of_insert_keep; [eassumption | assumption | congruence].

Ltac pending_goes_on H :=
  destruct H as [H | [H | [H | H]]];
  [ try (left; assumption)
  | try (right; left; others_keep)
  | try (right; right; left; others_keep)
  | try (right; right; right; first [assumption | apply elem_of_app; by left]) ].

Lemma workerThread_wait_pending t id w p :
  workers p !! id = Some w -> at_wait w ->
  pending t p -> pending t (workerThread_wait id p).
Proof.
  intros Hw Hat Hpend.
  assert (Hlt : (id < length (workers p))%nat) by (eapply lookup_lt_Some; eauto).
  assert (Hd : ∀ x, Dequeued x ≠ w) by (intros x <-; destruct Hat; discriminate).
  assert (He : ∀ x, Executing x ≠ w) by (intros x <-; destruct Hat; discriminate).
  pose proof (Hd (Some t)) as Hdt. pose proof (He t) as Het.
  unfold workerThread_wait, workerThread_after_wait.
  destruct (wait_pred p); [destruct (stop p && tasks_empty p) |].
  - unfold pending in *; simpl. pending_goes_on Hpend.
  - destruct (tasks p) as [| task rest] eqn:Hq;
      unfold pending in *; simpl; rewrite Hq in Hpend; pending_goes_on Hpend.
    + by apply elem_of_nil in Hpend.
    + apply elem_of_cons in Hpend as [-> | Hpend].
      * right; left. by apply list_elem_of_insert.
      * by left.
  - unfold pending in *; simpl. pending_goes_on Hpend.
Qed.

Lemma workerThread_step_pending t id p p' :
  workerThread_step id p = Some p' -> pending t p -> pending t p'.
Proof.
  unfold workerThread_step. intros Hstep Hpend.
  destruct (workers p !! id) as [w |] eqn:Hw; [| discriminate].
  assert (Hlt : (id < length (workers p))%nat) by (eapply lookup_lt_Some; eauto).
  destruct w as [| | [task |] | task |].
  - injection Hstep as <-.
    apply (workerThread_wait_pending t id LoopTop); [exact Hw | by left | exact Hpend].
  - destruct (decide (id ∈ condition p)); [discriminate |].
    injection Hstep as <-.
    apply (workerThread_wait_pending t id InWait); [exact Hw | by right | exact Hpend].
  - (* the task in hand is started *)
    injection Hstep as <-. unfold pending in *; simpl.
    destruct (decide (t = task)) as [-> | Hne].
    + right; right; left. by apply list_elem_of_insert.
    + pending_goes_on Hpend.
  - injection Hstep as <-. unfold pending in *; simpl. pending_goes_on Hpend.
  - (* the task in hand has run *)
    injection Hstep as <-. unfold pending in *; simpl.
    destruct (decide (t = task)) as [-> | Hne].
    + right; right; right. apply elem_of_app. right.
      by apply list_elem_of_singleton.
    + pending_goes_on Hpend.
  - discriminate.
Qed.

Lemma run_pending t schedule p : pending t p -> pending t (run schedule p).
Proof.
  revert p. induction schedule as [| id rest IH]; intros p Hpend; [exact Hpend |].
  simpl. apply IH.
  destruct (workerThread_step id p) as [p' |] eqn:Hstep; [| exact Hpend].
  exact (workerThread_step_pending t id p p' Hstep Hpend).
Qed.

Lemma workerThread_wait_consistent id w p :
  workers p !! id = Some w ->
  consistent p -> consistent (workerThread_wait id p).
Proof.
  intros Hw [Hsize Hret].
  unfold workerThread_wait, workerThread_after_wait, wait_pred.
  destruct (stop p || negb (tasks_empty p)) eqn:Hpred.
  - destruct (stop p && tasks_empty p) eqn:Hexit.
    + apply andb_true_iff in Hexit as [Hstop Hempty].
      split; simpl; [by rewrite !length_insert |].
      intros _. split; [exact Hstop |].
      unfold tasks_empty in Hempty. by destruct (tasks p).
    + destruct (tasks p) as [| task rest] eqn:Hq.
      * split; simpl; [by rewrite length_insert |].
        intros Hin. apply elem_of_insert_inv in Hin as [Hin | Hin]; [discriminate |].
        destruct (Hret Hin) as [Hs Hnil]. split; congruence.
      * split; simpl; [by rewrite length_insert |].
        intros Hin. apply elem_of_insert_inv in Hin as [Hin | Hin]; [discriminate |].
        destruct (Hret Hin) as [_ Hnil]. congruence.
  - split; simpl; [by rewrite length_insert |].
    intros Hin. apply elem_of_insert_inv in Hin as [Hin | Hin]; [discriminate |].
    by apply Hret.
Qed.

Lemma set_state_consistent id st p : consistent p -> consistent (set_state id st p).
Proof.
  intros [Hsize Hret]. split; simpl; [by rewrite length_insert | exact Hret].
Qed.

Lemma workerThread_step_consistent id p p' :
  workerThread_step id p = Some p' -> consistent p -> consistent p'.
Proof.
  unfold workerThread_step. intros Hstep Hcons.
  destruct (workers p !! id) as [w |] eqn:Hw; [| discriminate].
  destruct w as [| | [task |] | task |].
  - injection Hstep as <-.
    apply (workerThread_wait_consistent id LoopTop); [exact Hw |].
    by apply set_state_consistent.
  - destruct (decide (id ∈ condition p)); [discriminate |].
    injection Hstep as <-.
    by apply (workerThread_wait_consistent id InWait).
  - injection Hstep as <-. destruct Hcons as [Hsize Hret].
    split; simpl; [by rewrite !length_insert |].
    intros Hin. apply elem_of_insert_inv in Hin as [Hin | Hin]; [discriminate |].
    by apply Hret.
  - injection Hstep as <-. destruct Hcons as [Hsize Hret].
    split; simpl; [by rewrite !length_insert |].
    intros Hin. apply elem_of_insert_inv in Hin as [Hin | Hin]; [discriminate |].
    by apply Hret.
  - injection Hstep as <-. destruct Hcons as [Hsize Hret].
    split; simpl; [by rewrite !length_insert |].
    intros Hin. apply elem_of_insert_inv in Hin as [Hin | Hin]; [discriminate |].
    by apply Hret.
  - discriminate.
Qed.

Lemma run_consistent schedule p : consistent p -> consistent (run schedule p).
Proof.
  revert p. induction schedule as [| id rest IH]; intros p Hcons; [exact Hcons |].
  simpl. apply IH.
  destruct (workerThread_step id p) as [p' |] eqn:Hstep; [| exact Hcons].
  exact (workerThread_step_consistent id p p' Hstep Hcons).
Qed.

Lemma create_consistent numThreads : consistent (create numThreads).
Proof.
  split; simpl; [by rewrite !length_replicate |].
  intros Hin. apply elem_of_replicate in Hin as [Hin _]. discriminate.
Qed.

Lemma enqueue_consistent pick task p :
  consistent p -> consistent (enqueue pick task p).1.2.
Proof.
  intros Hcons. unfold enqueue.
  destruct (stop p) eqn:Hstop; [exact Hcons |].
  destruct (CondVar.notify_one pick _) as [woken ws]. simpl.
  destruct Hcons as [Hsize Hret].
  split; simpl; [exact Hsize |].
  intros Hin. destruct (Hret Hin) as [Hs _]. congruence.
Qed.

Lemma all_returned_spec p w :
  all_returned p = true -> w ∈ workers p -> w = Returned.
Proof.
  unfold all_returned. intros Hall Hin.
  rewrite forallb_forall in Hall. apply list_elem_of_In in Hin.
  specialize (Hall w Hin). by apply bool_decide_eq_true in Hall.
Qed.

Lemma workerThread_wait_workers_length id p :
  length (workers (workerThread_wait id p)) = length (workers p).
Proof.
  unfold workerThread_wait, workerThread_after_wait.
  destruct (wait_pred p); [| simpl; by rewrite length_insert].
  destruct (stop p && tasks_empty p); [simpl; by rewrite length_insert |].
  destruct (tasks p); simpl; by rewrite length_insert.
Qed.

Lemma workerThread_step_workers_length id p p' :
  workerThread_step id p = Some p' -> length (workers p') = length (workers p).
Proof.
  unfold workerThread_step. intros Hstep.
  destruct (workers p !! id) as [[| | [task |] | task |] |]; try discriminate.
  - injection Hstep as <-. by rewrite workerThread_wait_workers_length.
  - destruct (decide (id ∈ condition p)); [discriminate |].
    injection Hstep as <-. by rewrite workerThread_wait_workers_length.
  - injection Hstep as <-. simpl. by rewrite length_insert.
  - injection Hstep as <-. simpl. by rewrite length_insert.
  - injection Hstep as <-. simpl. by rewrite length_insert.
Qed.

Lemma run_workers_length schedule p :
  length (workers (run schedule p)) = length (workers p).
Proof.
  revert p. induction schedule as [| id rest IH]; intros p; [reflexivity |].
  simpl. rewrite IH.
  destruct (workerThread_step id p) as [p' |] eqn:Hstep; [| reflexivity].
  exact (workerThread_step_workers_length id p p' Hstep).
Qed.

(** Whatever the schedule, when a [shutdown] that found the pool running
    has joined the workers, every task that was in the queue at the call
    has been run, and the queue is empty. *)
Lemma shutdown_runs_the_queue (schedule : list nat) (p p' : ThreadPool) :
  consistent p ->
  workers p ≠ [] ->
  stop p = false ->
  shutdown schedule p = (Joined, p') ->
  tasks p' = [] ∧ ∀ t, t ∈ tasks p -> t ∈ executed p'.
Proof.
  intros Hcons Hne Hstop Hshut.
  unfold shutdown in Hshut. rewrite Hstop in Hshut. simpl in Hshut.
  set (p1 := with_condition [] (with_stop true p)) in Hshut.
  assert (Hcons1 : consistent p1).
  { destruct Hcons as [Hsize Hret]. split; simpl; [exact Hsize |].
    intros Hin. destruct (Hret Hin) as [Hs _]. congruence. }
  pose proof (run_consistent schedule p1 Hcons1) as [_ Hret2].
  destruct (all_returned (run schedule p1)) eqn:Hall; [| discriminate].
  injection Hshut as <-. simpl.
  assert (Hsome : ∃ w, w ∈ workers (run schedule p1)).
  { pose proof (run_workers_length schedule p1) as Hlen.
    destruct (workers (run schedule p1)) as [| w ws].
    - simpl in Hlen. destruct (workers p); [done | discriminate].
    - exists w. by left. }
  destruct Hsome as [w Hw].
  pose proof (all_returned_spec _ w Hall Hw) as ->.
  destruct (Hret2 Hw) as [_ Hnil].
  split; [exact Hnil |].
  intros t Hin.
  assert (Hpend : pending t p1) by (by left).
  apply (run_pending t schedule) in Hpend.
  destruct Hpend as [H | [H | [H | H]]].
  - rewrite Hnil in H. by apply elem_of_nil in H.
  - apply (all_returned_spec _ _ Hall) in H. discriminate.
  - apply (all_returned_spec _ _ Hall) in H. discriminate.
  - exact H.
Qed.

End ShutdownDrains.

(** C1 does not hold of the code: a task that is in the queue when
    [shutdown] is called is run.  One worker is busy with task 1 and
    task 2 is queued when [shutdown] is called; the worker finishes
    task 1, finds [stop] set but the queue non-empty, takes task 2 and
    runs it, and returns only on the next round.  No schedule does
    otherwise: whenever this [shutdown] has joined the worker, task 2 has
    been executed. *)
Theorem shutdown_runs_queued_task :
  let p0 := ThreadPool.create 1 in
  let p1 := (ThreadPool.enqueue 0 1%nat p0).1.2 in
  let p2 := (ThreadPool.enqueue 0 2%nat p1).1.2 in
  let p3 := ThreadPool.run [0; 0]%nat p2 in
  (ThreadPool.workers p3 = [ThreadPool.Executing 1%nat]
   ∧ ThreadPool.tasks p3 = [2%nat]
   ∧ ThreadPool.stop p3 = false
   ∧ ThreadPool.executed p3 = [])
  ∧ (let r := ThreadPool.shutdown [0; 0; 0; 0; 0]%nat p3 in
     r.1 = ThreadPool.Joined
     ∧ ThreadPool.executed r.2 = [1; 2]%nat
     ∧ ThreadPool.tasks r.2 = []
     ∧ ThreadPool.workers r.2 = [ThreadPool.Returned]
     ∧ ThreadPool.workerStates r.2 = [ThreadPool.TERMINATED])
  ∧ (∀ schedule p',
       ThreadPool.shutdown schedule p3 = (ThreadPool.Joined, p') ->
       2%nat ∈ ThreadPool.executed p').
Proof.
  intros p0 p1 p2 p3. split; [repeat split |]. split; [repeat split |].
  intros schedule p' Hshut.
  assert (Hcons : ThreadPool.consistent p3).
  { apply run_consistent, enqueue_consistent, enqueue_consistent,
      create_consistent. }
  destruct (shutdown_runs_the_queue schedule p3 p' Hcons) as [_ Hrun];
    [discriminate | reflexivity | exact Hshut |].
  apply Hrun. by apply list_elem_of_singleton.
Qed.

(** * Further properties of the code *)

(** ** SafeMutex: acquisition, release and the guard *)
Section SafeMutexMore.
Import SafeMutex.

Lemma wrap_int_up_down c :
  - 2 ^ 31 <= c < 2 ^ 31 -> wrap_int (wrap_int (c + 1) - 1) = c.
Proof.
  intros Hc. unfold wrap_int.
  destruct (decide (c = 2 ^ 31 - 1)) as [-> | Hne].
  - reflexivity.
  - rewrite (Z.mod_small (c + 1 + 2 ^ 31)) by lia.
    rewrite Z.mod_small; lia.
Qed.

(** X1: on a mutex nobody holds, [lock] (any timeout, whatever the other
    threads do) and [tryLock] succeed without waiting and make the caller
    the holder, [isLocked] then answers [true], and the matching [unlock]
    brings the mutex back to exactly the state it had before. *)
Theorem lock_unlock_round_trip
    (t : thread_id) (timeout : Z) (env : contention) (m : SafeMutex) :
  mtx m = None ->
  owner m = None ->
  - 2 ^ 31 <= lockCount m < 2 ^ 31 ->
  (ret (lock t timeout env m).1 = true
   ∧ waited (lock t timeout env m).1 = 0
   ∧ held_by t (lock t timeout env m).2
   ∧ isLocked (lock t timeout env m).2 = true
   ∧ unlock (lock t timeout env m).2 = m)
  ∧ (ret (tryLock t m).1 = true
     ∧ held_by t (tryLock t m).2
     ∧ isLocked (tryLock t m).2 = true
     ∧ unlock (tryLock t m).2 = m).
Proof.
  intros Hmtx Hown Hcnt.
  assert (Hback :
    {| mtx := None; name := name m; owner := None;
       lockCount := wrap_int (wrap_int (lockCount m + 1) - 1) |} = m).
  { rewrite wrap_int_up_down by exact Hcnt. destruct m; simpl in *. congruence. }
  split.
  - unfold lock, try_lock_for.
    destruct (decide (owner m = Some t)) as [Heq | _]; [congruence |].
    rewrite Hmtx. simpl. split_and!; try reflexivity.
    + by split.
    + exact Hback.
  - unfold tryLock, try_lock. rewrite Hmtx. simpl. split_and!; try reflexivity.
    + by split.
    + exact Hback.
Qed.

(** X2: an acquisition that returns [false] has not touched the mutex,
    whatever the reason (owner test, timeout, mutex held); one that
    returns [true] leaves the caller as the holder with the owner
    recorded.  [tryLock] never waits and never writes a diagnostic. *)
Theorem failed_acquisition_changes_nothing
    (t : thread_id) (timeout : Z) (env : contention) (m : SafeMutex) :
  (ret (lock t timeout env m).1 = false -> (lock t timeout env m).2 = m)
  ∧ (ret (lock t timeout env m).1 = true -> held_by t (lock t timeout env m).2)
  ∧ (ret (tryLock t m).1 = false -> (tryLock t m).2 = m)
  ∧ (ret (tryLock t m).1 = true -> held_by t (tryLock t m).2)
  ∧ waited (tryLock t m).1 = 0
  ∧ cerr (tryLock t m).1 = [].
Proof.
  split_and!.
  - unfold lock, try_lock_for.
    destruct (decide (owner m = Some t)); [reflexivity |].
    destruct (mtx m) as [h |]; [| simpl; discriminate].
    destruct env as [| ms]; [reflexivity |].
    destruct (decide _); simpl; [discriminate | reflexivity].
  - apply lock_success_held_by.
  - unfold tryLock, try_lock. destruct (mtx m); simpl; [reflexivity | discriminate].
  - apply tryLock_success_held_by.
  - unfold tryLock, try_lock. by destruct (mtx m).
  - unfold tryLock, try_lock. by destruct (mtx m).
Qed.

End SafeMutexMore.

Lemma lock_unlock_round_trip_witness :
  let m := SafeMutex.create "counter_mutex" in
  SafeMutex.unlock (SafeMutex.lock 3%nat 5000 SafeMutex.HeldThroughout m).2 = m
  ∧ SafeMutex.unlock (SafeMutex.tryLock 3%nat m).2 = m.
Proof.
  intros m.
  destruct (lock_unlock_round_trip 3%nat 5000 SafeMutex.HeldThroughout m)
    as [(_ & _ & _ & _ & Hl) (_ & _ & _ & Ht)];
    [reflexivity | reflexivity | by vm_compute |].
  by split.
Defined.

Lemma failed_acquisition_changes_nothing_witness :
  let m := (SafeMutex.tryLock 1%nat (SafeMutex.create "Resource_B")).2 in
  SafeMutex.ret (SafeMutex.lock 2%nat 2000 SafeMutex.HeldThroughout m).1 = false
  ∧ (SafeMutex.lock 2%nat 2000 SafeMutex.HeldThroughout m).2 = m
  ∧ SafeMutex.waited (SafeMutex.lock 2%nat 2000 SafeMutex.HeldThroughout m).1 = 2000.
Proof.
  intros m.
  destruct (failed_acquisition_changes_nothing 2%nat 2000 SafeMutex.HeldThroughout m)
    as (Hfail & _).
  split; [reflexivity |]. split; [apply Hfail; reflexivity | reflexivity].
Defined.

(** *** The protocol, statement by statement *)
Section SafeMutexStepFacts.
Import SafeMutex SafeMutexSteps.

Lemma lookup_insert_at {A} (l : list A) (t u : nat) (x y : A) :
  l !! t = Some y ->
  <[t := x]> l !! u = if decide (u = t) then Some x else l !! u.
Proof.
  intros Ht. destruct (decide (u = t)) as [-> | Hne].
  - apply list_lookup_insert_eq. eapply lookup_lt_Some; eauto.
  - apply list_lookup_insert_ne. congruence.
Qed.

(** The three statements of a won [lock] / [tryLock], and of [unlock]. *)
Lemma lock_in_steps t timeout env m :
  mtx m = None -> owner m ≠ Some t ->
  (lock t timeout env m).2 = count_up (store_owner t (try_lock t m).2).
Proof.
  intros Hmtx Hown. unfold lock, try_lock_for, try_lock.
  destruct (decide (owner m = Some t)); [done |]. by rewrite Hmtx.
Qed.

Lemma tryLock_in_steps t m :
  mtx m = None ->
  (tryLock t m).2 = count_up (store_owner t (try_lock t m).2).
Proof. intros Hmtx. unfold tryLock, try_lock. by rewrite Hmtx. Qed.

Lemma unlock_in_steps m : unlock m = release (count_down (clear_owner m)).
Proof. reflexivity. Qed.

Lemma steps_inv_init mutexName n : inv (init mutexName n).
Proof.
  unfold inv, init, create; simpl. split_and!.
  - intros t. split; [discriminate |].
    intros (p & Hp & Hne). apply lookup_replicate in Hp as [-> _]. done.
  - intros t. split; [discriminate |].
    intros [Hp | Hp]; apply lookup_replicate in Hp as [Hp _]; discriminate.
  - intros t [Hp | Hp]; apply lookup_replicate in Hp as [Hp _]; discriminate.
  - reflexivity.
Qed.

(** Two threads past a won acquisition are one and the same. *)
Lemma inv_exclusive s t u p q :
  inv s ->
  s.2 !! t = Some p -> p ≠ Out ->
  s.2 !! u = Some q -> q ≠ Out ->
  t = u.
Proof.
  intros (Hmtx & _) Ht Hp Hu Hq.
  assert (H1 : mtx s.1 = Some t) by (apply Hmtx; eauto).
  assert (H2 : mtx s.1 = Some u) by (apply Hmtx; eauto).
  congruence.
Qed.

Lemma lookup_insert_cases {A} (l : list A) (t u : nat) (x y : A) :
  l !! t = Some y ->
  (u = t ∧ <[t := x]> l !! u = Some x)
  ∨ (u ≠ t ∧ <[t := x]> l !! u = l !! u).
Proof.
  intros Ht. rewrite (lookup_insert_at l t u x y Ht).
  destruct (decide (u = t)); [by left | by right].
Qed.

(** Case analysis on whether [u] is the thread that moves. *)
Ltac mover u Hpc :=
  let Hu := fresh "Hu" in
  let Hne := fresh "Hne" in
  unfold thread_id in *;
  match goal with
  | |- context [<[?t := ?x]> ?l !! u] =>
      destruct (lookup_insert_cases l t u x _ Hpc) as [[-> Hu] | [Hne Hu]];
      rewrite Hu; clear Hu
  end.

Lemma steps_inv_acquire t m ps m' :
  inv (m, ps) ->
  ps !! t = Some Out ->
  try_lock t m = (true, m') ->
  inv (m', <[t := Acquired]> ps).
Proof.
  intros Hinv Hpc Htry.
  destruct Hinv as (Hmtx & Hown & Hone & Hzero); simpl in *.
  unfold try_lock in Htry.
  destruct (mtx m) as [h |] eqn:Hfree; [discriminate |].
  injection Htry as <-.
  assert (Hnone : ∀ u p, ps !! u = Some p -> p = Out).
  { intros u p Hu. destruct (decide (p = Out)) as [| Hne]; [done |].
    assert (None = Some u) by (apply Hmtx; eauto). discriminate. }
  unfold inv; simpl. unfold thread_id in *. split_and!.
  - intros u. mover u Hpc.
    + split; [intros _; eexists; split; [reflexivity | discriminate] | done].
    + split; [congruence |]. intros (p & Hu & Hp). by apply Hnone in Hu.
  - intros u. rewrite Hown. mover u Hpc; [| done].
    rewrite Hpc. split; intros [? | ?]; discriminate.
  - intros u. mover u Hpc; [intros [? | ?]; discriminate |].
    apply Hone.
  - intros Habs. apply Hzero. intros u. split; intros Hu; by apply Hnone in Hu.
Qed.

Lemma steps_inv_step s s' : inv s -> step s s' -> inv s'.
Proof.
  intros Hinv Hstep.
  destruct Hstep as
    [t m ps m' Hpc _ Htry | t m ps m' Hpc Htry | t m ps Hpc | t m ps Hpc
    | t m ps Hpc | t m ps Hpc | t m ps Hpc].
  - eapply steps_inv_acquire; eauto.
  - eapply steps_inv_acquire; eauto.
  - (* owner.store(thisThreadId) *)
    assert (Hexcl : ∀ u p, ps !! u = Some p -> p ≠ Out -> t = u).
    { intros u p Hu Hp.
      exact (inv_exclusive (m, ps) t u Acquired p Hinv Hpc ltac:(done) Hu Hp). }
    destruct Hinv as (Hmtx & Hown & Hone & Hzero); simpl in *.
    unfold inv; simpl. unfold thread_id in *. split_and!.
    + intros u. rewrite Hmtx. mover u Hpc; [| done].
      split; intros _; eexists; (split; [done | discriminate]).
    + intros u. mover u Hpc; [split; [by left | done] |].
      split; [congruence |].
      intros [Hu | Hu]; exfalso; apply Hne; symmetry;
        eapply Hexcl; eauto; discriminate.
    + intros u. mover u Hpc; [intros [? | ?]; discriminate |].
      apply Hone.
    + intros Habs. apply Hzero. intros u.
      destruct (decide (u = t)) as [-> | Hne].
      * rewrite Hpc. split; discriminate.
      * specialize (Habs u). by rewrite list_lookup_insert_ne in Habs.
  - (* lockCount++ *)
    assert (Hexcl : ∀ u p, ps !! u = Some p -> p ≠ Out -> t = u).
    { intros u p Hu Hp.
      exact (inv_exclusive (m, ps) t u OwnerStored p Hinv Hpc ltac:(done) Hu Hp). }
    destruct Hinv as (Hmtx & Hown & Hone & Hzero); simpl in *.
    assert (Hcnt : lockCount m = 0).
    { apply Hzero. intros u.
      split; intros Hu;
        assert (t = u) by (eapply Hexcl; eauto; discriminate); congruence. }
    unfold inv; simpl. unfold thread_id in *. split_and!.
    + intros u. rewrite Hmtx. mover u Hpc; [| done].
      split; intros _; eexists; (split; [done | discriminate]).
    + intros u. rewrite Hown. mover u Hpc; [| done].
      split; intros _; [by right | by left].
    + intros u _. rewrite Hcnt. reflexivity.
    + intros Habs. exfalso. destruct (Habs t) as [Habs' _]. apply Habs'.
      apply list_lookup_insert_eq. eapply lookup_lt_Some; eauto.
  - (* unlock: owner.store(std::thread::id()) *)
    assert (Hexcl : ∀ u p, ps !! u = Some p -> p ≠ Out -> t = u).
    { intros u p Hu Hp.
      exact (inv_exclusive (m, ps) t u Holding p Hinv Hpc ltac:(done) Hu Hp). }
    destruct Hinv as (Hmtx & Hown & Hone & Hzero); simpl in *.
    unfold inv; simpl. unfold thread_id in *. split_and!.
    + intros u. rewrite Hmtx. mover u Hpc; [| done].
      split; intros _; eexists; (split; [done | discriminate]).
    + intros u. mover u Hpc; [split; [discriminate | intros [? | ?]; discriminate] |].
      split; [discriminate |].
      intros [Hu | Hu]; exfalso; apply Hne; symmetry;
        eapply Hexcl; eauto; discriminate.
    + intros u _. apply (Hone t). by left.
    + intros Habs. exfalso. destruct (Habs t) as [_ Habs']. apply Habs'.
      apply list_lookup_insert_eq. eapply lookup_lt_Some; eauto.
  - (* unlock: lockCount-- *)
    assert (Hexcl : ∀ u p, ps !! u = Some p -> p ≠ Out -> t = u).
    { intros u p Hu Hp.
      exact (inv_exclusive (m, ps) t u OwnerCleared p Hinv Hpc ltac:(done) Hu Hp). }
    destruct Hinv as (Hmtx & Hown & Hone & Hzero); simpl in *.
    assert (Hcnt : lockCount m = 1) by (apply (Hone t); by right).
    unfold inv; simpl. unfold thread_id in *. split_and!.
    + intros u. rewrite Hmtx. mover u Hpc; [| done].
      split; intros _; eexists; (split; [done | discriminate]).
    + intros u. rewrite Hown. mover u Hpc; [| done].
      rewrite Hpc. split; intros [? | ?]; discriminate.
    + intros u. mover u Hpc; [intros [? | ?]; discriminate |].
      intros [Hu | Hu]; exfalso; apply Hne; symmetry;
        eapply Hexcl; eauto; discriminate.
    + intros _. rewrite Hcnt. reflexivity.
  - (* unlock: mtx.unlock() *)
    assert (Hexcl : ∀ u p, ps !! u = Some p -> p ≠ Out -> t = u).
    { intros u p Hu Hp.
      exact (inv_exclusive (m, ps) t u CountDropped p Hinv Hpc ltac:(done) Hu Hp). }
    destruct Hinv as (Hmtx & Hown & Hone & Hzero); simpl in *.
    unfold inv; simpl. unfold thread_id in *. split_and!.
    + intros u. mover u Hpc.
      * split; [discriminate | intros (p & Hp & Hp'); congruence].
      * split; [discriminate |].
        intros (p & Hu & Hp). exfalso. apply Hne. symmetry. eapply Hexcl; eauto.
    + intros u. rewrite Hown. mover u Hpc; [| done].
      rewrite Hpc. split; intros [? | ?]; discriminate.
    + intros u. mover u Hpc; [intros [? | ?]; discriminate |].
      apply Hone.
    + intros Habs. apply Hzero. intros u.
      destruct (decide (u = t)) as [-> | Hne].
      * rewrite Hpc. split; discriminate.
      * specialize (Habs u). by rewrite list_lookup_insert_ne in Habs.
Qed.

Lemma reachable_steps_inv mutexName n s : reachable mutexName n s -> inv s.
Proof.
  intros Hreach. induction Hreach as [| s s' _ IH Hstep].
  - apply steps_inv_init.
  - exact (steps_inv_step s s' IH Hstep).
Qed.

End SafeMutexStepFacts.

Section SafeMutexProtocol.
Import SafeMutex SafeMutexSteps.

(** X3: whatever the interleaving of the statements of [lock], [tryLock]
    and [unlock] (each [unlock] made by the holder), at most one thread
    is between a won acquisition and the end of its release; [owner]
    only ever names the thread that holds the underlying mutex, so a
    [true] from [isLocked] means the mutex is held; a thread whose
    acquisition has returned holds the mutex with the owner recorded; and
    [lockCount] is 0 or 1. *)
Theorem safe_mutex_protocol (mutexName : string) (n : nat)
    (m : SafeMutex) (ps : list pc) :
  reachable mutexName n (m, ps) ->
  (∀ t u p q, ps !! t = Some p -> p ≠ Out -> ps !! u = Some q -> q ≠ Out -> t = u)
  ∧ (∀ t, owner m = Some t -> mtx m = Some t)
  ∧ (isLocked m = true -> ∃ t, held_by t m)
  ∧ (∀ t, ps !! t = Some Holding -> held_by t m ∧ lockCount m = 1)
  ∧ (lockCount m = 0 ∨ lockCount m = 1).
Proof.
  intros Hreach. pose proof (reachable_steps_inv _ _ _ Hreach) as Hinv.
  assert (Hexcl : ∀ t u p q,
             ps !! t = Some p -> p ≠ Out -> ps !! u = Some q -> q ≠ Out -> t = u).
  { intros t u p q Ht Hp Hu Hq. exact (inv_exclusive (m, ps) t u p q Hinv Ht Hp Hu Hq). }
  destruct Hinv as (Hmtx & Hown & Hone & Hzero); simpl in *.
  unfold thread_id in *.
  assert (Howner : ∀ t, owner m = Some t -> mtx m = Some t).
  { intros t Ht. apply Hmtx. apply Hown in Ht as [Ht | Ht];
      eexists; (split; [exact Ht | discriminate]). }
  split_and!.
  - exact Hexcl.
  - exact Howner.
  - unfold isLocked. intros Hlocked. apply bool_decide_eq_true in Hlocked.
    remember (owner m) as o eqn:Ho. destruct o as [t |]; [| done].
    symmetry in Ho. exists t. split; [by apply Howner | exact Ho].
  - intros t Ht. split; [split |].
    + apply Hmtx. eexists; split; [exact Ht | discriminate].
    + apply Hown. by right.
    + apply (Hone t). by left.
  - destruct (mtx m) as [h |] eqn:Hh.
    + destruct (proj1 (Hmtx h) eq_refl) as (p & Hp & Hout).
      destruct (decide (p = Holding ∨ p = OwnerCleared)) as [Hin | Hnot].
      * right. apply (Hone h). destruct Hin as [-> | ->]; [by left | by right].
      * left. apply Hzero. intros u.
        split; intros Hu;
          assert (h = u) by (eapply Hexcl; eauto; discriminate);
          subst u; apply Hnot; [left | right]; congruence.
    + left. apply Hzero. intros u.
      split; intros Hu;
        (assert (None = Some u) as Habs
           by (apply Hmtx; eexists; split; [exact Hu | discriminate]));
        discriminate.
Qed.

End SafeMutexProtocol.

Lemma safe_mutex_protocol_witness :
  let m := (SafeMutex.tryLock 0%nat (SafeMutex.create "Resource_A")).2 in
  SafeMutexSteps.reachable "Resource_A" 2
    (m, [SafeMutexSteps.Holding; SafeMutexSteps.Out])
  ∧ SafeMutex.held_by 0%nat m
  ∧ SafeMutex.lockCount m = 1.
Proof.
  intros m.
  pose (m0 := SafeMutex.create "Resource_A").
  pose (m1 := SafeMutex.with_mtx m0 (Some 0%nat)).
  pose (m2 := SafeMutexSteps.store_owner 0%nat m1).
  pose (ps0 := replicate 2 SafeMutexSteps.Out).
  assert (Hreach : SafeMutexSteps.reachable "Resource_A" 2
                     (m, [SafeMutexSteps.Holding; SafeMutexSteps.Out])).
  { apply (SafeMutexSteps.reachable_step _ _
             (m2, [SafeMutexSteps.OwnerStored; SafeMutexSteps.Out])).
    - apply (SafeMutexSteps.reachable_step _ _
               (m1, [SafeMutexSteps.Acquired; SafeMutexSteps.Out])).
      + apply (SafeMutexSteps.reachable_step _ _ (m0, ps0)).
        * apply SafeMutexSteps.reachable_init.
        * exact (SafeMutexSteps.step_tryLock 0%nat m0 ps0 m1 eq_refl eq_refl).
      + exact (SafeMutexSteps.step_store_owner 0%nat m1
                 [SafeMutexSteps.Acquired; SafeMutexSteps.Out] eq_refl).
    - exact (SafeMutexSteps.step_count_up 0%nat m2
               [SafeMutexSteps.OwnerStored; SafeMutexSteps.Out] eq_refl). }
  split; [exact Hreach |].
  destruct (safe_mutex_protocol _ _ _ _ Hreach) as (_ & _ & _ & Hhold & _).
  exact (Hhold 0%nat eq_refl).
Defined.

(** ** SafeLockGuard *)
Section SafeLockGuardFacts.
Import SafeMutex SafeLockGuard.

Lemma failed_lock_state t env m :
  ret (lock t 5000 env m).1 = false -> (lock t 5000 env m).2 = m.
Proof.
  unfold lock, try_lock_for.
  destruct (decide (owner m = Some t)); [reflexivity |].
  destruct (mtx m) as [h |]; [| simpl; discriminate].
  destruct env as [| ms]; [reflexivity |].
  destruct (decide _); simpl; [discriminate | reflexivity].
Qed.

(** X4: a guarded block entered on a mutex nobody holds runs its body
    with the caller as holder and, when it is left, the mutex is exactly
    as it was before the block. *)
Theorem guard_round_trip {A} (t : thread_id) (env : contention)
    (body : A -> A) (m : SafeMutex) (data : A) :
  mtx m = None ->
  owner m = None ->
  - 2 ^ 31 <= lockCount m < 2 ^ 31 ->
  (∃ m', create t env m = (Constructed {| locked := true |}, m')
         ∧ held_by t m'
         ∧ destroy {| locked := true |} m' = m)
  ∧ scoped t env body m data = (None, m, body data).
Proof.
  intros Hmtx Hown Hcnt.
  assert (Hlock : lock t 5000 env m
                  = ({| ret := true; waited := 0; cerr := [] |},
                     record_owner t (with_mtx m (Some t)))).
  { unfold lock, try_lock_for.
    destruct (decide (owner m = Some t)); [congruence |]. by rewrite Hmtx. }
  assert (Hback : unlock (record_owner t (with_mtx m (Some t))) = m).
  { unfold unlock, record_owner, with_mtx; simpl.
    rewrite wrap_int_up_down by exact Hcnt. destruct m; simpl in *. congruence. }
  split.
  - eexists. unfold create. rewrite Hlock. simpl.
    split; [reflexivity |]. split; [by split | exact Hback].
  - unfold scoped, create. rewrite Hlock. simpl. unfold destroy. simpl.
    by rewrite Hback.
Qed.

(** X5: when the constructor of the guard throws, the mutex is untouched,
    the message names the mutex, and the guarded body has not run.  It
    throws, at once, when the calling thread already holds the mutex (a
    guard nested inside a guard on the same mutex), and after the default
    5000 ms when another thread holds it throughout. *)
Theorem guard_failure_leaves_the_mutex {A} (t : thread_id) (env : contention)
    (body : A -> A) (m : SafeMutex) (data : A) :
  (∀ what m', create t env m = (Thrown what, m') ->
     m' = m
     ∧ what = String.append "Failed to acquire lock on mutex: " (name m)
     ∧ scoped t env body m data = (Some what, m, data))
  ∧ (held_by t m ->
     create t env m
     = (Thrown (String.append "Failed to acquire lock on mutex: " (name m)), m)
     ∧ waited (lock t 5000 env m).1 = 0)
  ∧ (∀ h, mtx m = Some h -> h ≠ t -> owner m ≠ Some t ->
     env = HeldThroughout ->
     create t env m
     = (Thrown (String.append "Failed to acquire lock on mutex: " (name m)), m)
     ∧ waited (lock t 5000 env m).1 = 5000).
Proof.
  split_and!.
  - intros what m' Hcreate.
    pose proof (failed_lock_state t env m) as Hfail.
    unfold scoped. rewrite Hcreate.
    unfold create in Hcreate.
    destruct (lock t 5000 env m) as [o m1] eqn:Hlock. simpl in Hfail.
    destruct (ret o); [discriminate |].
    injection Hcreate as <- <-.
    specialize (Hfail eq_refl). subst m1. done.
  - intros [Hmtx Hown]. unfold create, lock.
    destruct (decide (owner m = Some t)); [done | contradiction].
  - intros h Hmtx Hne Hown ->. unfold create, lock, try_lock_for.
    destruct (decide (owner m = Some t)); [contradiction |].
    rewrite Hmtx. done.
Qed.

End SafeLockGuardFacts.

Lemma guard_round_trip_witness :
  let m := SafeMutex.create "buffer_mutex" in
  SafeLockGuard.scoped 4%nat SafeMutex.HeldThroughout (λ counter, counter + 1) m 41
  = (None, m, 42).
Proof.
  intros m.
  destruct (guard_round_trip 4%nat SafeMutex.HeldThroughout
              (λ counter, counter + 1) m 41) as [_ Hscoped];
    [reflexivity | reflexivity | by vm_compute |].
  exact Hscoped.
Defined.

Lemma guard_failure_leaves_the_mutex_witness :
  let m := (SafeMutex.tryLock 4%nat (SafeMutex.create "buffer_mutex")).2 in
  SafeMutex.held_by 4%nat m
  ∧ SafeLockGuard.scoped 4%nat SafeMutex.HeldThroughout (λ counter, counter + 1) m 41
    = (Some "Failed to acquire lock on mutex: buffer_mutex", m, 41).
Proof.
  intros m.
  assert (Hheld : SafeMutex.held_by 4%nat m) by (by split).
  destruct (guard_failure_leaves_the_mutex 4%nat SafeMutex.HeldThroughout
              (λ counter, counter + 1) m 41) as (Hthrown & Hnested & _).
  destruct (Hnested Hheld) as [Hcreate _].
  destruct (Hthrown _ _ Hcreate) as (_ & _ & Hscoped).
  split; [exact Hheld | exact Hscoped].
Defined.

(** ** Semaphore: the deadline of [timedWait] for any timeout *)
Section SemaphoreMore.
Import Semaphore.

(** X6: for a timeout of either sign the deadline [timedWait] computes is
    still the clock reading plus the timeout, but [tv_nsec] is only kept
    inside (-1000000000, 1000000000): it is negative, an invalid
    [timespec], exactly when the clock's nanoseconds plus the (negative)
    millisecond remainder of the timeout fall below zero. *)
Theorem timedWait_deadline_any_sign (now : timespec) (timeout : Z) :
  - 2 ^ 63 < timeout < 2 ^ 63 ->
  0 <= tv_nsec now < 1000000000 ->
  - 2 ^ 62 <= tv_sec now < 2 ^ 62 ->
  let ts := timedWait_deadline now timeout in
  tv_sec ts * 1000000000 + tv_nsec ts
  = (tv_sec now * 1000000000 + tv_nsec now) + timeout * 1000000
  ∧ - 1000000000 < tv_nsec ts < 1000000000
  ∧ (tv_nsec ts < 0 <-> tv_nsec now + Z.rem timeout 1000 * 1000000 < 0).
Proof.
  intros Ht Hns Hs ts. subst ts. unfold timedWait_deadline.
  pose proof (Z.quot_rem' timeout 1000) as Hqr.
  pose proof (Z.rem_bound_abs timeout 1000 ltac:(lia)) as Hr.
  set (r := Z.rem timeout 1000) in *. set (q := Z.quot timeout 1000) in *.
  rewrite (wrap_long_small (r * 1000000)) by lia.
  set (nsec := tv_nsec now + r * 1000000).
  assert (Hn : - 1000000000 < nsec < 2000000000) by (subst nsec; lia).
  rewrite (wrap_long_small nsec) by lia.
  pose proof (Z.quot_rem' nsec 1000000000) as Hqr2.
  pose proof (Z.rem_bound_abs nsec 1000000000 ltac:(lia)) as Hr2.
  assert (Hsign : (0 <= nsec -> 0 <= Z.rem nsec 1000000000)
                  ∧ (nsec <= 0 -> Z.rem nsec 1000000000 <= 0)).
  { split; intros H0; [apply Z.rem_nonneg | apply Z.rem_nonpos]; lia. }
  set (r2 := Z.rem nsec 1000000000) in *.
  set (q2 := Z.quot nsec 1000000000) in *.
  assert (Hq2 : 0 <= q2 <= 1) by lia.
  rewrite (wrap_long_small (q + q2)) by lia.
  rewrite wrap_long_small by lia.
  cbn [tv_sec tv_nsec].
  split; [lia |]. split; [lia |]. lia.
Qed.

End SemaphoreMore.

Lemma timedWait_deadline_any_sign_witness :
  let now := {| Semaphore.tv_sec := 1700000000; Semaphore.tv_nsec := 5 |} in
  Semaphore.timedWait_deadline now (-1)
  = {| Semaphore.tv_sec := 1700000000; Semaphore.tv_nsec := -999995 |}
  ∧ Semaphore.tv_sec (Semaphore.timedWait_deadline now (-1)) * 1000000000
    + Semaphore.tv_nsec (Semaphore.timedWait_deadline now (-1))
    = (1700000000 * 1000000000 + 5) + -1 * 1000000.
Proof.
  intros now. split; [reflexivity |].
  destruct (timedWait_deadline_any_sign now (-1)) as (Hsum & _ & _);
    [subst now; cbn [Semaphore.tv_sec Semaphore.tv_nsec];
     first [lia | by vm_compute] .. |].
  exact Hsum.
Defined.

(** ** Condition variables: what a notification leaves behind *)

Lemma notify_one_rest pick (ws : CondVar.wait_set) :
  NoDup ws ->
  NoDup (CondVar.notify_one pick ws).2
  ∧ ∀ u, u ∈ (CondVar.notify_one pick ws).2 -> u ∈ ws.
Proof.
  intros Hnd. destruct ws as [| t0 ws]; [split; [constructor | done] |].
  unfold CondVar.notify_one. cbn [snd].
  set (l := t0 :: ws) in *. set (i := (pick `mod` length l)%nat).
  rewrite <- (take_drop i l) in Hnd.
  apply NoDup_app in Hnd as (Hn1 & Hdisj & Hn2).
  split.
  - apply NoDup_app. split_and!.
    + exact Hn1.
    + intros x Hx Hx'. apply (Hdisj x Hx).
      apply (subseteq_drop 1 (drop i l)). by rewrite drop_drop, Nat.add_1_r.
    + replace (S i) with (i + 1)%nat by lia. rewrite <- drop_drop.
      exact (sublist_NoDup _ _ Hn2 (sublist_drop (drop i l) 1)).
  - intros u Hu. apply elem_of_app in Hu as [Hu | Hu].
    + by apply (subseteq_take i l).
    + by apply (subseteq_drop (S i) l).
Qed.

Lemma notify_one_split pick (ws : CondVar.wait_set) :
  NoDup ws -> ws ≠ [] ->
  ∃ t, (CondVar.notify_one pick ws).1 = [t]
       ∧ t ∈ ws
       ∧ t ∉ (CondVar.notify_one pick ws).2.
Proof.
  intros Hnd Hne. destruct ws as [| t0 ws]; [done |].
  unfold CondVar.notify_one. cbn [fst snd].
  set (l := t0 :: ws) in *. set (i := (pick `mod` length l)%nat).
  assert (Hi : (i < length l)%nat).
  { subst i. apply Nat.mod_upper_bound. simpl. lia. }
  destruct (lookup_lt_is_Some_2 l i Hi) as [t Ht].
  exists t. split_and!.
  - rewrite (drop_S l t i Ht). reflexivity.
  - apply list_elem_of_lookup. eauto.
  - rewrite <- (take_drop_middle l i t Ht) in Hnd.
    apply NoDup_app in Hnd as (_ & Hdisj & Hn2).
    apply NoDup_cons in Hn2 as [Hnotin _].
    intros Hin. apply elem_of_app in Hin as [Hin | Hin].
    + apply (Hdisj t Hin). by left.
    + by apply Hnotin.
Qed.

(** ** RWLock: counters, wait sets and wake-ups *)
Section RWLockLedgerFacts.
Import RWLock RWLockLedger.

Lemma lookup_insert_other {A} (l : list A) (t u : nat) (x y z : A) :
  l !! t = Some y -> l !! u = Some z -> z ≠ y -> <[t := x]> l !! u = Some z.
Proof.
  intros Ht Hu Hne. rewrite list_lookup_insert_ne; [exact Hu |].
  intros ->. congruence.
Qed.

Lemma count_eq_pos {A} `{EqDecision A} (p : A) (l : list A) (t : nat) :
  l !! t = Some p -> 0 < count_eq p l.
Proof.
  revert t. induction l as [| x l IH]; intros t Ht; [done |].
  rewrite count_eq_cons. pose proof (count_eq_bounds p l) as Hb.
  destruct t as [| t]; simpl in Ht.
  - injection Ht as ->. destruct (decide (p = p)); [lia | done].
  - specialize (IH t Ht). destruct (decide (x = p)); lia.
Qed.

Lemma full_inv_init n : full_inv n (init n).
Proof.
  unfold full_inv, init, create; simpl.
  rewrite length_replicate, !count_eq_replicate by discriminate.
  split_and!; try done; try constructor.
  all: intros t Ht; by apply elem_of_nil in Ht.
Qed.

(** A thread that calls [readLock] is, with the mutex held and before the
    loop test, a thread awake inside [readLock]. *)
Lemma full_inv_enter_read n l ps t :
  full_inv n (l, ps) ->
  ps !! t = Some Idle ->
  full_inv n (l, <[t := InReadLock]> ps) ∧ t ∉ readCV l.
Proof.
  intros (Hlen & Hr & Hw & Hww & Hw1 & Hex & Hnr & Hnw & Hrcv & Hwcv & Hrs & Hws) Hpc.
  simpl in *. split.
  - unfold full_inv; simpl.
    rewrite length_insert, !(count_eq_insert _ t Idle _ ps Hpc); simpl.
    split_and!; try done; try lia.
    + intros u Hu. eapply lookup_insert_other; eauto; discriminate.
    + intros u Hu. eapply lookup_insert_other; eauto; discriminate.
    + intros Hne. destruct (Hws Hne) as [H | [H | (u & Hu & Hnot)]];
        [by left | by right; left |].
      right; right. exists u. split; [| exact Hnot].
      eapply lookup_insert_other; eauto; discriminate.
  - intros Hin. apply Hrcv in Hin. congruence.
Qed.

Lemma full_inv_enter_write n l ps t :
  Z.of_nat n < 2 ^ 31 ->
  full_inv n (l, ps) ->
  ps !! t = Some Idle ->
  full_inv n (writeLock_enter l, <[t := InWriteLock]> ps) ∧ t ∉ writeCV l.
Proof.
  intros Hn (Hlen & Hr & Hw & Hww & Hw1 & Hex & Hnr & Hnw & Hrcv & Hwcv & Hrs & Hws) Hpc.
  simpl in *.
  assert (Hnot : t ∉ writeCV l) by (intros Hin; apply Hwcv in Hin; congruence).
  split; [| exact Hnot].
  unfold full_inv, writeLock_enter; simpl.
  pose proof (count_eq_bounds InWriteLock (<[t := InWriteLock]> ps)) as Hb.
  rewrite length_insert, (count_eq_insert _ t Idle _ ps Hpc) in Hb. simpl in Hb.
  rewrite length_insert, !(count_eq_insert _ t Idle _ ps Hpc); simpl.
  rewrite wrap_int_small by lia.
  split_and!; try done; try lia.
  - intros u Hu. eapply lookup_insert_other; eauto; discriminate.
  - intros u Hu. eapply lookup_insert_other; eauto; discriminate.
  - intros _. right. pose proof (count_eq_bounds InWriteLock ps). lia.
  - intros _. right; right. exists t. split; [| exact Hnot].
    apply list_lookup_insert_eq. eapply lookup_lt_Some; eauto.
Qed.

Lemma full_inv_read_again n l ps t r l' :
  Z.of_nat n < 2 ^ 31 ->
  full_inv n (l, ps) ->
  ps !! t = Some InReadLock ->
  t ∉ readCV l ->
  readLock_attempt t l = (r, l') ->
  full_inv n (l', <[t := after_read r]> ps).
Proof.
  intros Hn (Hlen & Hr & Hw & Hww & Hw1 & Hex & Hnr & Hnw & Hrcv & Hwcv & Hrs & Hws)
    Hpc Hawake Hat.
  simpl in *. unfold thread_id in *. unfold readLock_attempt in Hat.
  destruct ((0 <? writers l) || (0 <? waitingWriters l)) eqn:Hg;
    injection Hat as <- <-; cbn [after_read after_write].
  - (* the caller goes to sleep *)
    rewrite (list_insert_id ps t InReadLock Hpc). unfold full_inv; simpl.
    apply orb_true_iff in Hg. rewrite !Z.ltb_lt in Hg.
    split_and!; try done.
    + apply NoDup_app. split_and!; [done | | apply NoDup_singleton].
      intros u Hu Hu'. apply list_elem_of_singleton in Hu'. by subst u.
    + intros u Hu. apply elem_of_app in Hu as [Hu | Hu]; [by apply Hrcv |].
      apply list_elem_of_singleton in Hu. by subst u.
  - (* the caller becomes a reader *)
    unfold full_inv; simpl.
    apply orb_false_iff in Hg as [Hg1 Hg2]. apply Z.ltb_ge in Hg1, Hg2.
    pose proof (count_eq_bounds Reading (<[t := Reading]> ps)) as Hb.
    rewrite length_insert, (count_eq_insert _ t InReadLock _ ps Hpc) in Hb.
    simpl in Hb.
    rewrite length_insert, !(count_eq_insert _ t InReadLock _ ps Hpc); simpl.
    rewrite wrap_int_small by lia.
    split_and!; try done; try lia.
    + intros u Hu. rewrite list_lookup_insert_ne; [by apply Hrcv | congruence].
    + intros u Hu. eapply lookup_insert_other; eauto; discriminate.
    + intros _. left. pose proof (count_eq_bounds Reading ps). lia.
Qed.

Lemma full_inv_write_again n l ps t r l' :
  Z.of_nat n < 2 ^ 31 ->
  full_inv n (l, ps) ->
  ps !! t = Some InWriteLock ->
  t ∉ writeCV l ->
  writeLock_attempt t l = (r, l') ->
  full_inv n (l', <[t := after_write r]> ps).
Proof.
  intros Hn (Hlen & Hr & Hw & Hww & Hw1 & Hex & Hnr & Hnw & Hrcv & Hwcv & Hrs & Hws)
    Hpc Hawake Hat.
  simpl in *. unfold thread_id in *. unfold writeLock_attempt in Hat.
  destruct ((0 <? readers l) || (0 <? writers l)) eqn:Hg;
    injection Hat as <- <-; cbn [after_read after_write].
  - (* the caller goes to sleep *)
    rewrite (list_insert_id ps t InWriteLock Hpc). unfold full_inv; simpl.
    apply orb_true_iff in Hg. rewrite !Z.ltb_lt in Hg.
    split_and!; try done.
    + apply NoDup_app. split_and!; [done | | apply NoDup_singleton].
      intros u Hu Hu'. apply list_elem_of_singleton in Hu'. by subst u.
    + intros u Hu. apply elem_of_app in Hu as [Hu | Hu]; [by apply Hwcv |].
      apply list_elem_of_singleton in Hu. by subst u.
    + intros _. destruct Hg as [Hg | Hg]; [by left | by right; left].
  - (* the caller becomes the writer *)
    unfold full_inv; simpl.
    apply orb_false_iff in Hg as [Hg1 Hg2]. apply Z.ltb_ge in Hg1, Hg2.
    pose proof (count_eq_bounds Reading ps) as Hb1.
    pose proof (count_eq_bounds Writing ps) as Hb2.
    pose proof (count_eq_bounds InWriteLock ps) as Hb3.
    pose proof (count_eq_pos InWriteLock ps t Hpc) as Hpos.
    rewrite length_insert, !(count_eq_insert _ t InWriteLock _ ps Hpc); simpl.
    rewrite !wrap_int_small by lia.
    split_and!; try done; try lia.
    + intros u Hu. eapply lookup_insert_other; eauto; discriminate.
    + intros u Hu. rewrite list_lookup_insert_ne; [by apply Hwcv | congruence].
Qed.

(** What [notify_one] on the writers' condition variable leaves: the wait
    set is still duplicate-free and holds writers, and if a writer is
    still asleep then the one just woken is awake inside [writeLock]. *)
Lemma full_inv_notify_writer pick (ws : CondVar.wait_set) (ps ps' : list pc) :
  NoDup ws ->
  (∀ t : nat, t ∈ ws -> ps !! t = Some InWriteLock) ->
  (∀ t : nat, ps !! t = Some InWriteLock -> ps' !! t = Some InWriteLock) ->
  NoDup (CondVar.notify_one pick ws).2
  ∧ (∀ t : nat, t ∈ (CondVar.notify_one pick ws).2 -> ps' !! t = Some InWriteLock)
  ∧ ((CondVar.notify_one pick ws).2 ≠ [] ->
     ∃ t : nat, ps' !! t = Some InWriteLock ∧ t ∉ (CondVar.notify_one pick ws).2).
Proof.
  intros Hnd Hws Hkeep.
  destruct (notify_one_rest pick ws Hnd) as [Hnd' Hsub].
  split_and!.
  - exact Hnd'.
  - intros t Ht. apply Hkeep, Hws, Hsub, Ht.
  - intros Hne.
    assert (Hne' : ws ≠ []).
    { intros ->. apply Hne. reflexivity. }
    destruct (notify_one_split pick ws Hnd Hne') as (t & _ & Hin & Hnot).
    exists t. split; [apply Hkeep, Hws, Hin | exact Hnot].
Qed.

Lemma full_inv_readUnlock n pick l ps t :
  Z.of_nat n < 2 ^ 31 ->
  full_inv n (l, ps) ->
  ps !! t = Some Reading ->
  full_inv n ((readUnlock pick l).2, <[t := Idle]> ps).
Proof.
  intros Hn (Hlen & Hr & Hw & Hww & Hw1 & Hex & Hnr & Hnw & Hrcv & Hwcv & Hrs & Hws) Hpc.
  simpl in *.
  pose proof (count_eq_pos Reading ps t Hpc) as Hpos.
  pose proof (count_eq_bounds Reading ps) as Hb1.
  pose proof (count_eq_bounds Writing ps) as Hb2.
  assert (Hsmall : wrap_int (readers l - 1) = readers l - 1)
    by (apply wrap_int_small; lia).
  assert (Hkeep : ∀ u : nat, ps !! u = Some InWriteLock ->
                             <[t := Idle]> ps !! u = Some InWriteLock).
  { intros u Hu. eapply lookup_insert_other; eauto; discriminate. }
  unfold readUnlock. rewrite Hsmall.
  destruct (readers l - 1 =? 0) eqn:Hlast.
  - destruct (full_inv_notify_writer pick (writeCV l) ps (<[t := Idle]> ps)
                Hnw Hwcv Hkeep) as (Hnd' & Hmem' & Hwit').
    destruct (CondVar.notify_one pick (writeCV l)) as [woken ws]. simpl in *.
    unfold full_inv; simpl.
    rewrite length_insert, !(count_eq_insert _ t Reading _ ps Hpc); simpl.
    split_and!; try done; try lia.
    all: try (intros u Hu; eapply lookup_insert_other; eauto; discriminate).
    all: try (intros Hne; right; right; by apply Hwit').
  - apply Z.eqb_neq in Hlast. unfold full_inv; simpl.
    rewrite length_insert, !(count_eq_insert _ t Reading _ ps Hpc); simpl.
    split_and!; try done; try lia.
    all: try (intros u Hu; eapply lookup_insert_other; eauto; discriminate).
    all: try (intros u Hu; by apply Hkeep, Hwcv).
    all: try (intros _; left; lia).
Qed.

Lemma full_inv_writeUnlock n pick l ps t :
  Z.of_nat n < 2 ^ 31 ->
  full_inv n (l, ps) ->
  ps !! t = Some Writing ->
  full_inv n ((writeUnlock pick l).2, <[t := Idle]> ps).
Proof.
  intros Hn (Hlen & Hr & Hw & Hww & Hw1 & Hex & Hnr & Hnw & Hrcv & Hwcv & Hrs & Hws) Hpc.
  simpl in *.
  pose proof (count_eq_pos Writing ps t Hpc) as Hpos.
  pose proof (count_eq_bounds Reading ps) as Hb1.
  pose proof (count_eq_bounds InWriteLock ps) as Hb3.
  assert (Hsmall : wrap_int (writers l - 1) = writers l - 1)
    by (apply wrap_int_small; lia).
  assert (Hkeep : ∀ u : nat, ps !! u = Some InWriteLock ->
                             <[t := Idle]> ps !! u = Some InWriteLock).
  { intros u Hu. eapply lookup_insert_other; eauto; discriminate. }
  unfold writeUnlock. rewrite Hsmall.
  destruct (0 <? waitingWriters l) eqn:Hwaiting.
  - apply Z.ltb_lt in Hwaiting.
    destruct (full_inv_notify_writer pick (writeCV l) ps (<[t := Idle]> ps)
                Hnw Hwcv Hkeep) as (Hnd' & Hmem' & Hwit').
    destruct (CondVar.notify_one pick (writeCV l)) as [woken ws]. simpl in *.
    unfold full_inv; simpl.
    rewrite length_insert, !(count_eq_insert _ t Writing _ ps Hpc); simpl.
    split_and!; try done; try lia.
    all: try (intros u Hu; eapply lookup_insert_other; eauto; discriminate).
    all: try (intros _; right; lia).
    all: try (intros Hne; right; right; by apply Hwit').
  - apply Z.ltb_ge in Hwaiting. unfold full_inv; simpl.
    rewrite length_insert, !(count_eq_insert _ t Writing _ ps Hpc); simpl.
    split_and!; try done; try lia.
    all: try (by constructor).
    all: try (intros u Hu; by apply elem_of_nil in Hu).
    all: try (intros u Hu; by apply Hkeep, Hwcv).
    intros Hne. exfalso.
    destruct (writeCV l) as [| u ws] eqn:Hq; [done |].
    assert (Hu : ps !! u = Some InWriteLock) by (apply Hwcv; by left).
    pose proof (count_eq_pos InWriteLock ps u Hu). lia.
Qed.

Lemma full_inv_step n s s' :
  Z.of_nat n < 2 ^ 31 -> full_inv n s -> step s s' -> full_inv n s'.
Proof.
  intros Hn Hinv Hstep.
  destruct Hstep as
    [t l ps r l' Hpc Hat | t l ps r l' Hpc Hawake Hat | t pick l ps Hpc
    | t l ps r l' Hpc Hat | t l ps r l' Hpc Hawake Hat | t pick l ps Hpc
    | t l ps Hin | t l ps Hin]; unfold thread_id in *.
  - destruct (full_inv_enter_read n l ps t Hinv Hpc) as [Hinv' Hawake].
    rewrite <- (list_insert_insert_eq ps t (after_read r) InReadLock).
    apply (full_inv_read_again n l _ t r l' Hn Hinv'); [| exact Hawake | exact Hat].
    apply list_lookup_insert_eq. eapply lookup_lt_Some; eauto.
  - by apply (full_inv_read_again n l ps t r l').
  - by apply full_inv_readUnlock.
  - destruct (full_inv_enter_write n l ps t Hn Hinv Hpc) as [Hinv' Hawake].
    rewrite <- (list_insert_insert_eq ps t (after_write r) InWriteLock).
    apply (full_inv_write_again n (writeLock_enter l) _ t r l' Hn Hinv');
      [| exact Hawake | exact Hat].
    apply list_lookup_insert_eq. eapply lookup_lt_Some; eauto.
  - by apply (full_inv_write_again n l ps t r l').
  - by apply full_inv_writeUnlock.
  - (* a sleeping reader wakes unprompted *)
    destruct Hinv as
      (Hlen & Hr & Hw & Hww & Hw1 & Hex & Hnr & Hnw & Hrcv & Hwcv & Hrs & Hws).
    simpl in *. unfold full_inv, with_readCV, CondVar.wake_up; simpl.
    split_and!; try done.
    + by apply NoDup_filter.
    + intros u Hu. apply list_elem_of_filter in Hu as [_ Hu]. by apply Hrcv.
    + intros Hne. apply Hrs. intros Hnil. apply Hne. by rewrite Hnil.
  - (* a sleeping writer wakes unprompted *)
    destruct Hinv as
      (Hlen & Hr & Hw & Hww & Hw1 & Hex & Hnr & Hnw & Hrcv & Hwcv & Hrs & Hws).
    simpl in *. unfold full_inv, with_writeCV, CondVar.wake_up; simpl.
    split_and!; try done.
    + by apply NoDup_filter.
    + intros u Hu. apply list_elem_of_filter in Hu as [_ Hu]. by apply Hwcv.
    + intros _. right; right. exists t. split; [by apply Hwcv |].
      intros Hu. apply list_elem_of_filter in Hu as [Hu _]. done.
Qed.

Lemma reachable_full_inv n s :
  Z.of_nat n < 2 ^ 31 -> reachable n s -> full_inv n s.
Proof.
  intros Hn Hreach. induction Hreach as [| s s' _ IH Hstep].
  - apply full_inv_init.
  - exact (full_inv_step n s s' Hn IH Hstep).
Qed.

End RWLockLedgerFacts.

Section RWLockLedgerTheorems.
Import RWLock RWLockLedger.

(** X7: in every state fewer than 2^31 client threads can bring the lock
    to, [readers] is the number of threads holding a read lock, [writers]
    the number holding the write lock and [waitingWriters] the number of
    threads inside [writeLock]; none of the three is ever negative or
    exceeds the number of threads. *)
Theorem rwlock_counters_count_threads (n : nat) (l : RWLock) (ps : list pc) :
  Z.of_nat n < 2 ^ 31 ->
  reachable n (l, ps) ->
  readers l = count_eq Reading ps
  ∧ writers l = count_eq Writing ps
  ∧ waitingWriters l = count_eq InWriteLock ps
  ∧ 0 <= readers l <= Z.of_nat n
  ∧ 0 <= writers l <= Z.of_nat n
  ∧ 0 <= waitingWriters l <= Z.of_nat n.
Proof.
  intros Hn Hreach.
  destruct (reachable_full_inv n (l, ps) Hn Hreach)
    as (Hlen & Hr & Hw & Hww & _); simpl in *.
  pose proof (count_eq_bounds Reading ps).
  pose proof (count_eq_bounds Writing ps).
  pose proof (count_eq_bounds InWriteLock ps).
  split_and!; try done; lia.
Qed.

(** X8: no wake-up is lost.  In every reachable state a thread asleep on
    the readers' condition variable is inside [readLock] and a writer is
    active or waiting; a thread asleep on the writers' condition variable
    is inside [writeLock] and either the lock is held (by readers or by a
    writer) or some other writer is awake inside [writeLock], about to
    take the lock. *)
Theorem rwlock_no_lost_wakeup (n : nat) (l : RWLock) (ps : list pc) :
  Z.of_nat n < 2 ^ 31 ->
  reachable n (l, ps) ->
  (∀ t : nat, t ∈ readCV l ->
     ps !! t = Some InReadLock ∧ (0 < writers l ∨ 0 < waitingWriters l))
  ∧ (∀ t : nat, t ∈ writeCV l ->
       ps !! t = Some InWriteLock
       ∧ (0 < readers l ∨ 0 < writers l
          ∨ ∃ u : nat, ps !! u = Some InWriteLock ∧ u ∉ writeCV l)).
Proof.
  intros Hn Hreach.
  destruct (reachable_full_inv n (l, ps) Hn Hreach)
    as (_ & _ & _ & _ & _ & _ & _ & _ & Hrcv & Hwcv & Hrs & Hws); simpl in *.
  split.
  - intros t Ht. split; [by apply Hrcv |].
    apply Hrs. intros Hnil. rewrite Hnil in Ht. by apply elem_of_nil in Ht.
  - intros t Ht. split; [by apply Hwcv |].
    apply Hws. intros Hnil. rewrite Hnil in Ht. by apply elem_of_nil in Ht.
Qed.

End RWLockLedgerTheorems.

Lemma rwlock_counters_count_threads_witness :
  let l1 := (RWLock.writeLock_attempt 0%nat (RWLock.writeLock_enter RWLock.create)).2 in
  let l2 := (RWLock.readLock_attempt 1%nat l1).2 in
  RWLock.reachable 2 (l2, [RWLock.Writing; RWLock.InReadLock])
  ∧ RWLock.readers l2 = 0
  ∧ RWLock.writers l2 = 1
  ∧ RWLock.waitingWriters l2 = 0.
Proof.
  intros l1 l2.
  assert (Hreach : RWLock.reachable 2 (l2, [RWLock.Writing; RWLock.InReadLock])).
  { apply (RWLock.reachable_step 2 (l1, [RWLock.Writing; RWLock.Idle])).
    - apply (RWLock.reachable_step 2 (RWLock.init 2)).
      + apply RWLock.reachable_init.
      + exact (RWLock.step_writeLock 0%nat RWLock.create
                 [RWLock.Idle; RWLock.Idle] RWLock.Acquired l1 eq_refl eq_refl).
    - exact (RWLock.step_readLock 1%nat l1 [RWLock.Writing; RWLock.Idle]
               RWLock.Sleeping l2 eq_refl eq_refl). }
  split; [exact Hreach |].
  assert (Hn : Z.of_nat 2 < 2 ^ 31) by reflexivity.
  destruct (rwlock_counters_count_threads 2 _ _ Hn Hreach) as (Hr & Hw & Hww & _).
  rewrite Hr, Hw, Hww. repeat split.
Defined.

Lemma rwlock_no_lost_wakeup_witness :
  let l1 := (RWLock.writeLock_attempt 0%nat (RWLock.writeLock_enter RWLock.create)).2 in
  let l2 := (RWLock.readLock_attempt 1%nat l1).2 in
  RWLock.reachable 2 (l2, [RWLock.Writing; RWLock.InReadLock])
  ∧ RWLock.readCV l2 = [1%nat]
  ∧ (0 < RWLock.writers l2 ∨ 0 < RWLock.waitingWriters l2).
Proof.
  intros l1 l2.
  assert (Hreach : RWLock.reachable 2 (l2, [RWLock.Writing; RWLock.InReadLock])).
  { apply (RWLock.reachable_step 2 (l1, [RWLock.Writing; RWLock.Idle])).
    - apply (RWLock.reachable_step 2 (RWLock.init 2)).
      + apply RWLock.reachable_init.
      + exact (RWLock.step_writeLock 0%nat RWLock.create
                 [RWLock.Idle; RWLock.Idle] RWLock.Acquired l1 eq_refl eq_refl).
    - exact (RWLock.step_readLock 1%nat l1 [RWLock.Writing; RWLock.Idle]
               RWLock.Sleeping l2 eq_refl eq_refl). }
  split; [exact Hreach |]. split; [reflexivity |].
  assert (Hn : Z.of_nat 2 < 2 ^ 31) by reflexivity.
  destruct (rwlock_no_lost_wakeup 2 _ _ Hn Hreach) as [Hreaders _].
  apply (Hreaders 1%nat). by left.
Defined.

(** ** Barrier: bounds, degenerate party sizes and whole phases *)
Section BarrierMore.
Import Barrier.

Lemma count_below_threshold_step P k s s' :
  Z.of_nat k + 1 < 2 ^ 64 ->
  barrier_inv P k s ->
  count s.1 < P ->
  step s s' ->
  count s'.1 < P.
Proof.
  intros Hk (Hth & Hgen & Hcnt & _) Hlt Hstep.
  destruct Hstep as
    [t b ps a b' Hpc Harr | t g b ps a b' Hpc Hawake Hre | t b ps Hin | b ps Hnone];
    simpl in *.
  - unfold wait_arrive in Harr.
    rewrite (wrap_size_t_small (count b + 1)) in Harr by lia.
    destruct (count b + 1 =? threshold b) eqn:Htrip.
    + simpl in Harr. injection Harr as <- <-. simpl. lia.
    + apply Z.eqb_neq in Htrip. unfold wait_recheck in Harr. simpl in Harr.
      rewrite Z.eqb_refl in Harr. simpl in Harr.
      injection Harr as <- <-. simpl. lia.
  - unfold wait_recheck in Hre.
    destruct (g =? generation b); simpl in Hre; injection Hre as <- <-; simpl; lia.
  - lia.
  - lia.
Qed.

(** X9: for a party size [P >= 1] the arrival count stays below [P] in
    every state reached from a fresh barrier: fewer than [P] threads are
    ever parked in the current generation. *)
Theorem barrier_count_below_party (P : Z) (n k : nat) (b : Barrier) (ps : list pc) :
  1 <= P ->
  Z.of_nat k < 2 ^ 64 ->
  reach P n k (b, ps) ->
  threshold b = P
  ∧ 0 <= count b < P
  ∧ count_eq (Waiting (generation b)) ps = count b.
Proof.
  intros HP Hk Hreach.
  assert (Hlt : count b < P).
  { remember (b, ps) as s eqn:Hs.
    replace b with s.1 by (by rewrite Hs). clear Hs b ps.
    induction Hreach as [| k s s' Hreach IH Hstep]; [simpl; lia |].
    apply (count_below_threshold_step P k s s'); [lia | | apply IH; lia | exact Hstep].
    apply (reach_barrier_inv P n k s); [lia | exact Hreach]. }
  destruct (reach_barrier_inv P n k (b, ps) Hk Hreach)
    as (Hth & _ & Hcnt & Hcount & _); simpl in *.
  split_and!; [done | lia | lia | done].
Qed.

Lemma generation_zero_step k s s' :
  Z.of_nat k + 1 < 2 ^ 64 ->
  barrier_inv 0 k s ->
  generation s.1 = 0 ->
  step s s' ->
  generation s'.1 = 0.
Proof.
  intros Hk (Hth & Hgen & Hcnt & _) Hzero Hstep.
  destruct Hstep as
    [t b ps a b' Hpc Harr | t g b ps a b' Hpc Hawake Hre | t b ps Hin | b ps Hnone];
    simpl in *; try done.
  - unfold wait_arrive in Harr.
    rewrite (wrap_size_t_small (count b + 1)) in Harr by lia.
    rewrite Hth in Harr.
    destruct (count b + 1 =? 0) eqn:Htrip; [apply Z.eqb_eq in Htrip; lia |].
    unfold wait_recheck in Harr. simpl in Harr.
    rewrite Z.eqb_refl in Harr. simpl in Harr. by injection Harr as <- <-.
  - unfold wait_recheck in Hre.
    destruct (g =? generation b); simpl in Hre; by injection Hre as <- <-.
Qed.

(** X10: a barrier constructed for 0 threads never lets anyone through.
    In every state reached from it the generation is still 0, a thread
    that calls [wait] parks, and a parked thread stays parked whatever
    step is taken. *)
Theorem barrier_of_zero_blocks (n k : nat) (b : Barrier) (ps : list pc) :
  Z.of_nat k + 1 < 2 ^ 64 ->
  reach 0 n k (b, ps) ->
  generation b = 0
  ∧ (∀ t, (wait_arrive t b).1 = Parked 0)
  ∧ (∀ t g b' ps',
       step (b, ps) (b', ps') ->
       ps !! t = Some (Waiting g) ->
       ps' !! t = Some (Waiting g)).
Proof.
  intros Hk Hreach.
  assert (Hzero : generation b = 0).
  { remember (b, ps) as s eqn:Hs.
    replace b with s.1 by (by rewrite Hs). clear Hs b ps.
    induction Hreach as [| k s s' Hreach IH Hstep]; [reflexivity |].
    apply (generation_zero_step k s s'); [lia | | apply IH; lia | exact Hstep].
    apply (reach_barrier_inv 0 n k s); [lia | exact Hreach]. }
  destruct (reach_barrier_inv 0 n k (b, ps) ltac:(lia) Hreach)
    as (Hth & Hgen & Hcnt & Hcount & Hwait); simpl in *.
  split_and!.
  - exact Hzero.
  - intros t. unfold wait_arrive.
    rewrite (wrap_size_t_small (count b + 1)) by lia. rewrite Hth.
    destruct (count b + 1 =? 0) eqn:Htrip; [apply Z.eqb_eq in Htrip; lia |].
    unfold wait_recheck. simpl. rewrite Z.eqb_refl. simpl. by rewrite Hzero.
  - intros t g b' ps' Hstep Hpc.
    specialize (Hwait t g Hpc).
    inversion Hstep as
      [t0 b0 ps0 a b0' Hpc0 Harr | t0 g0 b0 ps0 a b0' Hpc0 Hawake Hre
      | t0 b0 ps0 Hin | b0 ps0 Hnone]; subst; unfold thread_id in *.
    + rewrite list_lookup_insert_ne; [exact Hpc | congruence].
    + destruct (decide (t0 = t)) as [-> | Hne].
      * assert (g0 = g) by congruence. subst g0.
        unfold wait_recheck in Hre.
        assert (Hg : (g =? generation b) = true) by (apply Z.eqb_eq; lia).
        rewrite Hg in Hre. simpl in Hre. injection Hre as <- <-. simpl.
        apply list_lookup_insert_eq. eapply lookup_lt_Some; eauto.
      * by rewrite list_lookup_insert_ne.
    + exact Hpc.
    + exact Hpc.
Qed.

Lemma arrive_seq_app j k t b :
  arrive_seq (j + k) t b
  = let '(r1, b1) := arrive_seq j t b in
    let '(r2, b2) := arrive_seq k (t + j)%nat b1 in
    (r1 ++ r2, b2).
Proof.
  revert t b. induction j as [| j IH]; intros t b.
  - simpl. rewrite Nat.add_0_r. by destruct (arrive_seq k t b).
  - simpl. destruct (wait_arrive t b) as [a b1].
    rewrite IH. destruct (arrive_seq j (S t) b1) as [r1 b2].
    replace (Nat.add (S t) j) with (Nat.add t (S j)) by lia.
    by destruct (arrive_seq k (Nat.add t (S j)) b2).
Qed.

Lemma arrive_seq_parks (P : Z) (j : nat) (t : thread_id) (b : Barrier) :
  threshold b = P ->
  0 <= count b ->
  count b + Z.of_nat j < P ->
  P < 2 ^ 64 ->
  arrive_seq j t b
  = (replicate j (Parked (generation b)),
     {| threshold := P; count := count b + Z.of_nat j;
        generation := generation b; cv := cv b ++ seq t j |}).
Proof.
  revert t b. induction j as [| j IH]; intros t b Hth Hc Hlt HP.
  - simpl. rewrite Z.add_0_r, app_nil_r. destruct b; simpl in *. by subst.
  - simpl. unfold wait_arrive.
    rewrite (wrap_size_t_small (count b + 1)) by lia.
    destruct (count b + 1 =? threshold b) eqn:Htrip;
      [apply Z.eqb_eq in Htrip; lia |].
    unfold wait_recheck. simpl. rewrite Z.eqb_refl. simpl.
    rewrite IH by (simpl; first [done | lia]). simpl.
    unfold CondVar.block. rewrite <- app_assoc. simpl.
    do 2 f_equal. lia.
Qed.

(** X11: a whole phase.  On a barrier of party size [P >= 1] with no
    arrival pending, [P] arrivals in a row park the first [P - 1] callers
    in the current generation and let the last one through, waking every
    sleeper; the barrier is then as freshly built but for the generation,
    which is one higher: it is ready for the next phase. *)
Theorem barrier_whole_phase (m : nat) (t : thread_id) (b : Barrier) :
  threshold b = Z.of_nat (S m) ->
  count b = 0 ->
  0 <= generation b < 2 ^ 64 - 1 ->
  Z.of_nat (S m) < 2 ^ 64 ->
  arrive_seq (S m) t b
  = (replicate m (Parked (generation b)) ++ [Passed (cv b ++ seq t m)],
     {| threshold := Z.of_nat (S m); count := 0;
        generation := generation b + 1; cv := [] |}).
Proof.
  intros Hth Hc Hg HP.
  replace (S m) with (m + 1)%nat at 1 by lia.
  rewrite arrive_seq_app.
  rewrite (arrive_seq_parks (Z.of_nat (S m)) m t b) by lia.
  simpl arrive_seq. unfold wait_arrive. simpl.
  rewrite Hc. rewrite (wrap_size_t_small (0 + Z.of_nat m + 1)) by lia.
  assert (Htrip : (0 + Z.of_nat m + 1 =? Z.of_nat (S m)) = true)
    by (apply Z.eqb_eq; lia).
  rewrite Htrip. simpl.
  rewrite wrap_size_t_small by lia. reflexivity.
Qed.

End BarrierMore.

Lemma three_of_four_parked :
  Barrier.reach 4 4 3
    ({| Barrier.threshold := 4; Barrier.count := 3;
        Barrier.generation := 0; Barrier.cv := [0; 1; 2]%nat |},
     [Barrier.Waiting 0; Barrier.Waiting 0; Barrier.Waiting 0; Barrier.Outside]).
Proof.
  pose (b1 := {| Barrier.threshold := 4; Barrier.count := 1;
                 Barrier.generation := 0; Barrier.cv := [0]%nat |}).
  pose (b2 := {| Barrier.threshold := 4; Barrier.count := 2;
                 Barrier.generation := 0; Barrier.cv := [0; 1]%nat |}).
  pose (ps0 := replicate 4 Barrier.Outside).
  pose (ps1 := <[0%nat := Barrier.Waiting 0]> ps0).
  pose (ps2 := <[1%nat := Barrier.Waiting 0]> ps1).
  apply (Barrier.reach_step 4 4 2 (b2, ps2)).
  - apply (Barrier.reach_step 4 4 1 (b1, ps1)).
    + apply (Barrier.reach_step 4 4 0 (Barrier.create 4, ps0)).
      * apply Barrier.reach_init.
      * exact (Barrier.step_arrive 0%nat (Barrier.create 4) ps0
                 (Barrier.Parked 0) b1 eq_refl eq_refl).
    + exact (Barrier.step_arrive 1%nat b1 ps1 (Barrier.Parked 0) b2
               eq_refl eq_refl).
  - exact (Barrier.step_arrive 2%nat b2 ps2 (Barrier.Parked 0) _
             eq_refl eq_refl).
Qed.

Lemma barrier_count_below_party_witness :
  let b := {| Barrier.threshold := 4; Barrier.count := 3;
              Barrier.generation := 0; Barrier.cv := [0; 1; 2]%nat |} in
  0 <= Barrier.count b < 4.
Proof.
  intros b.
  assert (HP : 1 <= 4) by lia.
  assert (Hk : Z.of_nat 3 < 2 ^ 64) by reflexivity.
  destruct (barrier_count_below_party 4 4 3 b _ HP Hk three_of_four_parked)
    as (_ & Hcount & _).
  exact Hcount.
Defined.

Lemma barrier_of_zero_blocks_witness :
  let b := (Barrier.wait_arrive 0%nat (Barrier.create 0)).2 in
  Barrier.reach 0 1 1 (b, [Barrier.Waiting 0])
  ∧ Barrier.generation b = 0
  ∧ (Barrier.wait_arrive 0%nat b).1 = Barrier.Parked 0.
Proof.
  intros b.
  assert (Hreach : Barrier.reach 0 1 1 (b, [Barrier.Waiting 0])).
  { apply (Barrier.reach_step 0 1 0 (Barrier.create 0, [Barrier.Outside])).
    - apply Barrier.reach_init.
    - exact (Barrier.step_arrive 0%nat (Barrier.create 0) [Barrier.Outside]
               (Barrier.Parked 0) b eq_refl eq_refl). }
  assert (Hk : Z.of_nat 1 + 1 < 2 ^ 64) by reflexivity.
  destruct (barrier_of_zero_blocks 1 1 b _ Hk Hreach) as (Hgen & Hpark & _).
  split; [exact Hreach |]. split; [exact Hgen | apply Hpark].
Defined.

Lemma barrier_whole_phase_witness :
  Barrier.arrive_seq 4 0%nat (Barrier.create 4)
  = ([Barrier.Parked 0; Barrier.Parked 0; Barrier.Parked 0;
      Barrier.Passed [0; 1; 2]%nat],
     {| Barrier.threshold := 4; Barrier.count := 0;
        Barrier.generation := 1; Barrier.cv := [] |}).
Proof.
  rewrite (barrier_whole_phase 3 0%nat (Barrier.create 4));
    [reflexivity | reflexivity | reflexivity | by vm_compute | reflexivity].
Defined.

Lemma notify_one_rest_from pick (ws : CondVar.wait_set) (t : thread_id) :
  t ∈ (CondVar.notify_one pick ws).2 -> t ∈ ws.
Proof.
  destruct ws as [| t0 ws]; [done |].
  unfold CondVar.notify_one. cbn [snd]. intros Hin.
  apply elem_of_app in Hin as [Hin | Hin].
  - by apply (subseteq_take _ _) in Hin.
  - by apply (subseteq_drop _ _) in Hin.
Qed.

(** ** ConditionVariable *)
Section ConditionVariableFacts.
Import ConditionVariable.

Lemma apply_op_ready o c : keeps_flag o -> ready (apply_op o c) = ready c.
Proof.
  intros Hkeep. destruct o as [t | t | pick | | r]; simpl.
  - unfold wait_attempt. by destruct (ready c) eqn:Hr.
  - reflexivity.
  - unfold notify. by destruct (CondVar.notify_one pick (cv c)).
  - reflexivity.
  - exfalso. by apply (Hkeep r).
Qed.

Lemma apply_op_sleepers o c t :
  ready c = true -> t ∈ cv (apply_op o c) -> t ∈ cv c.
Proof.
  intros Hready. destruct o as [u | u | pick | | r]; simpl.
  - unfold wait_attempt. by rewrite Hready.
  - unfold CondVar.wake_up. intros Hin.
    by apply list_elem_of_filter in Hin as [_ Hin].
  - unfold notify. intros Hin.
    apply (notify_one_rest_from pick (cv c) t).
    by destruct (CondVar.notify_one pick (cv c)).
  - intros Hin. by apply elem_of_nil in Hin.
  - done.
Qed.

(** X12: the flag is the whole condition, and only [setReady] changes it.
    Along any calls other than [setReady] the flag keeps its value.
    While it is [true] nobody goes to sleep: every call of [wait] returns
    at once, also when the flag was set and signalled before the call.
    While it is [false] every call of [wait] parks and a [waitFor] whose
    timeout expires reports [false], however many notifications were
    sent. *)
Theorem condition_is_the_flag (ops : list op) (c : ConditionVariable) :
  Forall keeps_flag ops ->
  ready (run_ops ops c) = ready c
  ∧ (ready c = true ->
     (∀ t, t ∈ cv (run_ops ops c) -> t ∈ cv c)
     ∧ ∀ t, wait_attempt t (run_ops ops c) = (true, run_ops ops c))
  ∧ (ready c = false ->
     ∀ t, (wait_attempt t (run_ops ops c)).1 = false
          ∧ t ∈ cv (wait_attempt t (run_ops ops c)).2
          ∧ (waitFor_expire t (run_ops ops c)).1 = false).
Proof.
  intros Hkeep.
  assert (Hready : ready (run_ops ops c) = ready c).
  { revert c. induction Hkeep as [| o ops Ho _ IH]; intros c; [reflexivity |].
    simpl. rewrite IH. by apply apply_op_ready. }
  split_and!.
  - exact Hready.
  - intros Htrue. split.
    + clear Hready. revert c Htrue.
      induction Hkeep as [| o ops Ho _ IH]; intros c Htrue t Hin; [exact Hin |].
      simpl in Hin. apply (apply_op_sleepers o c t Htrue).
      apply IH; [| exact Hin]. rewrite apply_op_ready; done.
    + intros t. unfold wait_attempt. by rewrite Hready, Htrue.
  - intros Hfalse t. unfold wait_attempt, waitFor_expire.
    rewrite Hready, Hfalse. simpl. split_and!; [done | | done].
    unfold CondVar.block. apply elem_of_app. right. by apply list_elem_of_singleton.
Qed.

End ConditionVariableFacts.

Lemma condition_is_the_flag_witness :
  let c := ConditionVariable.setReady true
             (ConditionVariable.wait_attempt 1%nat ConditionVariable.create).2 in
  let ops := [ConditionVariable.OpNotify 0; ConditionVariable.OpWait 2%nat;
              ConditionVariable.OpNotifyAll] in
  ConditionVariable.cv c = [1%nat]
  ∧ ConditionVariable.ready (ConditionVariable.run_ops ops c) = true
  ∧ ConditionVariable.cv (ConditionVariable.run_ops ops c) = [].
Proof.
  intros c ops.
  assert (Hkeep : Forall ConditionVariable.keeps_flag ops).
  { repeat constructor; intros r; discriminate. }
  destruct (condition_is_the_flag ops c Hkeep) as (Hready & _ & _).
  split; [reflexivity |]. split; [by rewrite Hready | reflexivity].
Defined.

(** ** SpinLock *)
Section SpinLockFacts.
Import SpinLock.

Lemma spin_inv_init n : spin_inv (init n).
Proof.
  unfold spin_inv, init, create; simpl. split.
  - split; [discriminate |].
    intros (t & Ht). apply lookup_replicate in Ht as [Ht _]. discriminate.
  - intros t u Ht. apply lookup_replicate in Ht as [Ht _]. discriminate.
Qed.

(** A [test_and_set] by a thread that does not hold the lock. *)
Lemma spin_inv_test_and_set s ps t p (after : bool -> pc) :
  after true = Holding -> after false ≠ Holding ->
  spin_inv (s, ps) ->
  ps !! t = Some p -> p ≠ Holding ->
  spin_inv ({| flag := true |}, <[t := after (negb (flag s))]> ps).
Proof.
  intros Hwon Hlost [Hflag Hone] Hpc Hp. simpl in *.
  unfold spin_inv; simpl.
  destruct (flag s) eqn:Hset; simpl.
  - (* the flag was set: the caller does not get the lock *)
    destruct (proj1 Hflag eq_refl) as (h & Hh).
    assert (Hne : h ≠ t) by (intros ->; congruence).
    split.
    + split; [intros _ | done]. exists h. by rewrite list_lookup_insert_ne.
    + intros u v Hu Hv.
      destruct (lookup_insert_cases ps t u (after false) p Hpc) as [[-> Hu'] | [_ Hu']];
        rewrite Hu' in Hu; [congruence |].
      destruct (lookup_insert_cases ps t v (after false) p Hpc) as [[-> Hv'] | [_ Hv']];
        rewrite Hv' in Hv; [congruence |].
      by apply Hone.
  - (* the flag was clear: the caller gets the lock *)
    assert (Hnone : ∀ u : nat, ps !! u ≠ Some Holding).
    { intros u Hu. assert (false = true) by (apply Hflag; eauto). discriminate. }
    rewrite Hwon. split.
    + split; [intros _ | done]. exists t.
      apply list_lookup_insert_eq. eapply lookup_lt_Some; eauto.
    + intros u v Hu Hv.
      destruct (lookup_insert_cases ps t u Holding p Hpc) as [[-> Hu'] | [_ Hu']];
        rewrite Hu' in Hu;
        destruct (lookup_insert_cases ps t v Holding p Hpc) as [[-> Hv'] | [_ Hv']];
        rewrite Hv' in Hv; try done; by destruct (Hnone _ ltac:(eassumption)).
Qed.

Lemma spin_inv_step s s' : spin_inv s -> step s s' -> spin_inv s'.
Proof.
  intros Hinv Hstep.
  destruct Hstep as [t s ps got s' Hpc Hturn | t s ps got s' Hpc Htry | t s ps Hpc];
    unfold thread_id in *.
  - unfold lock_turn, test_and_set in Hturn. injection Hturn as <- <-.
    destruct Hpc as [Hpc | Hpc];
      eapply (spin_inv_test_and_set s ps t _ after_turn); eauto; discriminate.
  - unfold tryLock, test_and_set in Htry. injection Htry as <- <-.
    eapply (spin_inv_test_and_set s ps t _ after_try); eauto; discriminate.
  - destruct Hinv as [Hflag Hone]. simpl in *. unfold spin_inv, unlock; simpl.
    assert (Hnone : ∀ u : nat, <[t := Out]> ps !! u ≠ Some Holding).
    { intros u Hu.
      destruct (lookup_insert_cases ps t u Out Holding Hpc) as [[-> Hu'] | [Hne Hu']];
        rewrite Hu' in Hu; [discriminate |].
      apply Hne. by apply Hone. }
    split.
    + split; [discriminate |]. intros (u & Hu). by destruct (Hnone u).
    + intros u v Hu. by destruct (Hnone u).
Qed.

Lemma lock_spins_while_set fuel s : flag s = true -> lock fuel s = None.
Proof.
  revert s. induction fuel as [| fuel IH]; intros s Hset; [reflexivity |].
  simpl. unfold lock_turn, test_and_set. rewrite Hset. simpl. by apply IH.
Qed.

(** X13: the spin lock excludes.  In every state its users can reach
    (each [unlock] made by the holder) at most one thread holds the lock
    and the flag is set exactly when some thread does.  While it is held,
    [tryLock] fails and changes nothing, and [lock] does not return
    however many turns of its loop it is given. *)
Theorem spinlock_excludes (n : nat) (s : SpinLock) (ps : list pc) :
  reachable n (s, ps) ->
  (∀ t u : nat, ps !! t = Some Holding -> ps !! u = Some Holding -> t = u)
  ∧ (flag s = true ↔ ∃ t : nat, ps !! t = Some Holding)
  ∧ ((∃ t : nat, ps !! t = Some Holding) ->
     tryLock s = (false, s) ∧ ∀ fuel, lock fuel s = None).
Proof.
  intros Hreach.
  assert (Hinv : spin_inv (s, ps)).
  { remember (s, ps) as st eqn:Hst. clear Hst.
    induction Hreach as [| st st' _ IH Hstep]; [apply spin_inv_init |].
    exact (spin_inv_step st st' IH Hstep). }
  destruct Hinv as [Hflag Hone]. simpl in *.
  split_and!; [exact Hone | exact Hflag |].
  intros Hheld. apply Hflag in Hheld. split.
  - unfold tryLock, test_and_set. rewrite Hheld. simpl.
    destruct s as [f]. simpl in *. by subst f.
  - intros fuel. by apply lock_spins_while_set.
Qed.

End SpinLockFacts.

Lemma spinlock_excludes_witness :
  let s := (SpinLock.tryLock SpinLock.create).2 in
  SpinLock.reachable 2 (s, [SpinLock.Holding; SpinLock.Out])
  ∧ SpinLock.tryLock s = (false, s)
  ∧ SpinLock.lock 1000 s = None
  ∧ SpinLock.lock 1 (SpinLock.unlock s) = Some s.
Proof.
  intros s.
  assert (Hreach : SpinLock.reachable 2 (s, [SpinLock.Holding; SpinLock.Out])).
  { apply (SpinLock.reachable_step 2 (SpinLock.init 2)).
    - apply SpinLock.reachable_init.
    - exact (SpinLock.step_tryLock 0%nat SpinLock.create
               [SpinLock.Out; SpinLock.Out] true s eq_refl eq_refl). }
  destruct (spinlock_excludes 2 _ _ Hreach) as (_ & _ & Hheld).
  destruct Hheld as [Htry Hlock]; [by exists 0%nat |].
  split; [exact Hreach |]. split; [exact Htry |].
  split; [apply Hlock | reflexivity].
Defined.

(** ** ThreadPool: whole runs *)
Section PoolRunFacts.
Import ThreadPool PoolRun.

Lemma Forall2_insert_l {A B} (P : A -> B -> Prop) (l : list A) (k : list B)
    (i : nat) (x : A) (y : B) :
  Forall2 P l k -> k !! i = Some y -> P x y -> Forall2 P (<[i := x]> l) k.
Proof.
  intros Hall Hk Hxy. rewrite <- (list_insert_id k i y Hk).
  by apply Forall2_insert.
Qed.

Lemma in_hand_same (l : list worker_pc) (i : nat) (w w' : worker_pc) :
  l !! i = Some w -> held w = held w' ->
  omap held (<[i := w']> l) = omap held l.
Proof.
  revert i. induction l as [| x l IH]; intros i Hi Hheld; [done |].
  destruct i as [| i]; csimpl in *.
  - injection Hi as ->. by rewrite Hheld.
  - by rewrite (IH i Hi Hheld).
Qed.

Lemma in_hand_take (l : list worker_pc) (i : nat) (w w' : worker_pc) (t : Task) :
  l !! i = Some w -> held w = None -> held w' = Some t ->
  omap held (<[i := w']> l) ≡ₚ t :: omap held l.
Proof.
  revert i. induction l as [| x l IH]; intros i Hi Hnone Hsome; [done |].
  destruct i as [| i]; csimpl in *.
  - injection Hi as ->. by rewrite Hnone, Hsome.
  - specialize (IH i Hi Hnone Hsome).
    destruct (held x) as [u |]; [| exact IH].
    rewrite IH. apply Permutation_swap.
Qed.

Lemma in_hand_give (l : list worker_pc) (i : nat) (w w' : worker_pc) (t : Task) :
  l !! i = Some w -> held w = Some t -> held w' = None ->
  omap held l ≡ₚ t :: omap held (<[i := w']> l).
Proof.
  revert i. induction l as [| x l IH]; intros i Hi Hsome Hnone; [done |].
  destruct i as [| i]; csimpl in *.
  - injection Hi as ->. by rewrite Hnone, Hsome.
  - specialize (IH i Hi Hsome Hnone).
    destruct (held x) as [u |]; [| exact IH].
    rewrite IH. apply Permutation_swap.
Qed.

Lemma run_ops_app ops1 ops2 p :
  run_ops (ops1 ++ ops2) p = run_ops ops2 (run_ops ops1 p).
Proof.
  revert p. induction ops1 as [| o ops1 IH]; intros p; [reflexivity |].
  simpl. apply IH.
Qed.

Lemma accepted_app ops1 ops2 p :
  accepted (ops1 ++ ops2) p = accepted ops1 p ++ accepted ops2 (run_ops ops1 p).
Proof.
  revert p. induction ops1 as [| o ops1 IH]; intros p; [reflexivity |].
  simpl. by rewrite IH, app_assoc.
Qed.

Lemma ledger_wait acc id w p :
  workers p !! id = Some w -> at_wait w ->
  ledger acc p -> ledger acc (workerThread_wait id p).
Proof.
  intros Hw Hat (taken & Hacc & Hperm).
  assert (Hnone : held w = None) by (destruct Hat as [-> | ->]; reflexivity).
  unfold workerThread_wait, workerThread_after_wait.
  destruct (wait_pred p); [destruct (stop p && tasks_empty p) |].
  - exists taken. unfold in_hand; simpl.
    rewrite (in_hand_same _ id w Returned Hw) by (by rewrite Hnone). done.
  - destruct (tasks p) as [| task rest] eqn:Hq.
    + exists taken. unfold in_hand; simpl.
      rewrite (in_hand_same _ id w (Dequeued None) Hw) by (by rewrite Hnone).
      by rewrite Hq.
    + exists (taken ++ [task]). unfold in_hand; simpl. split.
      * rewrite Hacc. by rewrite <- app_assoc.
      * rewrite (in_hand_take _ id w (Dequeued (Some task)) task Hw Hnone eq_refl).
        rewrite Hperm. unfold in_hand.
        rewrite <- Permutation_cons_append. apply Permutation_middle.
  - exists taken. unfold in_hand; simpl.
    rewrite (in_hand_same _ id w InWait Hw) by (by rewrite Hnone). done.
Qed.

Lemma ledger_step acc id p p' :
  workerThread_step id p = Some p' -> ledger acc p -> ledger acc p'.
Proof.
  unfold workerThread_step. intros Hstep Hled.
  destruct (workers p !! id) as [w |] eqn:Hw; [| discriminate].
  destruct w as [| | [task |] | task |].
  - injection Hstep as <-.
    apply (ledger_wait acc id LoopTop); [exact Hw | by left | exact Hled].
  - destruct (decide (id ∈ condition p)); [discriminate |].
    injection Hstep as <-.
    apply (ledger_wait acc id InWait); [exact Hw | by right | exact Hled].
  - injection Hstep as <-. destruct Hled as (taken & Hacc & Hperm).
    exists taken. unfold in_hand in *; simpl.
    by rewrite (in_hand_same _ id _ (Executing task) Hw).
  - injection Hstep as <-. destruct Hled as (taken & Hacc & Hperm).
    exists taken. unfold in_hand in *; simpl.
    by rewrite (in_hand_same _ id _ LoopTop Hw).
  - injection Hstep as <-. destruct Hled as (taken & Hacc & Hperm).
    exists taken. unfold in_hand in *; simpl. split; [exact Hacc |].
    rewrite Hperm.
    rewrite (in_hand_give _ id (Executing task) LoopTop task Hw eq_refl eq_refl).
    rewrite <- app_assoc. reflexivity.
  - discriminate.
Qed.

Lemma ledger_run acc schedule p : ledger acc p -> ledger acc (run schedule p).
Proof.
  revert p. induction schedule as [| id rest IH]; intros p Hled; [exact Hled |].
  simpl. apply IH.
  destruct (workerThread_step id p) as [p' |] eqn:Hstep; [| exact Hled].
  exact (ledger_step acc id p p' Hstep Hled).
Qed.

Lemma ledger_shutdown acc schedule p :
  ledger acc p -> ledger acc (shutdown schedule p).2.
Proof.
  intros Hled. unfold shutdown.
  destruct (stop p); [exact Hled |]. simpl.
  assert (Hrun : ledger acc
            (run schedule (with_condition [] (with_stop true p)))).
  { apply ledger_run. exact Hled. }
  destruct (all_returned _); exact Hrun.
Qed.

Lemma ledger_apply_op acc o p :
  ledger acc p -> ledger (acc ++ newly_accepted o p) (apply_op o p).
Proof.
  intros Hled. destruct o as [pick task | id | id | schedule]; simpl.
  - unfold enqueue. destruct (stop p); [by rewrite app_nil_r |].
    destruct (CondVar.notify_one pick _) as [woken ws]. simpl.
    destruct Hled as (taken & Hacc & Hperm).
    exists taken. split; [subst acc; simpl; by rewrite <- app_assoc | exact Hperm].
  - rewrite app_nil_r.
    destruct (workerThread_step id p) as [p' |] eqn:Hstep; [| exact Hled].
    exact (ledger_step acc id p p' Hstep Hled).
  - rewrite app_nil_r. exact Hled.
  - rewrite app_nil_r. by apply ledger_shutdown.
Qed.

Lemma ledger_run_ops acc ops p :
  ledger acc p -> ledger (acc ++ accepted ops p) (run_ops ops p).
Proof.
  revert acc p. induction ops as [| o ops IH]; intros acc p Hled.
  - simpl. by rewrite app_nil_r.
  - simpl. rewrite app_assoc. apply IH. by apply ledger_apply_op.
Qed.

Lemma ledger_create n : ledger [] (create n).
Proof.
  exists []. unfold in_hand, create; simpl. split; [reflexivity |].
  induction n as [| n IH]; [reflexivity | csimpl; exact IH].
Qed.

End PoolRunFacts.

Section PoolInvariant.
Import ThreadPool PoolRun.

Lemma Forall2_insert_r {A B} (P : A -> B -> Prop) (l : list A) (k : list B)
    (i : nat) (x : A) (y : B) :
  Forall2 P l k -> l !! i = Some x -> P x y -> Forall2 P l (<[i := y]> k).
Proof.
  intros Hall Hl Hxy. rewrite <- (list_insert_id l i x Hl).
  by apply Forall2_insert.
Qed.

Lemma executing_count_insert (l : list worker_pc) (i : nat) (w w' : worker_pc) :
  l !! i = Some w ->
  count_eq true (is_executing <$> <[i := w']> l)
  = count_eq true (is_executing <$> l)
    - (if is_executing w then 1 else 0) + (if is_executing w' then 1 else 0).
Proof.
  intros Hi. rewrite list_fmap_insert.
  rewrite (count_eq_insert true i (is_executing w) (is_executing w')).
  - destruct (is_executing w), (is_executing w'); simpl; reflexivity.
  - by rewrite list_lookup_fmap, Hi.
Qed.

Lemma executing_count_bounds (l : list worker_pc) :
  0 <= count_eq true (is_executing <$> l) <= Z.of_nat (length l).
Proof.
  pose proof (count_eq_bounds true (is_executing <$> l)) as Hb.
  by rewrite length_fmap in Hb.
Qed.

(** The part of [workerThread] that runs with [queueMutex] held, entered
    with [workerStates[id]] showing IDLE. *)
Lemma pool_inv_wait n id w p :
  workers p !! id = Some w -> at_wait w ->
  workerStates p !! id = Some IDLE ->
  pool_inv n p -> pool_inv n (workerThread_wait id p).
Proof.
  intros Hw Hat Hidle (Hcons & Hlen & Hshows & Hact).
  assert (Hexec : is_executing w = false) by (destruct Hat as [-> | ->]; reflexivity).
  split_and!.
  - by apply (workerThread_wait_consistent id w).
  - by rewrite workerThread_wait_workers_length.
  - unfold workerThread_wait, workerThread_after_wait.
    destruct (wait_pred p); [destruct (stop p && tasks_empty p) |]; simpl.
    + by apply Forall2_insert.
    + destruct (tasks p); simpl; by apply (Forall2_insert_l _ _ _ _ _ IDLE).
    + by apply (Forall2_insert_l _ _ _ _ _ IDLE).
  - unfold workerThread_wait, workerThread_after_wait.
    destruct (wait_pred p); [destruct (stop p && tasks_empty p) |]; simpl.
    + rewrite (executing_count_insert _ id w _ Hw), Hexec. simpl. lia.
    + destruct (tasks p); simpl;
        rewrite (executing_count_insert _ id w _ Hw), Hexec; simpl; lia.
    + rewrite (executing_count_insert _ id w _ Hw), Hexec. simpl. lia.
Qed.

Lemma pool_inv_step n id p p' :
  Z.of_nat n < 2 ^ 64 ->
  workerThread_step id p = Some p' -> pool_inv n p -> pool_inv n p'.
Proof.
  intros Hn Hstep Hinv.
  pose proof Hinv as (Hcons & Hlen & Hshows & Hact).
  pose proof (workerThread_step_consistent id p p' Hstep Hcons) as Hcons'.
  pose proof (workerThread_step_workers_length id p p' Hstep) as Hlen'.
  unfold workerThread_step in Hstep.
  destruct (workers p !! id) as [w |] eqn:Hw; [| discriminate].
  destruct (Forall2_lookup_l _ _ _ _ _ Hshows Hw) as (st & Hst & Hshow).
  pose proof (executing_count_bounds (workers p)) as Hb.
  destruct w as [| | [task |] | task |]; simpl in Hshow.
  - (* top of the loop *)
    injection Hstep as <-.
    apply (pool_inv_wait n id LoopTop); [exact Hw | by left | |].
    + simpl. apply list_lookup_insert_eq. eapply lookup_lt_Some; eauto.
    + split_and!; simpl.
      * by apply set_state_consistent.
      * exact Hlen.
      * apply (Forall2_insert_r _ _ _ _ LoopTop); [done | done | by left].
      * exact Hact.
  - (* woken inside the wait *)
    destruct (decide (id ∈ condition p)); [discriminate |].
    injection Hstep as <-. subst st.
    by apply (pool_inv_wait n id InWait); [| right | |].
  - (* the task in hand is started *)
    injection Hstep as <-. split_and!; simpl; [exact Hcons' | | |].
    + by rewrite length_insert.
    + by apply Forall2_insert.
    + rewrite (executing_count_insert _ id _ _ Hw). simpl.
      pose proof (executing_count_bounds (<[id := Executing task]> (workers p))) as Hb'.
      rewrite (executing_count_insert _ id _ _ Hw), length_insert in Hb'.
      simpl in Hb'. rewrite wrap_size_t_small by lia. lia.
  - injection Hstep as <-. subst st. split_and!; simpl; [exact Hcons' | | |].
    + by rewrite length_insert.
    + apply (Forall2_insert_l _ _ _ _ _ IDLE); [done | done | by left].
    + rewrite (executing_count_insert _ id _ _ Hw). simpl. lia.
  - (* the task in hand has run *)
    injection Hstep as <-. subst st. split_and!; simpl; [exact Hcons' | | |].
    + by rewrite length_insert.
    + apply (Forall2_insert_l _ _ _ _ _ RUNNING); [done | done | by right].
    + rewrite (executing_count_insert _ id _ _ Hw). simpl.
      pose proof (executing_count_bounds (<[id := LoopTop]> (workers p))) as Hb'.
      rewrite (executing_count_insert _ id _ _ Hw), length_insert in Hb'.
      simpl in Hb'. rewrite wrap_size_t_small by lia. lia.
  - discriminate.
Qed.

Lemma pool_inv_run n schedule p :
  Z.of_nat n < 2 ^ 64 -> pool_inv n p -> pool_inv n (run schedule p).
Proof.
  intros Hn. revert p.
  induction schedule as [| id rest IH]; intros p Hinv; [exact Hinv |].
  simpl. apply IH.
  destruct (workerThread_step id p) as [p' |] eqn:Hstep; [| exact Hinv].
  exact (pool_inv_step n id p p' Hn Hstep Hinv).
Qed.

Lemma pool_inv_apply_op n o p :
  Z.of_nat n < 2 ^ 64 -> pool_inv n p -> pool_inv n (apply_op o p).
Proof.
  intros Hn Hinv. destruct o as [pick task | id | id | schedule]; simpl.
  - destruct Hinv as (Hcons & Hlen & Hshows & Hact).
    split; [by apply enqueue_consistent |].
    unfold enqueue. destruct (stop p); [done |].
    by destruct (CondVar.notify_one pick _).
  - destruct (workerThread_step id p) as [p' |] eqn:Hstep; [| exact Hinv].
    exact (pool_inv_step n id p p' Hn Hstep Hinv).
  - destruct Hinv as ([Hsize Hret] & Hlen & Hshows & Hact).
    split_and!; [by split | done | done | done].
  - unfold shutdown. destruct (stop p) eqn:Hstop; [exact Hinv |]. simpl.
    assert (Hrun : pool_inv n (run schedule (with_condition [] (with_stop true p)))).
    { apply pool_inv_run; [exact Hn |].
      destruct Hinv as ([Hsize Hret] & Hlen & Hshows & Hact).
      split_and!; [| done | done | done].
      split; simpl; [exact Hsize |].
      intros Hin. destruct (Hret Hin) as [Hs _]. congruence. }
    destruct (all_returned _); [| exact Hrun].
    destruct Hrun as ([Hsize Hret] & Hlen & Hshows & Hact).
    split_and!; [by split | done | done | done].
Qed.

Lemma pool_inv_create n : pool_inv n (create n).
Proof.
  split_and!.
  - apply create_consistent.
  - simpl. by rewrite length_replicate.
  - simpl. apply Forall2_replicate. by left.
  - simpl. rewrite fmap_replicate. simpl.
    by rewrite count_eq_replicate.
Qed.

Lemma pool_inv_run_ops n ops p :
  Z.of_nat n < 2 ^ 64 -> pool_inv n p -> pool_inv n (run_ops ops p).
Proof.
  intros Hn. revert p. induction ops as [| o ops IH]; intros p Hinv; [exact Hinv |].
  simpl. apply IH. by apply pool_inv_apply_op.
Qed.

End PoolInvariant.

Section PoolWakeups.
Import ThreadPool PoolRun.

Lemma can_run_spec id p :
  can_run id p
  <-> ∃ w, workers p !! id = Some w ∧ w ≠ Returned
           ∧ (w = InWait -> id ∉ condition p).
Proof.
  unfold can_run, workerThread_step. split.
  - intros [p' Hstep].
    destruct (workers p !! id) as [w |]; [| discriminate].
    exists w. split; [reflexivity |].
    destruct w as [| | [task |] | task |]; try discriminate;
      try (split; [done | done]).
    destruct (decide (id ∈ condition p)); [discriminate |]. by split.
  - intros (w & -> & Hret & Hawake).
    destruct w as [| | [task |] | task |];
      try (exfalso; by apply Hret); try by eexists.
    destruct (decide (id ∈ condition p)) as [Hin |]; [| by eexists].
    by destruct (Hawake eq_refl).
Qed.

(** A worker that comes out of the critical section leaving a task in the
    queue has one in its hands. *)
Lemma wait_can_run id p :
  (id < length (workers p))%nat ->
  tasks (workerThread_wait id p) ≠ [] -> can_run id (workerThread_wait id p).
Proof.
  intros Hlt.
  unfold workerThread_wait, workerThread_after_wait, wait_pred, tasks_empty.
  destruct (tasks p) as [| task rest] eqn:Hqp; simpl.
  - rewrite orb_false_r, andb_true_r.
    destruct (stop p); simpl; rewrite ?Hqp; intros Hne; by destruct Hne.
  - rewrite orb_true_r, andb_false_r. simpl. intros _.
    apply can_run_spec. exists (Dequeued (Some task)). simpl.
    rewrite list_lookup_insert_eq by exact Hlt. by split_and!.
Qed.

Lemma stepped_can_run id p p' :
  workerThread_step id p = Some p' -> tasks p' ≠ [] -> can_run id p'.
Proof.
  unfold workerThread_step. intros Hstep Hq.
  destruct (workers p !! id) as [w |] eqn:Hw; [| discriminate].
  assert (Hlt : (id < length (workers p))%nat) by (by eapply lookup_lt_Some).
  destruct w as [| | [task |] | task |].
  - injection Hstep as <-. by apply wait_can_run.
  - destruct (decide (id ∈ condition p)); [discriminate |].
    injection Hstep as <-. by apply wait_can_run.
  - injection Hstep as <-. apply can_run_spec. exists (Executing task). simpl.
    rewrite list_lookup_insert_eq by exact Hlt. by split_and!.
  - injection Hstep as <-. apply can_run_spec. exists LoopTop. simpl.
    rewrite list_lookup_insert_eq by exact Hlt. by split_and!.
  - injection Hstep as <-. apply can_run_spec. exists LoopTop. simpl.
    rewrite list_lookup_insert_eq by exact Hlt. by split_and!.
  - discriminate.
Qed.

Lemma awake_inv_set_state id st p : awake_inv p -> awake_inv (set_state id st p).
Proof.
  intros (Hnd & Hsleep & Hrun & Hhand). split_and!; try done.
  intros Hq Hne. destruct (Hrun Hq Hne) as [u Hu]. exists u.
  apply can_run_spec. by apply can_run_spec in Hu.
Qed.

Lemma awake_inv_wait id w p :
  workers p !! id = Some w -> at_wait w -> id ∉ condition p ->
  awake_inv p -> awake_inv (workerThread_wait id p).
Proof.
  intros Hw Hat Hout (Hnd & Hsleep & Hrun & Hhand).
  assert (Hlt : (id < length (workers p))%nat) by (by eapply lookup_lt_Some).
  assert (Hothers : ∀ w' (u : nat), u ∈ condition p ->
            <[id := w']> (workers p) !! u = Some InWait).
  { intros w' u Hin. destruct (decide (u = id)) as [-> | Hne]; [done |].
    rewrite list_lookup_insert_ne by done. by apply Hsleep. }
  assert (Hkeep : ∀ w', w' ≠ Dequeued None ->
            Dequeued None ∉ <[id := w']> (workers p)).
  { intros w' Hne Hin.
    apply elem_of_insert_inv in Hin as [Hin | Hin]; [by apply Hne | by apply Hhand]. }
  split_and!.
  - unfold workerThread_wait, workerThread_after_wait.
    destruct (wait_pred p);
      [destruct (stop p && tasks_empty p); [| destruct (tasks p)] |]; simpl;
      try exact Hnd.
    unfold CondVar.block. apply NoDup_app.
    split_and!; [exact Hnd | | apply NoDup_singleton].
    intros u Hin Hin'. apply list_elem_of_singleton in Hin'. by subst u.
  - unfold workerThread_wait, workerThread_after_wait.
    destruct (wait_pred p);
      [destruct (stop p && tasks_empty p); [| destruct (tasks p)] |]; simpl;
      try (intros u Hin; by apply Hothers).
    intros u Hin. unfold CondVar.block in Hin. apply elem_of_app in Hin as [Hin | Hin].
    + by apply Hothers.
    + apply list_elem_of_singleton in Hin. subst u. by apply list_lookup_insert_eq.
  - intros Hq _. exists id. by apply wait_can_run.
  - unfold workerThread_wait, workerThread_after_wait, wait_pred, tasks_empty.
    destruct (tasks p) as [| task rest]; simpl.
    + rewrite orb_false_r, andb_true_r. destruct (stop p); simpl; by apply Hkeep.
    + rewrite orb_true_r, andb_false_r. simpl. by apply Hkeep.
Qed.

Lemma awake_inv_step id p p' :
  workerThread_step id p = Some p' -> awake_inv p -> awake_inv p'.
Proof.
  intros Hstep Hinv. pose proof Hstep as Hstep0. unfold workerThread_step in Hstep.
  destruct (workers p !! id) as [w |] eqn:Hw; [| discriminate].
  pose proof Hinv as (Hnd & Hsleep & Hrun & Hhand).
  assert (Hawake : w ≠ InWait -> id ∉ condition p).
  { intros Hne Hin. pose proof (Hsleep id Hin) as Hs.
    unfold thread_id in *. congruence. }
  assert (Hmove : ∀ w' (q : ThreadPool),
            w ≠ InWait -> w' ≠ InWait -> w' ≠ Dequeued None ->
            workers q = <[id := w']> (workers p) -> condition q = condition p ->
            workerThread_step id p = Some q -> awake_inv q).
  { intros w' q Hw1 Hw2 Hw3 Hws Hcond Hq. unfold awake_inv. rewrite Hws, Hcond.
    split_and!.
    - exact Hnd.
    - intros u Hin. destruct (decide (u = id)) as [-> | Hne].
      + by destruct (Hawake Hw1).
      + rewrite list_lookup_insert_ne by done. by apply Hsleep.
    - intros Hq' _. exists id. by apply (stepped_can_run id p).
    - intros Hin.
      apply elem_of_insert_inv in Hin as [Hin | Hin]; [by apply Hw3 | by apply Hhand]. }
  destruct w as [| | [task |] | task |].
  - injection Hstep as <-.
    apply (awake_inv_wait id LoopTop); [exact Hw | by left | |].
    + simpl. by apply Hawake.
    + by apply awake_inv_set_state.
  - destruct (decide (id ∈ condition p)) as [| Hout]; [discriminate |].
    injection Hstep as <-.
    by apply (awake_inv_wait id InWait); [| right | |].
  - injection Hstep as <-.
    by apply (Hmove (Executing task)).
  - exfalso. apply Hhand. by eapply list_elem_of_lookup_2.
  - injection Hstep as <-.
    by apply (Hmove LoopTop).
  - discriminate.
Qed.

Lemma awake_inv_run schedule p : awake_inv p -> awake_inv (run schedule p).
Proof.
  revert p. induction schedule as [| id rest IH]; intros p Hinv; [exact Hinv |].
  simpl. apply IH.
  destruct (workerThread_step id p) as [p' |] eqn:Hstep; [| exact Hinv].
  exact (awake_inv_step id p p' Hstep Hinv).
Qed.

Lemma awake_inv_apply_op o p :
  consistent p -> awake_inv p -> awake_inv (apply_op o p).
Proof.
  intros [Hsize Hret] Hinv. pose proof Hinv as (Hnd & Hsleep & Hrun & Hhand).
  destruct o as [pick task | id | id | schedule]; simpl.
  - unfold enqueue. destruct (stop p) eqn:Hstop; [exact Hinv |]. simpl.
    pose proof (notify_one_rest pick (condition p) Hnd) as [Hnd' Hsub].
    destruct (CondVar.notify_one pick (condition p)) as [woken ws] eqn:Hnotify.
    simpl in *. split_and!; simpl.
    + exact Hnd'.
    + intros u Hin. by apply Hsleep, Hsub.
    + intros _ Hne. destruct (workers p) as [| w0 rest] eqn:Hws; [done |].
      assert (Hw0 : workers p !! 0%nat = Some w0) by (by rewrite Hws).
      destruct (decide (w0 = InWait ∧ 0%nat ∈ condition p)) as [[-> Hin] | Hfree].
      * assert (Hcond : condition p ≠ []).
        { intros Hnil. rewrite Hnil in Hin. by apply elem_of_nil in Hin. }
        destruct (notify_one_split pick (condition p) Hnd Hcond)
          as (t & _ & Hin' & Hout).
        rewrite Hnotify in Hout. simpl in Hout.
        exists t. apply can_run_spec. exists InWait. simpl.
        split_and!; [rewrite ?Hws; by apply Hsleep | done | done].
      * exists 0%nat. apply can_run_spec. exists w0. simpl.
        split_and!; [exact Hw0 | |].
        -- intros ->. destruct Hret as [Hs _]; [by left | congruence].
        -- intros -> Hin. apply Hfree. split; [reflexivity |]. by apply Hsub.
    + exact Hhand.
  - destruct (workerThread_step id p) as [p' |] eqn:Hstep; [| exact Hinv].
    exact (awake_inv_step id p p' Hstep Hinv).
  - split_and!; simpl.
    + by apply NoDup_filter.
    + intros u Hin. apply list_elem_of_filter in Hin as [_ Hin]. by apply Hsleep.
    + intros Hq Hne. destruct (Hrun Hq Hne) as [u Hu]. exists u.
      apply can_run_spec. apply can_run_spec in Hu as (w & Hw & Hnr & Hawake).
      exists w. simpl. split_and!; [done | done |].
      intros Hw' Hin. apply list_elem_of_filter in Hin as [_ Hin]. by apply Hawake.
    + exact Hhand.
  - unfold shutdown. destruct (stop p) eqn:Hstop; [exact Hinv |]. simpl.
    assert (Hrun1 : awake_inv (run schedule (with_condition [] (with_stop true p)))).
    { apply awake_inv_run. split_and!; simpl.
      - constructor.
      - intros u Hin. by apply elem_of_nil in Hin.
      - intros Hq Hne. destruct (Hrun Hq Hne) as [u Hu]. exists u.
        apply can_run_spec. apply can_run_spec in Hu as (w & Hw & Hnr & Hawake).
        exists w. simpl. split_and!; [done | done |].
        intros _ Hin. by apply elem_of_nil in Hin.
      - exact Hhand. }
    destruct (all_returned _); [| exact Hrun1].
    destruct Hrun1 as (Hnd1 & Hsleep1 & Hrun1 & Hhand1).
    split_and!; simpl; try done.
    intros Hq Hne. destruct (Hrun1 Hq Hne) as [u Hu]. exists u.
    apply can_run_spec. by apply can_run_spec in Hu.
Qed.

Lemma awake_inv_create n : awake_inv (create n).
Proof.
  split_and!; simpl.
  - constructor.
  - intros u Hin. by apply elem_of_nil in Hin.
  - done.
  - intros Hin. apply elem_of_replicate in Hin as [Hin _]. discriminate.
Qed.

Lemma consistent_apply_op o p : consistent p -> consistent (apply_op o p).
Proof.
  intros Hcons. destruct o as [pick task | id | id | schedule]; simpl.
  - by apply enqueue_consistent.
  - destruct (workerThread_step id p) as [p' |] eqn:Hstep; [| exact Hcons].
    exact (workerThread_step_consistent id p p' Hstep Hcons).
  - destruct Hcons as [Hsize Hret]. by split.
  - unfold shutdown. destruct (stop p) eqn:Hstop; [exact Hcons |]. simpl.
    assert (Hrun : consistent (run schedule (with_condition [] (with_stop true p)))).
    { apply run_consistent. destruct Hcons as [Hsize Hret].
      split; simpl; [exact Hsize |].
      intros Hin. destruct (Hret Hin) as [Hs _]. congruence. }
    destruct (all_returned _); [| exact Hrun].
    destruct Hrun as [Hsize Hret]. by split.
Qed.

Lemma awake_inv_run_ops ops p :
  consistent p -> awake_inv p -> awake_inv (run_ops ops p).
Proof.
  revert p. induction ops as [| o ops IH]; intros p Hcons Hinv; [exact Hinv |].
  simpl. apply IH; [by apply consistent_apply_op | by apply awake_inv_apply_op].
Qed.

End PoolWakeups.

Section PoolOrder.
Import ThreadPool PoolRun.

Lemma apply_op_workers_length o p :
  length (workers (apply_op o p)) = length (workers p).
Proof.
  destruct o as [pick task | id | id | schedule]; simpl.
  - unfold enqueue. destruct (stop p); [reflexivity |].
    by destruct (CondVar.notify_one pick _).
  - destruct (workerThread_step id p) as [p' |] eqn:Hstep; [| reflexivity].
    exact (workerThread_step_workers_length id p p' Hstep).
  - reflexivity.
  - unfold shutdown. destruct (stop p); [reflexivity |]. simpl.
    destruct (all_returned _); simpl; by rewrite run_workers_length.
Qed.

Lemma run_ops_workers_length ops p :
  length (workers (run_ops ops p)) = length (workers p).
Proof.
  revert p. induction ops as [| o ops IH]; intros p; [reflexivity |].
  simpl. by rewrite IH, apply_op_workers_length.
Qed.

Lemma in_order_step acc id p p' :
  length (workers p) = 1%nat ->
  workerThread_step id p = Some p' -> in_order acc p -> in_order acc p'.
Proof.
  intros Hlen Hstep Hord. unfold in_order, in_hand in *.
  destruct (workers p) as [| w [| w1 ws]] eqn:Hws; try discriminate.
  unfold workerThread_step in Hstep. rewrite Hws in Hstep.
  destruct id as [| id]; [| discriminate]. simpl in Hstep.
  destruct w as [| | [task |] | task |]; try discriminate.
  - injection Hstep as <-.
    unfold workerThread_wait, workerThread_after_wait, wait_pred, tasks_empty. simpl.
    destruct (tasks p) as [| task rest] eqn:Hq; destruct (stop p); simpl;
      rewrite ?Hws, ?Hq; csimpl; try exact Hord.
    all: rewrite Hord; csimpl; reflexivity.
  - destruct (decide (0%nat ∈ condition p)); [discriminate |].
    injection Hstep as <-.
    unfold workerThread_wait, workerThread_after_wait, wait_pred, tasks_empty. simpl.
    destruct (tasks p) as [| task rest] eqn:Hq; destruct (stop p); simpl;
      rewrite ?Hws, ?Hq; csimpl; try exact Hord.
    all: rewrite Hord; csimpl; reflexivity.
  - injection Hstep as <-. simpl. rewrite Hws. exact Hord.
  - injection Hstep as <-. simpl. rewrite Hws. exact Hord.
  - injection Hstep as <-. simpl. rewrite Hws. csimpl.
    rewrite Hord. csimpl. by rewrite <- app_assoc.
Qed.

Lemma in_order_run acc schedule p :
  length (workers p) = 1%nat -> in_order acc p -> in_order acc (run schedule p).
Proof.
  revert p. induction schedule as [| id rest IH]; intros p Hlen Hord; [exact Hord |].
  simpl. destruct (workerThread_step id p) as [p' |] eqn:Hstep; simpl.
  - apply IH.
    + by rewrite (workerThread_step_workers_length id p p' Hstep).
    + exact (in_order_step acc id p p' Hlen Hstep Hord).
  - by apply IH.
Qed.

Lemma in_order_apply_op acc o p :
  length (workers p) = 1%nat ->
  in_order acc p -> in_order (acc ++ newly_accepted o p) (apply_op o p).
Proof.
  intros Hlen Hord. destruct o as [pick task | id | id | schedule]; simpl.
  - unfold enqueue. destruct (stop p); [by rewrite app_nil_r |].
    destruct (CondVar.notify_one pick _) as [woken ws]. simpl.
    unfold in_order, in_hand in *. simpl. rewrite Hord.
    by rewrite <- !app_assoc.
  - rewrite app_nil_r.
    destruct (workerThread_step id p) as [p' |] eqn:Hstep; [| exact Hord].
    exact (in_order_step acc id p p' Hlen Hstep Hord).
  - rewrite app_nil_r. exact Hord.
  - rewrite app_nil_r. unfold shutdown. destruct (stop p); [exact Hord |]. simpl.
    assert (Hrun : in_order acc
              (run schedule (with_condition [] (with_stop true p)))).
    { by apply in_order_run. }
    destruct (all_returned _); exact Hrun.
Qed.

Lemma in_order_run_ops acc ops p :
  length (workers p) = 1%nat ->
  in_order acc p -> in_order (acc ++ accepted ops p) (run_ops ops p).
Proof.
  revert acc p. induction ops as [| o ops IH]; intros acc p Hlen Hord.
  - simpl. by rewrite app_nil_r.
  - simpl. rewrite app_assoc. apply IH.
    + by rewrite apply_op_workers_length.
    + by apply in_order_apply_op.
Qed.

End PoolOrder.

(** ** The pool over a whole run

    A run is any interleaving of calls of [enqueue] and [shutdown], of
    steps of the workers and of spurious wake-ups, from the constructor
    on. *)
Section PoolTheorems.
Import ThreadPool PoolRun.

Lemma pool_inv_reached n ops :
  Z.of_nat n < 2 ^ 64 -> pool_inv n (run_ops ops (create n)).
Proof. intros Hn. apply pool_inv_run_ops; [exact Hn | apply pool_inv_create]. Qed.

Lemma consistent_run_ops ops p : consistent p -> consistent (run_ops ops p).
Proof.
  revert p. induction ops as [| o ops IH]; intros p Hcons; [exact Hcons |].
  simpl. apply IH. by apply consistent_apply_op.
Qed.

Lemma awake_inv_reached n ops : awake_inv (run_ops ops (create n)).
Proof.
  apply awake_inv_run_ops; [apply create_consistent | apply awake_inv_create].
Qed.

Lemma ledger_reached n ops :
  ledger (accepted ops (create n)) (run_ops ops (create n)).
Proof. apply (ledger_run_ops [] ops (create n)), ledger_create. Qed.

(** X14: throughout a run, what [getThreadState] returns follows the
    worker.  It is never [BLOCKED]; it is [TERMINATED] exactly when the
    index is out of range or [workerThread] has returned; it is [RUNNING]
    while the worker is between [activeTasks++] and [activeTasks--]; and
    it is [IDLE] while the worker sleeps in [condition.wait]. *)
Theorem thread_state_follows_worker (n : nat) (ops : list op) (id : nat) :
  Z.of_nat n < 2 ^ 64 ->
  let p := run_ops ops (create n) in
  let st := (getThreadState id p).1 in
  st ≠ BLOCKED
  ∧ (st = TERMINATED <-> (n <= id)%nat ∨ workers p !! id = Some Returned)
  ∧ (∀ t, workers p !! id = Some (Executing t) -> st = RUNNING)
  ∧ (workers p !! id = Some InWait -> st = IDLE).
Proof.
  intros Hn p st.
  destruct (pool_inv_reached n ops Hn) as ([Hsize _] & Hlen & Hshows & _).
  fold p in Hsize, Hlen, Hshows. subst st. unfold getThreadState.
  destruct (decide (length (workerStates p) <= id)%nat) as [Hout | Hin]; simpl.
  - assert (Hnone : workers p !! id = None) by (apply lookup_ge_None; lia).
    rewrite Hnone. split_and!; try done.
    split; [intros _; left; lia | done].
  - destruct (lookup_lt_is_Some_2 (workers p) id ltac:(lia)) as [w Hw].
    destruct (Forall2_lookup_l _ _ _ _ _ Hshows Hw) as (s & Hs & Hshow).
    rewrite Hw, Hs. simpl.
    assert (Hterm : s = TERMINATED <-> (n <= id)%nat ∨ Some w = Some Returned).
    { split.
      - intros ->. right. destruct w; simpl in Hshow; intuition congruence.
      - intros [Hge | [= ->]]; [lia | exact Hshow]. }
    split_and!; [| exact Hterm | |].
    + intros ->. destruct w; simpl in Hshow; intuition congruence.
    + intros t [= ->]. exact Hshow.
    + intros [= ->]. exact Hshow.
Qed.

Lemma thread_state_follows_worker_witness :
  Z.of_nat 2 < 2 ^ 64
  ∧ (getThreadState 0
       (run_ops [OpEnqueue 0 7%nat; OpWorker 0; OpWorker 0] (create 2))).1
    = RUNNING.
Proof.
  split; [reflexivity |].
  destruct (thread_state_follows_worker 2
              [OpEnqueue 0 7%nat; OpWorker 0; OpWorker 0] 0 eq_refl)
    as (_ & _ & Hexec & _).
  apply (Hexec 7%nat). reflexivity.
Defined.

(** X15: throughout a run [activeTasks] is the number of workers inside a
    task; it never wraps and never exceeds the pool size, which stays
    what the constructor was given. *)
Theorem active_tasks_count_working_workers (n : nat) (ops : list op) :
  Z.of_nat n < 2 ^ 64 ->
  let p := run_ops ops (create n) in
  getActiveTasks p = count_eq true (is_executing <$> workers p)
  ∧ 0 <= getActiveTasks p <= Z.of_nat (getPoolSize p)
  ∧ getPoolSize p = n.
Proof.
  intros Hn p.
  destruct (pool_inv_reached n ops Hn) as (_ & Hlen & _ & Hact).
  fold p in Hlen, Hact. unfold getActiveTasks, getPoolSize.
  split_and!; [exact Hact | | | exact Hlen];
    rewrite Hact; apply executing_count_bounds.
Qed.

Lemma active_tasks_count_working_workers_witness :
  Z.of_nat 3 < 2 ^ 64
  ∧ getActiveTasks
      (run_ops [OpEnqueue 0 7%nat; OpEnqueue 0 8%nat; OpWorker 2; OpWorker 2;
                OpWorker 0; OpWorker 0; OpWorker 2] (create 3)) = 1.
Proof.
  split; [reflexivity |].
  destruct (active_tasks_count_working_workers 3
              [OpEnqueue 0 7%nat; OpEnqueue 0 8%nat; OpWorker 2; OpWorker 2;
               OpWorker 0; OpWorker 0; OpWorker 2] eq_refl) as (Hact & _ & _).
  rewrite Hact. reflexivity.
Defined.

(** X16: no accepted task is lost or run twice.  At every point of a run
    the tasks [enqueue] has accepted, in the order of acceptance, are a
    first part that has left the queue followed by the queue itself, and
    the first part is, up to order, the tasks that have been run together
    with those the workers hold. *)
Theorem every_task_accounted_once (n : nat) (ops : list op) :
  let p := run_ops ops (create n) in
  ∃ taken,
    accepted ops (create n) = taken ++ tasks p
    ∧ taken ≡ₚ executed p ++ in_hand p
    ∧ (length (accepted ops (create n))
       = length (executed p) + length (in_hand p) + getQueuedTasks p)%nat
    ∧ (NoDup (accepted ops (create n)) ->
       NoDup (executed p ++ in_hand p ++ tasks p)).
Proof.
  intros p. destruct (ledger_reached n ops) as (taken & Hacc & Hperm).
  fold p in Hacc, Hperm. exists taken. split_and!; [exact Hacc | exact Hperm | |].
  - rewrite Hacc, length_app, Hperm, length_app. reflexivity.
  - rewrite Hacc, app_assoc, <- Hperm. done.
Qed.

Lemma every_task_accounted_once_witness :
  NoDup (accepted [OpEnqueue 0 7%nat; OpEnqueue 0 8%nat; OpWorker 0;
                   OpWorker 0; OpWorker 0; OpWorker 0] (create 1))
  ∧ executed (run_ops [OpEnqueue 0 7%nat; OpEnqueue 0 8%nat; OpWorker 0;
                       OpWorker 0; OpWorker 0; OpWorker 0] (create 1))
    = [7%nat]
  ∧ NoDup ([7%nat] ++ [8%nat] ++ []).
Proof.
  assert (Hacc : NoDup (accepted [OpEnqueue 0 7%nat; OpEnqueue 0 8%nat; OpWorker 0;
                                  OpWorker 0; OpWorker 0; OpWorker 0] (create 1))).
  { apply (bool_decide_unpack _). by vm_compute. }
  split; [exact Hacc |]. split; [reflexivity |].
  destruct (every_task_accounted_once 1
              [OpEnqueue 0 7%nat; OpEnqueue 0 8%nat; OpWorker 0;
               OpWorker 0; OpWorker 0; OpWorker 0]) as (taken & _ & _ & _ & Hnd).
  exact (Hnd Hacc).
Defined.

(** X17: a pool of one worker runs the tasks in the order [enqueue]
    accepted them. *)
Theorem single_worker_runs_in_order (ops : list op) :
  let p := run_ops ops (create 1) in
  accepted ops (create 1) = executed p ++ in_hand p ++ tasks p
  ∧ (length (in_hand p) <= 1)%nat.
Proof.
  intros p. split.
  - apply (in_order_run_ops [] ops (create 1)); reflexivity.
  - pose proof (run_ops_workers_length ops (create 1)) as Hlen. fold p in Hlen.
    unfold in_hand. destruct (workers p) as [| w [| w' ws]]; try discriminate.
    csimpl. destruct (held w); simpl; lia.
Qed.

(** X18: no wake-up is lost.  Throughout a run the wait set of
    [condition] holds only workers asleep in [condition.wait], and while a
    task is in the queue of a pool that has workers, some worker has a
    step to take.  A call of [enqueue] counts as one step here: its
    [notify_one] has been made when the task is seen in the queue. *)
Theorem queued_task_has_a_runner (n : nat) (ops : list op) :
  let p := run_ops ops (create n) in
  (∀ u : nat, u ∈ condition p -> workers p !! u = Some InWait)
  ∧ (tasks p ≠ [] -> (0 < n)%nat ->
     ∃ id p', (id < n)%nat ∧ workerThread_step id p = Some p').
Proof.
  intros p. destruct (awake_inv_reached n ops) as (_ & Hsleep & Hrun & _).
  fold p in Hsleep, Hrun. split; [exact Hsleep |].
  intros Hq Hn.
  pose proof (run_ops_workers_length ops (create n)) as Hlen. fold p in Hlen.
  simpl in Hlen. rewrite length_replicate in Hlen.
  destruct Hrun as [id [p' Hstep]]; [exact Hq | |].
  - intros Hnil. rewrite Hnil in Hlen. simpl in Hlen. lia.
  - exists id, p'. split; [| exact Hstep].
    unfold workerThread_step in Hstep.
    destruct (workers p !! id) eqn:Hw; [| discriminate].
    apply lookup_lt_Some in Hw. lia.
Qed.

Lemma queued_task_has_a_runner_witness :
  tasks (run_ops [OpWorker 0; OpWorker 1; OpEnqueue 0 7%nat] (create 2)) ≠ []
  ∧ (0 < 2)%nat
  ∧ ∃ id p',
      (id < 2)%nat
      ∧ workerThread_step id
          (run_ops [OpWorker 0; OpWorker 1; OpEnqueue 0 7%nat] (create 2))
        = Some p'.
Proof.
  assert (Hq : tasks (run_ops [OpWorker 0; OpWorker 1; OpEnqueue 0 7%nat]
                        (create 2)) ≠ []) by discriminate.
  assert (Hn : (0 < 2)%nat) by lia.
  split; [exact Hq |]. split; [exact Hn |].
  destruct (queued_task_has_a_runner 2
              [OpWorker 0; OpWorker 1; OpEnqueue 0 7%nat]) as [_ Hrun].
  exact (Hrun Hq Hn).
Defined.

(** X19: a worker never leaves the critical section of its loop without
    a task unless it returns: after the wait the queue is non-empty or the
    worker exits, so the tests [!tasks.empty()] and [if (task)] never
    fail. *)
Theorem worker_never_leaves_empty_handed (n : nat) (ops : list op) (id : nat) :
  workers (run_ops ops (create n)) !! id ≠ Some (Dequeued None).
Proof.
  destruct (awake_inv_reached n ops) as (_ & _ & _ & Hhand).
  intros Hw. apply Hhand. by eapply list_elem_of_lookup_2.
Qed.

Lemma worker_never_leaves_empty_handed_witness :
  workers (run_ops [OpShutdown [0]%nat; OpWorker 1] (create 2)) !! 1%nat
  ≠ Some (Dequeued None).
Proof.
  exact (worker_never_leaves_empty_handed 2 [OpShutdown [0]%nat; OpWorker 1] 1).
Defined.

End PoolTheorems.

Section PoolCompletion.
Import ThreadPool PoolRun.

Lemma completion_test_spec n p :
  pool_inv n p ->
  completion_test p = true <-> tasks p = [] ∧ none_executing p.
Proof.
  intros (_ & _ & _ & Hact). unfold completion_test, tasks_empty, none_executing.
  rewrite andb_true_iff, Z.eqb_eq, Hact. split.
  - intros [Hq Hzero]. split; [by destruct (tasks p) |].
    intros id t Hw.
    pose proof (count_eq_pos true (is_executing <$> workers p) id) as Hpos.
    rewrite list_lookup_fmap, Hw in Hpos. simpl in Hpos.
    specialize (Hpos eq_refl). lia.
  - intros [-> Hnone]. split; [done |]. apply count_eq_absent. intros id Hid.
    rewrite list_lookup_fmap in Hid.
    destruct (workers p !! id) as [w |] eqn:Hw; [| done]. simpl in Hid.
    destruct w; try discriminate. by apply (Hnone id task).
Qed.

Lemma waitForCompletion_passes rounds p :
  completion_test p = true -> waitForCompletion rounds p = Some p.
Proof. intros Ht. destruct rounds; simpl; by rewrite Ht. Qed.

Lemma waitForCompletion_returns rounds p p' :
  waitForCompletion rounds p = Some p' ->
  completion_test p' = true ∧ ∃ during, p' = run_ops during p.
Proof.
  revert p. induction rounds as [| r rest IH]; intros p; simpl.
  - destruct (completion_test p) eqn:Ht; [| discriminate].
    intros [= <-]. split; [done |]. by exists [].
  - destruct (completion_test p) eqn:Ht.
    + intros [= <-]. split; [done |]. by exists [].
    + intros Hw. destruct (IH _ Hw) as [Hc [during ->]]. split; [done |].
      exists (r ++ during). by rewrite run_ops_app.
Qed.

(** X20: [waitForCompletion] returns at once when the queue is empty and
    no worker is inside a task.  Whenever it returns, after whatever went
    on in the pool during its sleeps, the queue is empty, no worker is
    inside a task, and every task accepted so far has been run or is held
    by a worker; it changes nothing itself. *)
Theorem waitForCompletion_finds_pool_quiet (n : nat) (ops : list op) :
  Z.of_nat n < 2 ^ 64 ->
  let p := run_ops ops (create n) in
  (tasks p = [] -> none_executing p ->
   ∀ rounds, waitForCompletion rounds p = Some p)
  ∧ (∀ rounds p', waitForCompletion rounds p = Some p' ->
       ∃ during,
         p' = run_ops (ops ++ during) (create n)
         ∧ tasks p' = [] ∧ none_executing p'
         ∧ accepted (ops ++ during) (create n) ≡ₚ executed p' ++ in_hand p').
Proof.
  intros Hn p. split.
  - intros Hq Hnone rounds. apply waitForCompletion_passes.
    apply (completion_test_spec n); [by apply pool_inv_reached | done].
  - intros rounds p' Hwait.
    destruct (waitForCompletion_returns rounds p p' Hwait) as [Htest [during Hp']].
    exists during. unfold p in Hp'. rewrite <- run_ops_app in Hp'.
    split; [exact Hp' |].
    pose proof (pool_inv_reached n (ops ++ during) Hn) as Hinv.
    rewrite <- Hp' in Hinv.
    apply (completion_test_spec n p' Hinv) in Htest as [Hq Hnone].
    split_and!; [exact Hq | exact Hnone |].
    destruct (ledger_reached n (ops ++ during)) as (taken & Hacc & Hperm).
    rewrite <- Hp' in Hacc, Hperm. rewrite Hq, app_nil_r in Hacc.
    by rewrite Hacc.
Qed.

Lemma waitForCompletion_finds_pool_quiet_witness :
  Z.of_nat 1 < 2 ^ 64
  ∧ waitForCompletion [[OpWorker 0; OpWorker 0]; [OpWorker 0]]
      (run_ops [OpEnqueue 0 7%nat; OpWorker 0] (create 1))
    = Some (run_ops [OpEnqueue 0 7%nat; OpWorker 0] (create 1)).
Proof.
  split; [reflexivity |].
  destruct (waitForCompletion_finds_pool_quiet 1
              [OpEnqueue 0 7%nat; OpWorker 0] eq_refl) as [Hquiet _].
  apply Hquiet; [reflexivity |].
  intros id t. destruct id as [| [| id]]; discriminate.
Defined.

(** X21: [waitForCompletion] can return while an accepted task has not
    been started.  A worker that has taken the task from the queue and
    released [queueMutex] has not yet counted it in [activeTasks]: the
    test finds the queue empty and the count at 0. *)
Theorem waitForCompletion_can_miss_a_task
    (n pick id : nat) (t : Task) (rounds : list (list op)) :
  (id < n)%nat ->
  let p := run_ops [OpEnqueue pick t; OpWorker id] (create n) in
  waitForCompletion rounds p = Some p
  ∧ accepted [OpEnqueue pick t; OpWorker id] (create n) = [t]
  ∧ workers p !! id = Some (Dequeued (Some t))
  ∧ executed p = [].
Proof.
  intros Hid p.
  assert (Hw : replicate n LoopTop !! id = Some LoopTop)
    by (by apply lookup_replicate).
  assert (Hp : p = set_worker id (Dequeued (Some t))
                    (with_tasks [] (set_state id IDLE
                       (with_condition [] (with_tasks [t] (create n)))))).
  { unfold p. simpl. unfold enqueue. simpl.
    unfold workerThread_step. simpl. rewrite Hw. reflexivity. }
  split_and!.
  - apply waitForCompletion_passes. rewrite Hp. reflexivity.
  - reflexivity.
  - rewrite Hp. simpl. apply list_lookup_insert_eq. by rewrite length_replicate.
  - rewrite Hp. reflexivity.
Qed.

Lemma waitForCompletion_can_miss_a_task_witness :
  (1 < 2)%nat
  ∧ waitForCompletion [[OpWorker 1]]
      (run_ops [OpEnqueue 0 7%nat; OpWorker 1] (create 2))
    = Some (run_ops [OpEnqueue 0 7%nat; OpWorker 1] (create 2))
  ∧ executed (run_ops [OpEnqueue 0 7%nat; OpWorker 1] (create 2)) = [].
Proof.
  split; [lia |].
  assert (Hid : (1 < 2)%nat) by lia.
  destruct (waitForCompletion_can_miss_a_task 2 0 1 7%nat [[OpWorker 1]] Hid)
    as (Hret & _ & _ & Hex).
  split; [exact Hret | exact Hex].
Defined.

Lemma omap_held_returned (l : list worker_pc) :
  (∀ w, w ∈ l -> w = Returned) -> omap held l = [].
Proof.
  induction l as [| w l IH]; intros Hall; [reflexivity |].
  csimpl. rewrite (Hall w) by (by left). simpl. apply IH.
  intros w' Hin. apply Hall. by right.
Qed.

(** X22: when a [shutdown] that found the pool running has joined the
    workers, the queue is empty, no worker holds a task, every task
    accepted since the constructor has been run exactly once,
    [activeTasks] is 0 and [getThreadState] returns [TERMINATED] for
    every index. *)
Theorem joined_shutdown_has_run_everything
    (n : nat) (ops : list op) (schedule : list nat) (p' : ThreadPool) :
  (0 < n)%nat ->
  Z.of_nat n < 2 ^ 64 ->
  let p := run_ops ops (create n) in
  stop p = false ->
  shutdown schedule p = (Joined, p') ->
  tasks p' = []
  ∧ in_hand p' = []
  ∧ accepted ops (create n) ≡ₚ executed p'
  ∧ getActiveTasks p' = 0
  ∧ ∀ id, (getThreadState id p').1 = TERMINATED.
Proof.
  intros Hpos Hn p Hstop Hshut.
  assert (Hp' : p' = run_ops (ops ++ [OpShutdown schedule]) (create n)).
  { rewrite run_ops_app. simpl. fold p. by rewrite Hshut. }
  assert (Hall : ∀ w, w ∈ workers p' -> w = Returned).
  { unfold shutdown in Hshut. rewrite Hstop in Hshut. simpl in Hshut.
    destruct (all_returned _) eqn:Hret; [| discriminate].
    injection Hshut as <-. simpl. intros w. by apply all_returned_spec. }
  pose proof (pool_inv_reached n (ops ++ [OpShutdown schedule]) Hn) as Hinv.
  rewrite <- Hp' in Hinv. destruct Hinv as ([Hsize Hret] & Hlen & Hshows & Hact).
  assert (Hhand : in_hand p' = []) by (by apply omap_held_returned).
  assert (Hq : tasks p' = []).
  { destruct (workers p') as [| w ws] eqn:Hws; [simpl in Hlen; lia |].
    assert (Hw : w ∈ w :: ws) by (by left).
    rewrite (Hall w Hw) in Hret. by destruct (Hret ltac:(by left)). }
  split_and!; [exact Hq | exact Hhand | | |].
  - destruct (ledger_reached n (ops ++ [OpShutdown schedule]))
      as (taken & Hacc & Hperm).
    rewrite <- Hp' in Hacc, Hperm.
    rewrite accepted_app in Hacc. simpl in Hacc.
    rewrite Hq, !app_nil_r in Hacc. rewrite Hhand, app_nil_r in Hperm.
    by rewrite Hacc.
  - unfold getActiveTasks. rewrite Hact. apply count_eq_absent.
    intros id Hid. rewrite list_lookup_fmap in Hid.
    destruct (workers p' !! id) as [w |] eqn:Hw; [| done].
    rewrite (Hall w) in Hid by (by eapply list_elem_of_lookup_2). done.
  - intros id. unfold getThreadState.
    destruct (decide _) as [| Hin]; [reflexivity |]. simpl.
    destruct (workerStates p' !! id) as [st |] eqn:Hst; [| reflexivity]. simpl.
    destruct (Forall2_lookup_r _ _ _ _ _ Hshows Hst) as (w & Hw & Hshow).
    rewrite (Hall w) in Hshow by (by eapply list_elem_of_lookup_2). exact Hshow.
Qed.

Lemma joined_shutdown_has_run_everything_witness :
  (0 < 2)%nat
  ∧ Z.of_nat 2 < 2 ^ 64
  ∧ stop (run_ops [OpEnqueue 0 7%nat; OpEnqueue 0 8%nat; OpWorker 1]
            (create 2)) = false
  ∧ [7; 8]%nat
    ≡ₚ executed
         (shutdown [1; 0; 0; 1; 0; 0; 1; 0]%nat
            (run_ops [OpEnqueue 0 7%nat; OpEnqueue 0 8%nat; OpWorker 1]
               (create 2))).2.
Proof.
  split; [lia |]. split; [reflexivity |]. split; [reflexivity |].
  assert (Hpos : (0 < 2)%nat) by lia.
  assert (Hshut :
    shutdown [1; 0; 0; 1; 0; 0; 1; 0]%nat
      (run_ops [OpEnqueue 0 7%nat; OpEnqueue 0 8%nat; OpWorker 1] (create 2))
    = (Joined,
       (shutdown [1; 0; 0; 1; 0; 0; 1; 0]%nat
          (run_ops [OpEnqueue 0 7%nat; OpEnqueue 0 8%nat; OpWorker 1]
             (create 2))).2)) by (vm_compute; reflexivity).
  destruct (joined_shutdown_has_run_everything 2
              [OpEnqueue 0 7%nat; OpEnqueue 0 8%nat; OpWorker 1]
              [1; 0; 0; 1; 0; 0; 1; 0]%nat _ Hpos eq_refl eq_refl Hshut)
    as (_ & _ & Hperm & _).
  exact Hperm.
Defined.

End PoolCompletion.

Section PoolJoin.
Import ThreadPool PoolRun.

Lemma weight_insert (l : list worker_pc) (i : nat) (w w' : worker_pc) :
  l !! i = Some w ->
  (sum_list (weight <$> <[i := w']> l) + weight w
   = sum_list (weight <$> l) + weight w')%nat.
Proof.
  revert i. induction l as [| x l IH]; intros i Hi; [done |].
  destruct i as [| i]; csimpl in *.
  - injection Hi as ->. lia.
  - specialize (IH i Hi). lia.
Qed.

Lemma not_all_returned (l : list worker_pc) :
  forallb (λ w, bool_decide (w = Returned)) l = false ->
  ∃ id w, l !! id = Some w ∧ w ≠ Returned.
Proof.
  induction l as [| x l IH]; [discriminate |]. simpl.
  destruct (bool_decide (x = Returned)) eqn:Hx; simpl.
  - intros Hl. destruct (IH Hl) as (id & w & Hw & Hne). by exists (S id), w.
  - intros _. exists 0%nat, x. split; [reflexivity |].
    by apply bool_decide_eq_false in Hx.
Qed.

(** Once [stop] is set and the sleepers have been woken, a worker that
    has not returned has a step to take, and the step brings the workers
    nearer to their return. *)
Lemma stopped_step_progress id w q :
  stop q = true -> condition q = [] ->
  workers q !! id = Some w -> w ≠ Returned ->
  ∃ q', workerThread_step id q = Some q'
        ∧ stop q' = true ∧ condition q' = []
        ∧ (work_left q' < work_left q)%nat.
Proof.
  intros Hstop Hcond Hw Hne. unfold workerThread_step. rewrite Hw.
  assert (Hwait : ∀ q0, workers q0 = workers q -> tasks q0 = tasks q ->
            stop q0 = true -> condition q0 = [] -> weight w = 1%nat ->
            stop (workerThread_wait id q0) = true
            ∧ condition (workerThread_wait id q0) = []
            ∧ (work_left (workerThread_wait id q0) < work_left q)%nat).
  { intros q0 Hws Hq Hs Hc Hweight.
    unfold workerThread_wait, workerThread_after_wait, wait_pred, tasks_empty, work_left.
    rewrite Hs, Hq. simpl.
    destruct (tasks q) as [| t rest]; simpl; rewrite Hws, ?Hq; simpl.
    - pose proof (weight_insert (workers q) id w Returned Hw) as Hsum.
      simpl in Hsum. split_and!; [done | done | lia].
    - pose proof (weight_insert (workers q) id w (Dequeued (Some t)) Hw) as Hsum.
      simpl in Hsum. split_and!; [done | done | lia]. }
  destruct w as [| | [t |] | t |].
  - eexists. split; [reflexivity |]. by apply Hwait.
  - rewrite Hcond. destruct (decide (id ∈ [])) as [Hin | _];
      [by apply elem_of_nil in Hin |].
    eexists. split; [reflexivity |]. by apply Hwait.
  - eexists. split; [reflexivity |]. unfold work_left. simpl.
    pose proof (weight_insert (workers q) id _ (Executing t) Hw) as Hsum.
    simpl in Hsum. split_and!; [done | done | lia].
  - eexists. split; [reflexivity |]. unfold work_left. simpl.
    pose proof (weight_insert (workers q) id _ LoopTop Hw) as Hsum.
    simpl in Hsum. split_and!; [done | done | lia].
  - eexists. split; [reflexivity |]. unfold work_left. simpl.
    pose proof (weight_insert (workers q) id _ LoopTop Hw) as Hsum.
    simpl in Hsum. split_and!; [done | done | lia].
  - done.
Qed.

Lemma stopped_pool_drains (m : nat) (q : ThreadPool) :
  (work_left q <= m)%nat -> stop q = true -> condition q = [] ->
  ∃ schedule,
    (length schedule <= m)%nat ∧ all_returned (run schedule q) = true.
Proof.
  revert q. induction m as [| m IH]; intros q Hm Hstop Hcond.
  - destruct (all_returned q) eqn:Hall; [exists []; by split |].
    destruct (not_all_returned _ Hall) as (id & w & Hw & Hne).
    destruct (stopped_step_progress id w q Hstop Hcond Hw Hne)
      as (q' & _ & _ & _ & Hless). lia.
  - destruct (all_returned q) eqn:Hall; [exists []; split; [simpl; lia | done] |].
    destruct (not_all_returned _ Hall) as (id & w & Hw & Hne).
    destruct (stopped_step_progress id w q Hstop Hcond Hw Hne)
      as (q' & Hstep & Hstop' & Hcond' & Hless).
    destruct (IH q' ltac:(lia) Hstop' Hcond') as (schedule & Hlen & Hret).
    exists (id :: schedule). simpl. rewrite Hstep. simpl. split; [lia | exact Hret].
Qed.

Lemma workerThread_step_workers id q q' :
  workerThread_step id q = Some q' ->
  ∃ w', workers q' = <[id := w']> (workers q).
Proof.
  unfold workerThread_step. intros Hstep.
  destruct (workers q !! id) as [[| | [task |] | task |] |]; try discriminate.
  - injection Hstep as <-.
    unfold workerThread_wait, workerThread_after_wait.
    destruct (wait_pred _);
      [destruct (stop _ && tasks_empty _); [| destruct (tasks _)] |];
      simpl; eauto.
  - destruct (decide (id ∈ condition q)); [discriminate |].
    injection Hstep as <-.
    unfold workerThread_wait, workerThread_after_wait.
    destruct (wait_pred _);
      [destruct (stop _ && tasks_empty _); [| destruct (tasks _)] |];
      simpl; eauto.
  - injection Hstep as <-. simpl. eauto.
  - injection Hstep as <-. simpl. eauto.
  - injection Hstep as <-. simpl. eauto.
Qed.

(** A step brings no task into play. *)
Lemma in_play_step t id q q' :
  workerThread_step id q = Some q' -> in_play t q' -> in_play t q.
Proof.
  unfold workerThread_step. intros Hstep.
  destruct (workers q !! id) as [w |] eqn:Hw; [| discriminate].
  assert (Hkeep : ∀ w' (l : list Task),
            (∀ u, u ∈ l -> u ∈ tasks q) ->
            (w' = Dequeued (Some t) -> t ∈ tasks q) ->
            w' ≠ Executing t ->
            (t ∈ l
             ∨ Dequeued (Some t) ∈ <[id := w']> (workers q)
             ∨ Executing t ∈ <[id := w']> (workers q)) ->
            in_play t q).
  { intros w' l Hl Hdeq Hex [Hin | [Hin | Hin]].
    - left. by apply Hl.
    - apply elem_of_insert_inv in Hin as [Hin | Hin];
        [left; by apply Hdeq | right; by left].
    - apply elem_of_insert_inv in Hin as [Hin | Hin];
        [by destruct Hex | right; by right]. }
  assert (Hwait : ∀ q0, workers q0 = workers q -> tasks q0 = tasks q ->
            in_play t (workerThread_wait id q0) -> in_play t q).
  { intros q0 Hws Hq. unfold workerThread_wait, workerThread_after_wait, in_play.
    destruct (wait_pred q0);
      [destruct (stop q0 && tasks_empty q0);
         [| destruct (tasks q0) as [| task rest] eqn:Hq0] |];
      simpl; rewrite ?Hws, ?Hq0.
    - apply Hkeep; [by rewrite Hq | discriminate | discriminate].
    - apply Hkeep; [intros u Hu; by apply elem_of_nil in Hu
                   | discriminate | discriminate].
    - apply Hkeep; [| | discriminate].
      + intros u Hu. rewrite <- Hq. by right.
      + intros [= ->]. rewrite <- Hq. by left.
    - apply Hkeep; [by rewrite Hq | discriminate | discriminate]. }
  destruct w as [| | [task |] | task |].
  - injection Hstep as <-. by apply Hwait.
  - destruct (decide (id ∈ condition q)); [discriminate |].
    injection Hstep as <-. by apply Hwait.
  - injection Hstep as <-. unfold in_play. simpl.
    intros [Hin | [Hin | Hin]]; [by left | |].
    + apply elem_of_insert_inv in Hin as [Hin | Hin]; [discriminate |].
      right. by left.
    + apply elem_of_insert_inv in Hin as [Hin | Hin]; [| right; by right].
      injection Hin as ->. right. left. by eapply list_elem_of_lookup_2.
  - injection Hstep as <-. unfold in_play. simpl. by apply Hkeep.
  - injection Hstep as <-. unfold in_play. simpl. by apply Hkeep.
  - discriminate.
Qed.

(** While every task in play returns, the workers run as if every task
    did. *)
Lemma run_when_returning returns schedule q :
  (∀ t, in_play t q -> returns t = true) ->
  run_when returns schedule q = run schedule q.
Proof.
  revert q. induction schedule as [| id rest IH]; intros q Hret; [reflexivity |].
  simpl.
  assert (Hsame : workerThread_step_when returns id q = workerThread_step id q).
  { unfold workerThread_step_when.
    destruct (workers q !! id) as [[| | task | task |] |] eqn:Hw; try reflexivity.
    rewrite Hret; [reflexivity |]. right. right. by eapply list_elem_of_lookup_2. }
  rewrite Hsame. apply IH.
  destruct (workerThread_step id q) as [q' |] eqn:Hstep; [| exact Hret].
  simpl. intros t Hin. apply Hret. by apply (in_play_step t id q q').
Qed.

(** A worker inside a task that does not return stays there. *)
Lemma run_when_stuck returns schedule q id t :
  workers q !! id = Some (Executing t) -> returns t = false ->
  workers (run_when returns schedule q) !! id = Some (Executing t).
Proof.
  revert q. induction schedule as [| id' rest IH]; intros q Hw Hret; [exact Hw |].
  simpl. apply IH; [| exact Hret].
  unfold workerThread_step_when.
  destruct (decide (id' = id)) as [-> | Hne].
  - rewrite Hw, Hret. exact Hw.
  - assert (Hkeep : ∀ q', workerThread_step id' q = Some q' ->
              workers q' !! id = Some (Executing t)).
    { intros q' Hstep.
      destruct (workerThread_step_workers id' q q' Hstep) as [w' ->].
      by rewrite list_lookup_insert_ne. }
    destruct (workers q !! id') as [[| | task | task |] |];
      try (destruct (returns task); [| exact Hw]);
      destruct (workerThread_step id' q) as [q' |] eqn:Hstep;
      simpl; first [by apply Hkeep | exact Hw].
Qed.

(** X23: [shutdown] finishes its joins when the tasks return, and only
    then.  Whatever state the pool is in when [shutdown] finds it
    running, if every task that is queued or in a worker's hands returns
    when it is called, the workers have a way to return, in no more steps
    than three for each queued task and for each task not yet started
    that a worker holds, two for each task being run, and one for each
    worker waiting: no worker is left asleep.  While a worker is inside a
    task that does not return, [shutdown] stays in its joins whatever the
    schedule. *)
Theorem shutdown_joins_when_tasks_return
    (returns : Task -> bool) (p : ThreadPool) :
  stop p = false ->
  ((∀ t, in_play t p -> returns t = true) ->
   ∃ schedule p',
     shutdown_when returns schedule p = (Joined, p')
     ∧ (length schedule <= work_left p)%nat
     ∧ (length schedule
        <= 3 * getPoolSize p + 3 * getQueuedTasks p)%nat)
  ∧ (∀ id t,
       workers p !! id = Some (Executing t) -> returns t = false ->
       ∀ schedule, (shutdown_when returns schedule p).1 = Joining).
Proof.
  intros Hstop. split.
  - intros Hret.
    destruct (stopped_pool_drains (work_left p)
                (with_condition [] (with_stop true p)))
      as (schedule & Hlen & Hall); [done | done | done |].
    exists schedule. unfold shutdown_when. rewrite Hstop. simpl.
    rewrite run_when_returning by exact Hret. rewrite Hall.
    eexists. split; [reflexivity |]. split; [exact Hlen |].
    etrans; [exact Hlen |]. unfold work_left, getPoolSize, getQueuedTasks.
    assert (Hsum : ∀ l : list worker_pc,
              (sum_list (weight <$> l) <= 3 * length l)%nat).
    { induction l as [| w l IHl]; csimpl; [lia |]. destruct w; simpl; lia. }
    specialize (Hsum (workers p)). lia.
  - intros id t Hw Hret schedule. unfold shutdown_when. rewrite Hstop. simpl.
    pose proof (run_when_stuck returns schedule
                  (with_condition [] (with_stop true p)) id t Hw Hret) as Hstuck.
    destruct (all_returned _) eqn:Hall; [| reflexivity].
    apply list_elem_of_lookup_2 in Hstuck.
    by apply (all_returned_spec _ _ Hall) in Hstuck.
Qed.

Lemma shutdown_joins_when_tasks_return_witness :
  let returns := λ t : Task, negb (t =? 9)%nat in
  let p := run_ops [OpEnqueue 0 7%nat; OpEnqueue 0 8%nat; OpWorker 1] (create 2) in
  let q := run_ops [OpEnqueue 0 9%nat; OpWorker 0; OpWorker 0] (create 1) in
  stop p = false
  ∧ (∀ t, in_play t p -> returns t = true)
  ∧ (∃ schedule p', shutdown_when returns schedule p = (Joined, p'))
  ∧ stop q = false
  ∧ workers q !! 0%nat = Some (Executing 9%nat)
  ∧ returns 9%nat = false
  ∧ (shutdown_when returns [0; 0; 0]%nat q).1 = Joining.
Proof.
  intros returns p q.
  assert (Hplay : ∀ t, in_play t p -> returns t = true).
  { intros t [Hin | [Hin | Hin]].
    - apply list_elem_of_singleton in Hin as ->. reflexivity.
    - apply elem_of_cons in Hin as [Hin | Hin]; [discriminate |].
      apply list_elem_of_singleton in Hin. injection Hin as ->. reflexivity.
    - apply elem_of_cons in Hin as [Hin | Hin]; [discriminate |].
      apply list_elem_of_singleton in Hin. discriminate. }
  assert (Hq : workers q !! 0%nat = Some (Executing 9%nat)) by reflexivity.
  destruct (shutdown_joins_when_tasks_return returns p eq_refl) as [Hjoin _].
  destruct (shutdown_joins_when_tasks_return returns q eq_refl) as [_ Hstuck].
  destruct (Hjoin Hplay) as (schedule & p' & Hshut & _).
  split_and!; [reflexivity | exact Hplay | by exists schedule, p' | reflexivity
              | exact Hq | reflexivity | exact (Hstuck 0%nat 9%nat Hq eq_refl _)].
Defined.

Lemma same_but_sleepers_refl p : same_but_sleepers p p.
Proof. by repeat split. Qed.

Lemma all_returned_no_step id p :
  all_returned p = true -> workerThread_step id p = None.
Proof.
  intros Hall. unfold workerThread_step.
  destruct (workers p !! id) as [w |] eqn:Hw; [| reflexivity].
  rewrite (all_returned_spec p w Hall); [reflexivity |].
  by eapply list_elem_of_lookup_2.
Qed.

Lemma apply_op_stop o p : stop p = true -> stop (apply_op o p) = true.
Proof.
  intros Hstop. destruct o as [pick task | id | id | schedule]; simpl.
  - unfold enqueue. by rewrite Hstop.
  - destruct (workerThread_step id p) as [p' |] eqn:Hstep; [| exact Hstop].
    simpl. by rewrite (workerThread_step_stop id p p' Hstep).
  - exact Hstop.
  - apply shutdown_sets_stop.
Qed.

Lemma apply_op_after_return o p :
  stop p = true -> all_returned p = true -> same_but_sleepers p (apply_op o p).
Proof.
  intros Hstop Hall. destruct o as [pick task | id | id | schedule]; simpl.
  - unfold enqueue. rewrite Hstop. apply same_but_sleepers_refl.
  - rewrite (all_returned_no_step id p Hall). apply same_but_sleepers_refl.
  - by repeat split.
  - unfold shutdown. rewrite Hstop. apply same_but_sleepers_refl.
Qed.

Lemma workerThread_step_cout id p p' :
  workerThread_step id p = Some p' -> cout p' = cout p.
Proof.
  unfold workerThread_step. intros Hstep.
  destruct (workers p !! id) as [[| | [task |] | task |] |]; try discriminate.
  - injection Hstep as <-.
    unfold workerThread_wait, workerThread_after_wait.
    destruct (wait_pred _);
      [destruct (stop _ && tasks_empty _); [| destruct (tasks _)] |];
      reflexivity.
  - destruct (decide (id ∈ condition p)); [discriminate |].
    injection Hstep as <-.
    unfold workerThread_wait, workerThread_after_wait.
    destruct (wait_pred _);
      [destruct (stop _ && tasks_empty _); [| destruct (tasks _)] |];
      reflexivity.
  - by injection Hstep as <-.
  - by injection Hstep as <-.
  - by injection Hstep as <-.
Qed.

(** Only the constructor and a [shutdown] that finds the flag clear
    print. *)
Lemma apply_op_cout o p : stop p = true -> cout (apply_op o p) = cout p.
Proof.
  intros Hstop. destruct o as [pick task | id | id | schedule]; simpl.
  - unfold enqueue. by rewrite Hstop.
  - destruct (workerThread_step id p) as [p' |] eqn:Hstep; [| reflexivity].
    exact (workerThread_step_cout id p p' Hstep).
  - reflexivity.
  - unfold shutdown. by rewrite Hstop.
Qed.

(** X24: a stopped pool cannot be started again.  Once [stop] is set it
    stays set whatever is called, and no task is accepted any more; once
    the workers have returned as well, no task is run and no worker
    state, counter or queue entry is written; and once the [shutdown]
    that set the flag has printed its line, nothing is printed any
    more. *)
Theorem stopped_pool_stays_stopped (ops : list op) (p : ThreadPool) :
  stop p = true ->
  stop (run_ops ops p) = true
  ∧ accepted ops p = []
  ∧ (all_returned p = true -> same_but_sleepers p (run_ops ops p))
  ∧ (PoolShutDown ∈ cout p -> cout (run_ops ops p) = cout p).
Proof.
  revert p. induction ops as [| o ops IH]; intros p Hstop.
  - split_and!; [exact Hstop | reflexivity | | reflexivity].
    intros _. apply same_but_sleepers_refl.
  - pose proof (apply_op_stop o p Hstop) as Hstop'.
    pose proof (apply_op_cout o p Hstop) as Hcout.
    destruct (IH (apply_op o p) Hstop') as (Hs & Hacc & Hsame & Hprint).
    simpl. split_and!; [exact Hs | | |].
    + rewrite Hacc, app_nil_r. destruct o; simpl; try reflexivity.
      by rewrite Hstop.
    + intros Hall.
      pose proof (apply_op_after_return o p Hstop Hall)
        as (Hw & Hq & Hst & Ha & Hws & He).
      destruct Hsame as (Hw' & Hq' & Hst' & Ha' & Hws' & He').
      { unfold all_returned. by rewrite Hw. }
      unfold same_but_sleepers. split_and!; congruence.
    + intros Hin. rewrite Hprint by (by rewrite Hcout). exact Hcout.
Qed.

Lemma stopped_pool_stays_stopped_witness :
  stop (shutdown [0; 0]%nat (create 1)).2 = true
  ∧ PoolShutDown ∈ cout (shutdown [0; 0]%nat (create 1)).2
  ∧ accepted [OpEnqueue 0 7%nat; OpWorker 0; OpShutdown [0]%nat; OpEnqueue 0 8%nat]
      (shutdown [0; 0]%nat (create 1)).2 = []
  ∧ cout (run_ops [OpEnqueue 0 7%nat; OpWorker 0; OpShutdown [0]%nat;
                   OpEnqueue 0 8%nat] (shutdown [0; 0]%nat (create 1)).2)
    = [PoolCreated 1; PoolShutDown].
Proof.
  assert (Hin : PoolShutDown ∈ cout (shutdown [0; 0]%nat (create 1)).2)
    by (right; by left).
  split; [reflexivity |]. split; [exact Hin |].
  destruct (stopped_pool_stays_stopped
              [OpEnqueue 0 7%nat; OpWorker 0; OpShutdown [0]%nat; OpEnqueue 0 8%nat]
              (shutdown [0; 0]%nat (create 1)).2 eq_refl)
    as (_ & Hacc & _ & Hprint).
  split; [exact Hacc |]. rewrite (Hprint Hin). reflexivity.
Defined.

Lemma run_no_workers schedule q : workers q = [] -> run schedule q = q.
Proof.
  induction schedule as [| id rest IHs]; intros Hq; [reflexivity |].
  simpl. unfold workerThread_step. rewrite Hq. simpl. by apply IHs.
Qed.

Lemma no_workers_apply_op o p :
  workers p = [] ->
  workers (apply_op o p) = []
  ∧ executed (apply_op o p) = executed p
  ∧ tasks (apply_op o p) = tasks p ++ newly_accepted o p.
Proof.
  intros Hws. destruct o as [pick task | id | id | schedule]; simpl.
  - unfold enqueue. destruct (stop p); [by rewrite app_nil_r |].
    by destruct (CondVar.notify_one pick _).
  - unfold workerThread_step. rewrite Hws. simpl. by rewrite app_nil_r.
  - by rewrite app_nil_r.
  - rewrite app_nil_r. unfold shutdown. destruct (stop p); [done |]. simpl.
    rewrite run_no_workers by exact Hws.
    unfold all_returned. simpl. rewrite Hws. done.
Qed.

Lemma no_workers_run_ops ops p :
  workers p = [] ->
  workers (run_ops ops p) = []
  ∧ executed (run_ops ops p) = executed p
  ∧ tasks (run_ops ops p) = tasks p ++ accepted ops p.
Proof.
  revert p. induction ops as [| o ops IH]; intros p Hws.
  - simpl. by rewrite app_nil_r.
  - destruct (no_workers_apply_op o p Hws) as (Hws' & He & Hq).
    destruct (IH (apply_op o p) Hws') as (Hws'' & He' & Hq').
    simpl. split_and!; [done | congruence |].
    by rewrite Hq', Hq, app_assoc.
Qed.

(** X25: a pool constructed with no worker accepts tasks and never runs
    them.  The queue holds every accepted task, in order; [shutdown]
    returns at once and leaves them there; and while the queue is
    non-empty [waitForCompletion] does not return, however long it
    polls. *)
Theorem pool_without_workers (ops : list op) :
  let p := run_ops ops (create 0) in
  executed p = []
  ∧ tasks p = accepted ops (create 0)
  ∧ (∀ schedule, stop p = false ->
       ∃ p', shutdown schedule p = (Joined, p') ∧ tasks p' = tasks p)
  ∧ (tasks p ≠ [] -> ∀ rounds, waitForCompletion rounds p = None).
Proof.
  intros p.
  destruct (no_workers_run_ops ops (create 0) eq_refl) as (Hws & He & Hq).
  fold p in Hws, He, Hq. simpl in He, Hq.
  split_and!; [exact He | exact Hq | |].
  - intros schedule Hstop.
    unfold shutdown. rewrite Hstop. simpl.
    rewrite run_no_workers by exact Hws.
    unfold all_returned. simpl. rewrite Hws. simpl.
    eexists. split; reflexivity.
  - intros Hne rounds. clear He Hq. revert Hws Hne. generalize p. clear p.
    induction rounds as [| r rest IH]; intros p Hws Hne.
    + simpl. unfold completion_test, tasks_empty. by destruct (tasks p).
    + simpl. unfold completion_test, tasks_empty.
      destruct (tasks p) as [| t q] eqn:Hq; [done |]. simpl.
      destruct (no_workers_run_ops r p Hws) as (Hws' & _ & Hq').
      apply IH; [exact Hws' |]. rewrite Hq', Hq. done.
Qed.

Lemma pool_without_workers_witness :
  tasks (run_ops [OpEnqueue 0 7%nat; OpWorker 0] (create 0)) ≠ []
  ∧ waitForCompletion [[OpWorker 0]; [OpShutdown [0]%nat]]
      (run_ops [OpEnqueue 0 7%nat; OpWorker 0] (create 0)) = None.
Proof.
  assert (Hq : tasks (run_ops [OpEnqueue 0 7%nat; OpWorker 0] (create 0)) ≠ [])
    by discriminate.
  split; [exact Hq |].
  destruct (pool_without_workers [OpEnqueue 0 7%nat; OpWorker 0])
    as (_ & _ & _ & Hwait).
  exact (Hwait Hq _).
Defined.

End PoolJoin.

(** ** The Fibonacci task of the test program *)
Section TestTasksFacts.
Import TestTasks.

Lemma fib_step (k : nat) : fib (S (S k)) = fib (S k) + fib k.
Proof.
  unfold fib, fib_pair. rewrite !Nat.iter_succ. cbn [fst snd]. lia.
Qed.

Lemma fib_grows (k : nat) : 0 <= fib k <= fib (S k).
Proof.
  induction k as [| k IH]; [by vm_compute |].
  rewrite fib_step. lia.
Qed.

Lemma fib_monotone (j k : nat) : (j <= k)%nat -> fib j <= fib k.
Proof.
  induction 1 as [| k _ IH]; [lia |].
  pose proof (fib_grows k). lia.
Qed.

Lemma fib_47 : fib 47 = 2971215073.
Proof. by vm_compute. Qed.

Lemma fib_46 : fib 46 = 1836311903.
Proof. by vm_compute. Qed.

(** The loop, entered at [i = k] with the two Fibonacci numbers before
    [k], ends with the [n]-th. *)
Lemma fibonacci_loop_spec (n d k fuel : nat) :
  (n <= 46)%nat -> (2 <= k)%nat -> (k + d = S n)%nat -> (d < fuel)%nat ->
  fibonacci_loop fuel (Z.of_nat n) (Z.of_nat k) (fib (k - 2)) (fib (k - 1))
  = Some (fib n).
Proof.
  intros Hn. revert k fuel.
  induction d as [| d IH]; intros k fuel Hk Hsum Hfuel.
  - destruct fuel as [| fuel]; [lia |]. simpl.
    destruct (Z.leb_spec (Z.of_nat k) (Z.of_nat n)) as [Hle | _]; [lia |].
    f_equal. f_equal. lia.
  - destruct fuel as [| fuel]; [lia |]. simpl.
    destruct (Z.leb_spec (Z.of_nat k) (Z.of_nat n)) as [_ | Hgt]; [| lia].
    destruct k as [| [| k]]; try lia.
    replace (S (S k) - 2)%nat with k by lia.
    replace (S (S k) - 1)%nat with (S k) by lia.
    pose proof (fib_grows k) as Hk0.
    pose proof (fib_monotone (S (S k)) 46 ltac:(lia)) as Hk1.
    rewrite fib_46, fib_step in Hk1.
    rewrite !wrap_int_small by lia.
    replace (fib k + fib (S k)) with (fib (S (S k))) by (rewrite fib_step; lia).
    replace (Z.of_nat (S (S k)) + 1) with (Z.of_nat (S (S (S k)))) by lia.
    specialize (IH (S (S (S k))) fuel ltac:(lia) ltac:(lia) ltac:(lia)).
    replace (S (S (S k)) - 2)%nat with (S k) in IH by lia.
    replace (S (S (S k)) - 1)%nat with (S (S k)) in IH by lia.
    exact IH.
Qed.

(** X26: [fibonacciTask(n)] returns [n] itself for [n <= 1], negative
    arguments included, and the [n]-th Fibonacci number for
    [2 <= n <= 46], within [n] tests of its loop condition and without
    leaving the range of [int]; 46 is the last such argument, the 47th
    Fibonacci number being beyond [INT_MAX].  The Fibonacci numbers are
    those given by 0, 1 and the sum of the two before. *)
Theorem fibonacciTask_computes_fib (n : Z) (fuel : nat) :
  (n <= 1 -> fibonacciTask fuel n = Some n)
  ∧ (2 <= n <= 46 -> (Z.to_nat n <= fuel)%nat ->
     fibonacciTask fuel n = Some (fib (Z.to_nat n))
     ∧ 0 < fib (Z.to_nat n) < 2 ^ 31)
  ∧ 2 ^ 31 <= fib 47
  ∧ fib 0 = 0 ∧ fib 1 = 1 ∧ (∀ k, fib (S (S k)) = fib (S k) + fib k).
Proof.
  split_and!; [| | | reflexivity | reflexivity | exact fib_step].
  - intros Hn. unfold fibonacciTask.
    by destruct (Z.leb_spec n 1) as [_ | Hgt]; [| lia].
  - intros Hn Hfuel. unfold fibonacciTask.
    destruct (Z.leb_spec n 1) as [Hle | _]; [lia |].
    pose proof (fibonacci_loop_spec (Z.to_nat n) (Z.to_nat n - 1) 2 fuel
                  ltac:(lia) ltac:(lia) ltac:(lia) ltac:(lia)) as Hloop.
    rewrite Z2Nat.id in Hloop by lia. split; [exact Hloop |].
    pose proof (fib_monotone (Z.to_nat n) 46 ltac:(lia)) as Hup.
    pose proof (fib_monotone 1 (Z.to_nat n) ltac:(lia)) as Hlow.
    rewrite fib_46 in Hup. change (fib 1) with 1 in Hlow. lia.
  - rewrite fib_47. lia.
Qed.

Lemma fibonacciTask_computes_fib_witness :
  2 <= 30 <= 46 ∧ (Z.to_nat 30 <= 40)%nat
  ∧ fibonacciTask 40 30 = Some 832040.
Proof.
  assert (Hn : 2 <= 30 <= 46) by lia.
  assert (Hfuel : (Z.to_nat 30 <= 40)%nat) by lia.
  split; [exact Hn |]. split; [exact Hfuel |].
  destruct (fibonacciTask_computes_fib 30 40) as (_ & Hfib & _).
  destruct (Hfib Hn Hfuel) as [Hres _]. rewrite Hres. by vm_compute.
Defined.

End TestTasksFacts.

(** ** The order of the two mutexes of the pool *)
Section PoolLocksFacts.
Import PoolLocks.

(** Every lock operation changes what the thread holds by the mutex it
    names, and nothing else. *)
Lemma moves_holds printing at_pc a at_pc' :
  (a, at_pc') ∈ moves printing at_pc ->
  match a with
  | Lock m =>
      holds m at_pc = false ∧ holds m at_pc' = true
      ∧ ∀ m', m' ≠ m -> holds m' at_pc' = holds m' at_pc
  | Unlock m =>
      holds m at_pc = true ∧ holds m at_pc' = false
      ∧ ∀ m', m' ≠ m -> holds m' at_pc' = holds m' at_pc
  | Skip => ∀ m', holds m' at_pc' = holds m' at_pc
  end.
Proof.
  intros Hin.
  destruct at_pc, printing; simpl in Hin;
    repeat (apply elem_of_cons in Hin as [[= -> ->] | Hin]);
    try (by apply elem_of_nil in Hin);
    try (split_and!; [reflexivity | reflexivity | intros [] ?; done]);
    try (intros []; reflexivity).
Qed.

Lemma holder_set_holder m m' h s :
  holder m (set_holder m' h s) = if decide (m = m') then h else holder m s.
Proof. by destruct m, m'. Qed.

Lemma locks_inv_init n m : locks_inv (init n m).
Proof.
  intros mu i at_pc Hi. simpl in Hi.
  assert (Hat : at_pc = AtTop ∨ at_pc = Between).
  { apply list_elem_of_lookup_2 in Hi. apply elem_of_app in Hi as [Hi | Hi];
      apply elem_of_replicate in Hi as [-> _]; auto. }
  destruct mu; destruct Hat as [-> | ->]; simpl; split; done.
Qed.

Lemma locks_inv_step printing i s s' :
  step printing i s s' -> locks_inv s -> locks_inv s'.
Proof.
  intros Hstep Hinv. destruct Hstep as [at_pc a at_pc' s s0 Hi Hmove Hdo].
  pose proof (moves_holds printing at_pc a at_pc' Hmove) as Hholds.
  assert (Hlt : (i < length (threads s))%nat) by (by eapply lookup_lt_Some).
  intros mu j at_j Hj.
  destruct a as [m | m |]; simpl in Hdo.
  - destruct (holder m s) eqn:Hfree; [discriminate |]. injection Hdo as <-.
    destruct Hholds as (Hno & Hyes & Hsame).
    assert (Hthreads : threads (set_holder m (Some i) s) = threads s)
      by (by destruct m).
    simpl in Hj. rewrite Hthreads in Hj.
    assert (Hhold : holder mu (set_thread i at_pc' (set_holder m (Some i) s))
                    = if decide (mu = m) then Some i else holder mu s)
      by (by destruct mu, m).
    rewrite Hhold. destruct (decide (j = i)) as [-> | Hne].
    + rewrite list_lookup_insert_eq in Hj by exact Hlt. injection Hj as <-.
      destruct (decide (mu = m)) as [-> | Hmu]; [by rewrite Hyes |].
      rewrite (Hsame mu Hmu). by apply Hinv.
    + rewrite list_lookup_insert_ne in Hj by done.
      destruct (decide (mu = m)) as [-> | Hmu]; [| by apply Hinv].
      pose proof (Hinv m j at_j Hj) as Hj'. rewrite Hfree in Hj'.
      split; [intros Ht; by apply Hj' in Ht | intros [= ->]; done].
  - injection Hdo as <-. destruct Hholds as (Hyes & Hno & Hsame).
    assert (Hthreads : threads (set_holder m None s) = threads s)
      by (by destruct m).
    simpl in Hj. rewrite Hthreads in Hj.
    assert (Hhold : holder mu (set_thread i at_pc' (set_holder m None s))
                    = if decide (mu = m) then None else holder mu s)
      by (by destruct mu, m).
    rewrite Hhold.
    pose proof (proj1 (Hinv m i at_pc Hi) Hyes) as Hmine.
    destruct (decide (j = i)) as [-> | Hne].
    + rewrite list_lookup_insert_eq in Hj by exact Hlt. injection Hj as <-.
      destruct (decide (mu = m)) as [-> | Hmu]; [by rewrite Hno |].
      rewrite (Hsame mu Hmu). by apply Hinv.
    + rewrite list_lookup_insert_ne in Hj by done.
      destruct (decide (mu = m)) as [-> | Hmu]; [| by apply Hinv].
      split; [| done]. intros Ht. apply (Hinv m j at_j Hj) in Ht. congruence.
  - injection Hdo as <-. simpl in Hj.
    assert (Hhold : holder mu (set_thread i at_pc' s) = holder mu s)
      by (by destruct mu).
    rewrite Hhold. destruct (decide (j = i)) as [-> | Hne].
    + rewrite list_lookup_insert_eq in Hj by exact Hlt. injection Hj as <-.
      rewrite Hholds. by apply Hinv.
    + rewrite list_lookup_insert_ne in Hj by done. by apply Hinv.
Qed.

Lemma reachable_locks_inv printing s0 s :
  locks_inv s0 -> reachable printing s0 s -> locks_inv s.
Proof.
  intros H0. induction 1 as [| i s s' _ IH Hstep]; [exact H0 |].
  exact (locks_inv_step printing i s s' Hstep IH).
Qed.

Lemma reachable_trans printing s0 s1 s2 :
  reachable printing s0 s1 -> reachable printing s1 s2 -> reachable printing s0 s2.
Proof.
  intros H01. induction 1 as [| i s s' _ IH Hstep]; [exact H01 |].
  by eapply reachable_step.
Qed.

(** No thread is inside [printThreadStates] when it is never called. *)
Lemma no_print_step i s s' :
  step false i s s' ->
  (∀ j at_pc, threads s !! j = Some at_pc -> in_print at_pc = false) ->
  ∀ j at_pc, threads s' !! j = Some at_pc -> in_print at_pc = false.
Proof.
  intros Hstep Hnone j at_j Hj.
  destruct Hstep as [at_pc a at_pc' s s0 Hi Hmove Hdo].
  assert (Hthreads : threads s0 = threads s).
  { destruct a as [[] | [] |]; simpl in Hdo;
      try (destruct (queueMutex s)); try (destruct (stateMutex s));
      try discriminate; by injection Hdo as <-. }
  simpl in Hj. rewrite Hthreads in Hj.
  destruct (decide (j = i)) as [-> | Hne].
  - rewrite list_lookup_insert_eq in Hj by (by eapply lookup_lt_Some).
    injection Hj as <-. pose proof (Hnone i at_pc Hi) as Hat.
    destruct at_pc; simpl in Hmove, Hat; try discriminate;
      repeat (apply elem_of_cons in Hmove as [[= -> ->] | Hmove]);
      try (by apply elem_of_nil in Hmove); reflexivity.
  - rewrite list_lookup_insert_ne in Hj by done. by apply (Hnone j).
Qed.

Lemma reachable_no_print n m s :
  reachable false (init n m) s ->
  ∀ j at_pc, threads s !! j = Some at_pc -> in_print at_pc = false.
Proof.
  induction 1 as [| i s s' _ IH Hstep].
  - intros j at_pc Hj. simpl in Hj.
    apply list_elem_of_lookup_2 in Hj. apply elem_of_app in Hj as [Hj | Hj];
      apply elem_of_replicate in Hj as [-> _]; reflexivity.
  - by apply (no_print_step i s s').
Qed.

(** A thread that is about to unlock or to go on without a lock
    operation has a step to take; one that is about to lock has one when
    the mutex is free. *)
Lemma enabled_by_move printing i s at_pc a at_pc' :
  threads s !! i = Some at_pc ->
  (a, at_pc') ∈ moves printing at_pc ->
  match a with Lock m => holder m s = None | _ => True end ->
  enabled printing i s.
Proof.
  intros Hi Hmove Hfree.
  destruct a as [m | m |].
  - eexists. eapply step_move; [exact Hi | exact Hmove |].
    simpl. by rewrite Hfree.
  - eexists. eapply step_move; [exact Hi | exact Hmove | reflexivity].
  - eexists. eapply step_move; [exact Hi | exact Hmove | reflexivity].
Qed.

Lemma holders_inv_step printing i s s' :
  step printing i s s' -> holders_inv s -> holders_inv s'.
Proof.
  intros Hstep Hinv. destruct Hstep as [at_pc a at_pc' s s0 Hi Hmove Hdo].
  assert (Hlt : (i < length (threads s))%nat) by (by eapply lookup_lt_Some).
  intros mu j Hj.
  assert (Hkeep : ∀ k, is_Some (threads s !! k) ->
            is_Some (<[i := at_pc']> (threads s) !! k)).
  { intros k Hk. apply lookup_lt_is_Some. rewrite length_insert.
    by apply lookup_lt_is_Some. }
  assert (Hthreads : ∀ m h, threads (set_thread i at_pc' (set_holder m h s))
                            = <[i := at_pc']> (threads s))
    by (by intros []).
  assert (Hholder : ∀ m h, holder mu (set_thread i at_pc' (set_holder m h s))
                           = if decide (mu = m) then h else holder mu s)
    by (intros m h; by destruct mu, m).
  destruct a as [m | m |]; simpl in Hdo.
  - destruct (holder m s) eqn:Hfree; [discriminate |]. injection Hdo as <-.
    rewrite Hthreads. rewrite Hholder in Hj.
    destruct (decide (mu = m)) as [-> | Hne].
    + injection Hj as <-. apply Hkeep. by rewrite Hi.
    + apply Hkeep. by apply (Hinv mu j).
  - injection Hdo as <-. rewrite Hthreads. rewrite Hholder in Hj.
    destruct (decide (mu = m)) as [-> | Hne]; [discriminate |].
    apply Hkeep. by apply (Hinv mu j).
  - injection Hdo as <-. simpl. apply Hkeep. apply (Hinv mu j).
    by destruct mu.
Qed.

Lemma reachable_holders_inv printing s0 s :
  holders_inv s0 -> reachable printing s0 s -> holders_inv s.
Proof.
  intros H0. induction 1 as [| i s s' _ IH Hstep]; [exact H0 |].
  exact (holders_inv_step printing i s s' Hstep IH).
Qed.

Lemma holders_inv_init n m : holders_inv (init n m).
Proof. intros [] i Hi; discriminate. Qed.

(** X27: as long as [printThreadStates] is not called, the two mutexes
    cannot block the pool.  In every state the workers and the callers
    of the other member functions can reach, the thread that holds
    [stateMutex] has a step to take, and the thread that holds
    [queueMutex] has one as well or is waiting for [stateMutex], held by
    another thread: [stateMutex] is never held while [queueMutex] is
    being waited for. *)
Theorem mutexes_taken_in_one_order (n m : nat) (s : state) :
  reachable false (init n m) s ->
  (∀ i, stateMutex s = Some i -> enabled false i s)
  ∧ (∀ i, queueMutex s = Some i ->
       enabled false i s
       ∨ ∃ j, j ≠ i ∧ stateMutex s = Some j ∧ enabled false j s).
Proof.
  intros Hreach.
  pose proof (reachable_locks_inv false _ s (locks_inv_init n m) Hreach) as Hinv.
  pose proof (reachable_holders_inv false _ s (holders_inv_init n m) Hreach) as Hstand.
  pose proof (reachable_no_print n m s Hreach) as Hnone.
  assert (Hstate : ∀ i, stateMutex s = Some i -> enabled false i s).
  { intros i Hi. destruct (Hstand StateMutex i Hi) as [at_pc Hat].
    pose proof (proj2 (Hinv StateMutex i at_pc Hat) Hi) as Hholds.
    pose proof (Hnone i at_pc Hat) as Hprint.
    destruct at_pc; try discriminate;
      (eapply (enabled_by_move false i s _ (Unlock StateMutex));
       [exact Hat | by left | done]). }
  split; [exact Hstate |].
  intros i Hi. destruct (Hstand QueueMutex i Hi) as [at_pc Hat].
  pose proof (proj2 (Hinv QueueMutex i at_pc Hat) Hi) as Hholds.
  pose proof (Hnone i at_pc Hat) as Hprint.
  assert (Hwaits : holds StateMutex at_pc = false ->
            (∃ at_pc', (Lock StateMutex, at_pc') ∈ moves false at_pc) ->
            enabled false i s
            ∨ ∃ j, j ≠ i ∧ stateMutex s = Some j ∧ enabled false j s).
  { intros Hnot [at_pc' Hmove].
    destruct (stateMutex s) as [j |] eqn:Hj.
    - right. exists j. split_and!; [| reflexivity | by apply Hstate].
      intros ->. apply (Hinv StateMutex i at_pc Hat) in Hj. congruence.
    - left. by eapply (enabled_by_move false i s _ (Lock StateMutex)). }
  destruct at_pc; try discriminate;
    first
      [ apply Hwaits; [reflexivity | eexists; by left]
      | left; eapply (enabled_by_move false i s _ (Unlock StateMutex));
        [exact Hat | by left | done]
      | left; eapply (enabled_by_move false i s _ (Unlock QueueMutex));
        [exact Hat | by left | done] ].
Qed.

Lemma embrace_blocks i j s :
  embrace i j s -> ¬ enabled true i s ∧ ¬ enabled true j s.
Proof.
  intros (Hi & Hj & Hq & Hs). split; intros [s' Hstep];
    inversion Hstep as [at_pc a at_pc' s0 s1 Hat Hmove Hdo]; subst.
  - rewrite Hi in Hat. injection Hat as <-. simpl in Hmove.
    apply list_elem_of_singleton in Hmove. injection Hmove as -> ->.
    simpl in Hdo. by rewrite Hs in Hdo.
  - rewrite Hj in Hat. injection Hat as <-. simpl in Hmove.
    apply list_elem_of_singleton in Hmove. injection Hmove as -> ->.
    simpl in Hdo. by rewrite Hq in Hdo.
Qed.

Lemma embrace_step i j k s s' :
  locks_inv s -> embrace i j s -> step true k s s' -> embrace i j s'.
Proof.
  intros Hinv Hemb Hstep.
  destruct (embrace_blocks i j s Hemb) as [Hbi Hbj].
  destruct Hemb as (Hi & Hj & Hq & Hs).
  assert (Hki : k ≠ i) by (intros ->; apply Hbi; by exists s').
  assert (Hkj : k ≠ j) by (intros ->; apply Hbj; by exists s').
  destruct Hstep as [at_pc a at_pc' s s0 Hat Hmove Hdo].
  pose proof (moves_holds true at_pc a at_pc' Hmove) as Hholds.
  destruct a as [mu | mu |]; simpl in Hdo.
  - destruct mu; simpl in Hdo; [by rewrite Hq in Hdo | by rewrite Hs in Hdo].
  - destruct Hholds as (Hyes & _ & _).
    apply (Hinv mu k at_pc Hat) in Hyes.
    destruct mu; simpl in Hyes; congruence.
  - injection Hdo as <-. unfold embrace. simpl.
    rewrite !list_lookup_insert_ne by done. done.
Qed.

Lemma embrace_lasts i j s s' :
  locks_inv s -> embrace i j s -> reachable true s s' ->
  locks_inv s' ∧ embrace i j s'.
Proof.
  intros Hinv Hemb. induction 1 as [| k s1 s2 _ [IHinv IHemb] Hstep]; [done |].
  split; [by eapply locks_inv_step | by eapply embrace_step].
Qed.

(** X28: a call of [printThreadStates] can block the pool for good.
    [printThreadStates] takes [stateMutex] and then, in
    [getQueuedTasks], [queueMutex]; a worker at the top of its loop takes
    them in the other order.  With at least one worker and one caller
    there is a state, reached in two steps from the start, in which the
    worker holds [queueMutex] and waits for [stateMutex] while the
    caller holds [stateMutex] and waits for [queueMutex]; from there on,
    whatever the other threads do, neither of the two ever takes a step
    again. *)
Theorem printThreadStates_can_deadlock (n m : nat) :
  (0 < n)%nat -> (0 < m)%nat ->
  ∃ s, reachable true (init n m) s
       ∧ embrace 0 n s
       ∧ ∀ s', reachable true s s' ->
           embrace 0 n s' ∧ ¬ enabled true 0 s' ∧ ¬ enabled true n s'.
Proof.
  intros Hn Hm.
  assert (H0 : threads (init n m) !! 0%nat = Some AtTop).
  { simpl. rewrite lookup_app_l by (rewrite length_replicate; lia).
    by apply lookup_replicate. }
  assert (Hc : threads (init n m) !! n = Some Between).
  { simpl. rewrite lookup_app_r by (rewrite length_replicate; lia).
    rewrite length_replicate, Nat.sub_diag. by apply lookup_replicate. }
  set (s1 := set_thread 0 HasQueue (set_holder QueueMutex (Some 0%nat) (init n m))).
  set (s2 := set_thread n Printing (set_holder StateMutex (Some n) s1)).
  assert (Hs1 : step true 0 (init n m) s1).
  { eapply step_move; [exact H0 | by left | reflexivity]. }
  assert (Hs2 : step true n s1 s2).
  { eapply (step_move true n Between (Lock StateMutex) Printing);
      [| right; right; by left | reflexivity].
    simpl. rewrite list_lookup_insert_ne by lia. exact Hc. }
  assert (Hreach : reachable true (init n m) s2).
  { eapply reachable_step; [| exact Hs2].
    eapply reachable_step; [apply reachable_start | exact Hs1]. }
  assert (Hemb : embrace 0 n s2).
  { unfold embrace, s2, s1. simpl. split_and!; try reflexivity.
    - rewrite list_lookup_insert_ne by lia. apply list_lookup_insert_eq.
      rewrite length_app, !length_replicate. lia.
    - apply list_lookup_insert_eq.
      rewrite length_insert, length_app, !length_replicate. lia. }
  exists s2. split_and!; [exact Hreach | exact Hemb |].
  intros s' Hs'.
  pose proof (reachable_locks_inv true _ s2 (locks_inv_init n m) Hreach) as Hinv.
  destruct (embrace_lasts 0 n s2 s' Hinv Hemb Hs') as [_ Hemb'].
  split; [exact Hemb' | by apply embrace_blocks].
Qed.

Lemma printThreadStates_can_deadlock_witness :
  (0 < 2)%nat ∧ (0 < 1)%nat
  ∧ ∃ s, reachable true (init 2 1) s ∧ embrace 0 2 s.
Proof.
  assert (Hn : (0 < 2)%nat) by lia.
  assert (Hm : (0 < 1)%nat) by lia.
  split; [exact Hn |]. split; [exact Hm |].
  destruct (printThreadStates_can_deadlock 2 1 Hn Hm) as (s & Hreach & Hemb & _).
  by exists s.
Defined.

Lemma mutexes_taken_in_one_order_witness :
  reachable false (init 1 1)
    (set_thread 0 HasQueue (set_holder QueueMutex (Some 0%nat) (init 1 1)))
  ∧ enabled false 0
      (set_thread 0 HasQueue (set_holder QueueMutex (Some 0%nat) (init 1 1))).
Proof.
  assert (Hreach : reachable false (init 1 1)
            (set_thread 0 HasQueue
               (set_holder QueueMutex (Some 0%nat) (init 1 1)))).
  { eapply reachable_step; [apply reachable_start |].
    eapply (step_move false 0 AtTop (Lock QueueMutex) HasQueue);
      [reflexivity | by left | reflexivity]. }
  split; [exact Hreach |].
  destruct (mutexes_taken_in_one_order 1 1 _ Hreach) as [_ Hqueue].
  destruct (Hqueue 0%nat eq_refl) as [Hen | (j & _ & Hj & _)];
    [exact Hen | discriminate].
Defined.

End PoolLocksFacts.
